(** * Warlord Mendicant: the simulation model

    A shallow embedding of the model layer of the game
    (src/game/model): the unit factory, the unit registry
    (UnitManager), the combat resolver (CombatSystem), the world
    orchestrator (WorldState) and the tick driver (GameModel).

    Conventions of the embedding.

    - JavaScript objects live in a store.  Unit objects and array
      objects are addressed by natural numbers; an array holds the
      addresses of its elements, so two arrays can share a unit
      object, as the spread [...xs] and filter do in the source.
    - A stat of a unit is a [number]: an integer, or [NaN] for a stat
      that was read from an object that does not have it.
    - Times, coordinates and the value of Math.random() are
      rationals; distances are real numbers.  The roll of
      calculateDamage is rounded as IEEE doubles are ([round64]);
      the other arithmetic is exact.
    - The event bus is the list of the events emitted so far. *)

From Stdlib Require Import ZArith QArith Qminmax Qround Qpower Qreals Reals
  Psatz.
From stdpp Require Import gmap strings list.

Local Open Scope Z_scope.

(** ** Numbers *)

Inductive number :=
  | Num (z : Z)
  | NaN.

#[global] Instance number_eq_dec : EqDecision number.
Proof. solve_decision. Defined.

Definition num_add (a b : number) : number :=
  match a, b with Num p, Num q => Num (p + q) | _, _ => NaN end.

Definition num_sub (a b : number) : number :=
  match a, b with Num p, Num q => Num (p - q) | _, _ => NaN end.

Definition Math_max (a b : number) : number :=
  match a, b with Num p, Num q => Num (Z.max p q) | _, _ => NaN end.

Definition Math_min (a b : number) : number :=
  match a, b with Num p, Num q => Num (Z.min p q) | _, _ => NaN end.

(** [a <= b] and [a > b]; every comparison with NaN is false. *)
Definition num_le (a b : number) : bool :=
  match a, b with Num p, Num q => p <=? q | _, _ => false end.

Definition num_gt (a b : number) : bool :=
  match a, b with Num p, Num q => q <? p | _, _ => false end.

(** A time stamp or a duration: a rational, [QInf] for Infinity
    (a division by zero) and [QNaN] when a NaN took part. *)
Inductive qnumber :=
  | QNum (q : Q)
  | QInf
  | QNaN.

Definition q_add (a : Q) (b : qnumber) : qnumber :=
  match b with
  | QNum d => QNum (a + d)
  | QInf => QInf
  | QNaN => QNaN
  end.

(** [a < b] for a finite [a]. *)
Definition q_lt (a : Q) (b : qnumber) : bool :=
  match b with
  | QNum d => negb (Qle_bool d a)
  | QInf => true
  | QNaN => false
  end.

(** [v || 0] for the result [v] of Map.get: undefined, NaN and 0 are
    falsy. *)
Definition or_zero (v : option qnumber) : qnumber :=
  match v with
  | Some (QNum d) => QNum d
  | Some QInf => QInf
  | Some QNaN | None => QNum 0
  end.


(** ** Doubles

    A JavaScript number is an IEEE 754 double.  [round64 q] is the
    double nearest to the rational [q]: 53 significant bits, rounded
    to nearest with ties to even, and with the spacing 2^-1074 of the
    subnormal numbers below 2^-1022.  The model has no Infinity:
    magnitudes of 2^1024 and more are rounded like the others. *)

(** [floor (log2 q)] for a positive [q]. *)
Definition ilog2 (q : Q) : Z :=
  if Qle_bool 1 q then Z.log2 (Qfloor q)
  else - Z.log2_up (Qceiling (/ q)).

(** The integer nearest to [x], the even one of two that are equally
    near. *)
Definition rne (x : Q) : Z :=
  let f := Qfloor x in
  match (x - inject_Z f ?= 1 # 2)%Q with
  | Lt => f
  | Gt => f + 1
  | Eq => if Z.even f then f else f + 1
  end.

(** [q] is positive: [e] is the exponent of the last of its 53
    bits. *)
Definition round64_pos (q : Q) : Q :=
  let e := Z.max (ilog2 q - 52) (-1074) in
  (inject_Z (rne (q / 2 ^ e)) * 2 ^ e)%Q.

Definition round64 (q : Q) : Q :=
  match (q ?= 0)%Q with
  | Gt => round64_pos q
  | Lt => (- round64_pos (- q))%Q
  | Eq => 0%Q
  end.

(** The largest double below 1, and so the largest value that
    Math.random() can return. *)
Definition last_roll : Q := (1 - 1 / 2 ^ 53)%Q.

(** The double before it. *)
Definition last_roll_but_one : Q := (1 - 1 / 2 ^ 52)%Q.

(** ** Units (UnitTypes.ts) *)

Record Position := { x : Q; y : Q }.

Inductive Faction := player | enemy | neutral.

#[global] Instance Faction_eq_dec : EqDecision Faction.
Proof. solve_decision. Defined.

Record Unit := {
  id : Z;
  type : string;
  health : number;
  maxHealth : number;
  attack : number;
  defense : number;
  speed : number;
  range : number;
  position : Position;
  selected : bool;
  faction : Faction
}.

#[global] Instance Unit_inhabited : Inhabited Unit :=
  populate {| id := 0; type := ""; health := NaN; maxHealth := NaN;
              attack := NaN; defense := NaN; speed := NaN; range := NaN;
              position := {| x := 0; y := 0 |}; selected := false;
              faction := neutral |}.

Definition set_health (h : number) (u : Unit) : Unit :=
  {| id := id u; type := type u; health := h; maxHealth := maxHealth u;
     attack := attack u; defense := defense u; speed := speed u;
     range := range u; position := position u; selected := selected u;
     faction := faction u |}.

Definition set_selected (b : bool) (u : Unit) : Unit :=
  {| id := id u; type := type u; health := health u;
     maxHealth := maxHealth u; attack := attack u; defense := defense u;
     speed := speed u; range := range u; position := position u;
     selected := b; faction := faction u |}.

Definition set_position (p : Position) (u : Unit) : Unit :=
  {| id := id u; type := type u; health := health u;
     maxHealth := maxHealth u; attack := attack u; defense := defense u;
     speed := speed u; range := range u; position := p;
     selected := selected u; faction := faction u |}.

Record UnitStats := {
  stats_health : Z;
  stats_attack : Z;
  stats_defense : Z;
  stats_speed : Z;
  stats_range : Z
}.

(** The own properties of the object literal UNIT_TYPES. *)
Definition UNIT_TYPES : gmap string UnitStats :=
  <["archer" := {| stats_health := 60; stats_attack := 12;
                   stats_defense := 3; stats_speed := 3; stats_range := 5 |}]>
  (<["infantry-heavy" := {| stats_health := 120; stats_attack := 10;
                   stats_defense := 8; stats_speed := 2; stats_range := 1 |}]>
  (<["infantry-medium" := {| stats_health := 80; stats_attack := 8;
                   stats_defense := 5; stats_speed := 3; stats_range := 1 |}]>
  (<["mage-high" := {| stats_health := 50; stats_attack := 15;
                   stats_defense := 2; stats_speed := 2; stats_range := 4 |}]>
  (<["mage-squad" := {| stats_health := 70; stats_attack := 10;
                   stats_defense := 4; stats_speed := 3; stats_range := 3 |}]>
   ∅)))).

(** UNIT_TYPES is an object literal, so the property read
    UNIT_TYPES[type] also finds the members every object inherits from
    Object.prototype.  They are functions (or, for __proto__, an
    object): truthy, and without any of the stat properties. *)
Definition Object_prototype_keys : list string :=
  [ "constructor"; "hasOwnProperty"; "isPrototypeOf";
    "propertyIsEnumerable"; "toLocaleString"; "toString"; "valueOf";
    "__proto__"; "__defineGetter__"; "__defineSetter__";
    "__lookupGetter__"; "__lookupSetter__" ]%string.

Inductive Property :=
  | OwnStats (stats : UnitStats)
  | Inherited
  | Undefined.

Definition UNIT_TYPES_get (type : string) : Property :=
  match UNIT_TYPES !! type with
  | Some stats => OwnStats stats
  | None =>
      if bool_decide (type ∈ Object_prototype_keys) then Inherited
      else Undefined
  end.

(** [stats.health] and the like: a number on a stats record,
    undefined (here NaN) on an inherited member. *)
Definition read_stat (f : UnitStats → Z) (v : Property) : number :=
  match v with OwnStats stats => Num (f stats) | _ => NaN end.

(** ** The store, the registry's fields and the event bus *)

Inductive Event :=
  | unit_added (unit : nat)
  | unit_removed (unit : nat)
  | unit_selected (unit : nat)
  | unit_deselected (unit : nat)
  | units_selected (array : nat)
  | units_deselected (array : nat)
  | unit_moved (unit : nat) (oldPosition newPosition : Position)
  | unit_damaged (unit : nat) (amount : Z)
  | unit_healed (unit : nat) (amount : number)
  | units_cleared
  | combat_attack (attacker defender : nat)
                  (damage defenderRemainingHealth : number)
  | combat_defeat (attacker defender : nat)
  | game_over (winner : option Faction) (gameId : string).

Record State := {
  objs : gmap nat Unit;              (* unit objects *)
  arrs : gmap nat (list nat);        (* array objects *)
  units_ref : nat;                   (* UnitManager.units *)
  selectedUnits_ref : nat;           (* UnitManager.selectedUnits *)
  nextUnitId : Z;                    (* the counter of UnitFactory.ts *)
  combatCooldowns : gmap Z qnumber;  (* WorldState.combatCooldowns *)
  bus : list Event                   (* what EventBus.emit was given *)
}.

Definition set_objs (o : gmap nat Unit) (s : State) : State :=
  {| objs := o; arrs := arrs s; units_ref := units_ref s;
     selectedUnits_ref := selectedUnits_ref s; nextUnitId := nextUnitId s;
     combatCooldowns := combatCooldowns s; bus := bus s |}.

Definition set_arrs (a : gmap nat (list nat)) (s : State) : State :=
  {| objs := objs s; arrs := a; units_ref := units_ref s;
     selectedUnits_ref := selectedUnits_ref s; nextUnitId := nextUnitId s;
     combatCooldowns := combatCooldowns s; bus := bus s |}.

Definition set_units_ref (r : nat) (s : State) : State :=
  {| objs := objs s; arrs := arrs s; units_ref := r;
     selectedUnits_ref := selectedUnits_ref s; nextUnitId := nextUnitId s;
     combatCooldowns := combatCooldowns s; bus := bus s |}.

Definition set_selectedUnits_ref (r : nat) (s : State) : State :=
  {| objs := objs s; arrs := arrs s; units_ref := units_ref s;
     selectedUnits_ref := r; nextUnitId := nextUnitId s;
     combatCooldowns := combatCooldowns s; bus := bus s |}.

Definition set_nextUnitId (n : Z) (s : State) : State :=
  {| objs := objs s; arrs := arrs s; units_ref := units_ref s;
     selectedUnits_ref := selectedUnits_ref s; nextUnitId := n;
     combatCooldowns := combatCooldowns s; bus := bus s |}.

Definition set_combatCooldowns (c : gmap Z qnumber) (s : State) : State :=
  {| objs := objs s; arrs := arrs s; units_ref := units_ref s;
     selectedUnits_ref := selectedUnits_ref s; nextUnitId := nextUnitId s;
     combatCooldowns := c; bus := bus s |}.

(** EventBus.emit *)
Definition emit (e : Event) (s : State) : State :=
  {| objs := objs s; arrs := arrs s; units_ref := units_ref s;
     selectedUnits_ref := selectedUnits_ref s; nextUnitId := nextUnitId s;
     combatCooldowns := combatCooldowns s; bus := bus s ++ [e] |}.

(** Dereferencing, and the contents of the registry's two arrays. *)
Definition obj (s : State) (l : nat) : Unit := objs s !!! l.
Definition arr (s : State) (a : nat) : list nat := arrs s !!! a.
Definition units (s : State) : list nat := arr s (units_ref s).
Definition selectedUnits (s : State) : list nat := arr s (selectedUnits_ref s).

(** Writing an object or an array in place, and allocating a new one. *)
Definition write_obj (l : nat) (u : Unit) (s : State) : State :=
  set_objs (<[l := u]> (objs s)) s.

Definition write_arr (a : nat) (xs : list nat) (s : State) : State :=
  set_arrs (<[a := xs]> (arrs s)) s.

Definition alloc_obj (u : Unit) (s : State) : nat * State :=
  let l := fresh (dom (objs s)) in (l, write_obj l u s).

Definition alloc_arr (xs : list nat) (s : State) : nat * State :=
  let a := fresh (dom (arrs s)) in (a, write_arr a xs s).

(** Array.prototype.find and findIndex with the test u.id === unitId:
    the first index, and the element there. *)
Definition find_by_id (s : State) (unitId : Z) (xs : list nat)
  : option (nat * nat) :=
  list_find (λ l, id (obj s l) = unitId) xs.

(** ** UnitFactory.ts *)

Inductive Error :=
  | UnknownUnitType (type : string).

(** How a call that may throw completes, and the state it leaves. *)
Inductive Completion (A : Type) :=
  | Return (a : A) (s : State)
  | Throw (e : Error) (s : State).
Arguments Return {A} a s.
Arguments Throw {A} e s.

Module UnitFactory.

Definition createUnit (type : string) (position : Position)
    (faction : Faction) (s : State) : Completion nat :=
  match UNIT_TYPES_get type with
  | Undefined => Throw (UnknownUnitType type) s
  | stats =>
      let unit :=
        {| id := nextUnitId s;
           type := type;
           health := read_stat stats_health stats;
           maxHealth := read_stat stats_health stats;
           attack := read_stat stats_attack stats;
           defense := read_stat stats_defense stats;
           speed := read_stat stats_speed stats;
           range := read_stat stats_range stats;
           position := {| x := x position; y := y position |};
           selected := false;
           faction := faction |} in
      let (l, s1) := alloc_obj unit (set_nextUnitId (nextUnitId s + 1) s) in
      Return l s1
  end.

End UnitFactory.

(** ** UnitManager.ts *)

Module UnitManager.

(** The constructor: the two field initialisers allocate two arrays. *)
Definition new (s : State) : State :=
  let (u, s1) := alloc_arr [] s in
  let (v, s2) := alloc_arr [] (set_units_ref u s1) in
  set_selectedUnits_ref v s2.

Definition getUnits (s : State) : nat * State :=
  alloc_arr (units s) s.

Definition getUnitsByFaction (f : Faction) (s : State) : nat * State :=
  alloc_arr (filter (λ l, faction (obj s l) = f) (units s)) s.

Definition getSelectedUnits (s : State) : nat * State :=
  alloc_arr (selectedUnits s) s.

Definition addUnit (unit : nat) (s : State) : State :=
  emit (unit_added unit)
       (write_arr (units_ref s) (units s ++ [unit]) s).

Definition createUnit (type : string) (position : Position)
    (faction : Faction) (s : State) : Completion nat :=
  match UnitFactory.createUnit type position faction s with
  | Return unit s1 => Return unit (addUnit unit s1)
  | Throw e s1 => Throw e s1
  end.

Definition deselectUnit (unitId : Z) (s : State) : State :=
  match find_by_id s unitId (selectedUnits s) with
  | Some (unitIndex, unit) =>
      let s1 := write_obj unit (set_selected false (obj s unit)) s in
      let s2 := write_arr (selectedUnits_ref s1)
                          (delete unitIndex (selectedUnits s1)) s1 in
      emit (unit_deselected unit) s2
  | None => s
  end.

Definition removeUnit (unitId : Z) (s : State) : State :=
  match find_by_id s unitId (units s) with
  | Some (unitIndex, unit) =>
      let s1 := write_arr (units_ref s) (delete unitIndex (units s)) s in
      let s2 := deselectUnit unitId s1 in
      emit (unit_removed unit) s2
  | None => s
  end.

Definition selectUnit (unitId : Z) (s : State) : State :=
  match find_by_id s unitId (units s) with
  | Some (_, unit) =>
      if selected (obj s unit) then s
      else
        let s1 := write_obj unit (set_selected true (obj s unit)) s in
        let s2 := write_arr (selectedUnits_ref s1)
                            (selectedUnits s1 ++ [unit]) s1 in
        emit (unit_selected unit) s2
  | None => s
  end.

(** The loop [xs.forEach(unit => { unit.selected = false })]. *)
Definition clear_flags (s : State) (xs : list nat) : State :=
  foldl (λ st unit, write_obj unit (set_selected false (obj st unit)) st)
        s xs.

Definition deselectAll (s : State) : State :=
  let s1 := clear_flags s (selectedUnits s) in
  let (previouslySelected, s2) := alloc_arr (selectedUnits s1) s1 in
  let (empty, s3) := alloc_arr [] s2 in
  let s4 := set_selectedUnits_ref empty s3 in
  if (0 <? length (arr s4 previouslySelected))%nat
  then emit (units_deselected previouslySelected) s4
  else s4.

Definition selectUnits (unitIds : list Z) (s : State) : State :=
  let s1 := deselectAll s in
  let s2 := foldl (λ st unitId, selectUnit unitId st) s1 unitIds in
  if (0 <? length (selectedUnits s2))%nat
  then emit (units_selected (selectedUnits_ref s2)) s2
  else s2.

Definition moveUnit (unitId : Z) (newPosition : Position) (s : State)
  : State :=
  match find_by_id s unitId (units s) with
  | Some (_, unit) =>
      let oldPosition := position (obj s unit) in
      let s1 := write_obj unit
                  (set_position {| x := x newPosition; y := y newPosition |}
                                (obj s unit)) s in
      emit (unit_moved unit oldPosition newPosition) s1
  | None => s
  end.

Definition damageUnit (unitId : Z) (amount : Z) (s : State) : bool * State :=
  match find_by_id s unitId (units s) with
  | Some (_, unit) =>
      let s1 := write_obj unit
                  (set_health
                     (Math_max (Num 0)
                               (num_sub (health (obj s unit)) (Num amount)))
                     (obj s unit)) s in
      let s2 := emit (unit_damaged unit amount) s1 in
      if num_le (health (obj s2 unit)) (Num 0)
      then (true, removeUnit unitId s2)
      else (false, s2)
  | None => (false, s)
  end.

Definition healUnit (unitId : Z) (amount : Z) (s : State) : State :=
  match find_by_id s unitId (units s) with
  | Some (_, unit) =>
      let oldHealth := health (obj s unit) in
      let s1 := write_obj unit
                  (set_health
                     (Math_min (maxHealth (obj s unit))
                               (num_add (health (obj s unit)) (Num amount)))
                     (obj s unit)) s in
      let actualHealAmount := num_sub (health (obj s1 unit)) oldHealth in
      if num_gt actualHealAmount (Num 0)
      then emit (unit_healed unit actualHealAmount) s1
      else s1
  | None => s
  end.

Definition clear (s : State) : State :=
  let (u, s1) := alloc_arr [] s in
  let (v, s2) := alloc_arr [] (set_units_ref u s1) in
  emit units_cleared (set_selectedUnits_ref v s2).

Definition getUnitsInArea (x1 y1 x2 y2 : Q) (s : State) : nat * State :=
  let minX := Qmin x1 x2 in
  let maxX := Qmax x1 x2 in
  let minY := Qmin y1 y2 in
  let maxY := Qmax y1 y2 in
  alloc_arr
    (filter (λ unit,
               Qle_bool minX (x (position (obj s unit)))
               && Qle_bool (x (position (obj s unit))) maxX
               && Qle_bool minY (y (position (obj s unit)))
               && Qle_bool (y (position (obj s unit))) maxY = true)
            (units s)) s.

End UnitManager.

(** ** CombatSystem.ts *)

Module CombatSystem.

Definition calculateDistance (pos1 pos2 : Position) : R :=
  let dx := (Q2R (x pos2) - Q2R (x pos1))%R in
  let dy := (Q2R (y pos2) - Q2R (y pos1))%R in
  sqrt (dx * dx + dy * dy).

(** [distance <= attacker.range * 50], as the source writes it. *)
Definition isInRange (attacker target : Unit) : Prop :=
  match range attacker with
  | Num r =>
      (calculateDistance (position attacker) (position target)
       <= IZR (r * 50))%R
  | NaN => False
  end.

(** The same test without the square root, so that it can be run:
    [isInRangeb_spec] below shows that it decides [isInRange]. *)
Definition isInRangeb (attacker target : Unit) : bool :=
  match range attacker with
  | Num r =>
      let dx := (x (position target) - x (position attacker))%Q in
      let dy := (y (position target) - y (position attacker))%Q in
      (0 <=? r * 50)
      && Qle_bool (dx * dx + dy * dy) (inject_Z ((r * 50) * (r * 50)))
  | NaN => false
  end.

(** The three constants of calculateDamage, for an attacker of attack
    [a] and a defender of defense [d]. *)
Definition baseDamage (a d : Z) : Q := (inject_Z a - inject_Z d / 2)%Q.

Definition minDamage (a d : Z) : Z :=
  Z.max 1 (Qfloor (baseDamage a d * (8 # 10))).

Definition maxDamage (a d : Z) : Z :=
  Qceiling (baseDamage a d * (12 # 10)).

(** [random] is the value Math.random() returns, in [0, 1).  The
    product and the sum of the roll are rounded to doubles; that is
    what lets the largest rolls reach maxDamage + 1.  The three
    constants above are exact: baseDamage is a multiple of 1/2, so
    its products with 0.8 and 1.2 are integers or at least 0.2 away
    from one, which the error of a double product does not bridge
    for stats of any size a game has. *)
Definition calculateDamage (random : Q) (attacker defender : Unit) : number :=
  match attack attacker, defense defender with
  | Num a, Num d =>
      Num (Qfloor
             (round64
                (inject_Z (minDamage a d)
                 + round64 (random
                            * inject_Z (maxDamage a d - minDamage a d
                                        + 1)))))
  | _, _ => NaN
  end.

Definition performAttack (random : Q) (attacker defender : nat) (s : State)
  : bool * State :=
  if negb (isInRangeb (obj s attacker) (obj s defender)) then (false, s)
  else
    let damage := calculateDamage random (obj s attacker) (obj s defender) in
    let s1 := write_obj defender
                (set_health
                   (Math_max (Num 0)
                             (num_sub (health (obj s defender)) damage))
                   (obj s defender)) s in
    let s2 := emit (combat_attack attacker defender damage
                                  (health (obj s1 defender))) s1 in
    let defeated := num_le (health (obj s2 defender)) (Num 0) in
    if defeated then (true, emit (combat_defeat attacker defender) s2)
    else (false, s2).

(** The square of calculateDistance, which orders positions as the
    distance does ([distance2_lt] below). *)
Definition distance2 (pos1 pos2 : Position) : Q :=
  let dx := (x pos2 - x pos1)%Q in
  let dy := (y pos2 - y pos1)%Q in
  (dx * dx + dy * dy)%Q.

(** The loop of findClosestEnemy over [enemies[1..]]: the closest
    enemy so far, replaced by an enemy that is strictly closer. *)
Definition closest_of (s : State) (unit : nat) (first : nat)
    (rest : list nat) : nat :=
  foldl (λ closestEnemy enemy,
           if negb (Qle_bool
                      (distance2 (position (obj s unit))
                                 (position (obj s closestEnemy)))
                      (distance2 (position (obj s unit))
                                 (position (obj s enemy))))
           then enemy else closestEnemy)
        first rest.

Definition findClosestEnemy (unit : nat) (units : nat) (s : State)
  : option nat * State :=
  let (enemies, s1) :=
    alloc_arr (filter (λ u, faction (obj s u) ≠ faction (obj s unit))
                      (arr s units)) s in
  match arr s1 enemies with
  | [] => (None, s1)
  | first :: rest => (Some (closest_of s1 unit first rest), s1)
  end.

Definition findEnemiesInRange (unit : nat) (units : nat) (s : State)
  : nat * State :=
  alloc_arr (filter (λ u, faction (obj s u) ≠ faction (obj s unit)
                          ∧ isInRangeb (obj s unit) (obj s u) = true)
                    (arr s units)) s.

End CombatSystem.

(** ** WorldState.ts *)

Record GameStatus := { over : bool; winner : option Faction }.

Module WorldState.

Definition defaultCooldown : Q := 1000.

(** [this.defaultCooldown * (1 / attacker.speed)] *)
Definition attackCooldown (speed : number) : qnumber :=
  match speed with
  | Num z =>
      if z =? 0 then QInf
      else QNum (defaultCooldown * (1 / inject_Z z))
  | NaN => QNaN
  end.

Definition processCombat (attackerId defenderId : Z) (currentTime : Q)
    (random : Q) (s : State) : bool * State :=
  let cooldown := or_zero (combatCooldowns s !! attackerId) in
  if q_lt currentTime cooldown then (false, s)
  else
    let (units, s1) := UnitManager.getUnits s in
    match find_by_id s1 attackerId (arr s1 units),
          find_by_id s1 defenderId (arr s1 units) with
    | Some (_, attacker), Some (_, defender) =>
        let (defeated, s2) :=
          CombatSystem.performAttack random attacker defender s1 in
        let s3 := if defeated then UnitManager.removeUnit defenderId s2
                  else s2 in
        let delay := attackCooldown (speed (obj s3 attacker)) in
        (defeated,
         set_combatCooldowns
           (<[attackerId := q_add currentTime delay]>
              (combatCooldowns s3)) s3)
    | _, _ => (false, s1)
    end.

Definition isGameOver (s : State) : GameStatus * State :=
  let (playerUnits, s1) := UnitManager.getUnitsByFaction player s in
  let (enemyUnits, s2) := UnitManager.getUnitsByFaction enemy s1 in
  if (length (arr s2 playerUnits) =? 0)%nat
  then ({| over := true; winner := Some enemy |}, s2)
  else if (length (arr s2 enemyUnits) =? 0)%nat
  then ({| over := true; winner := Some player |}, s2)
  else ({| over := false; winner := None |}, s2).

Definition moveUnit (unitId : Z) (newPosition : Position) (s : State)
  : State :=
  UnitManager.moveUnit unitId newPosition s.

(** [currentTime] is what Date.now() returns, and [random] what
    Math.random() returns if the attack comes to a roll. *)
Definition checkCombatForUnit (unitId : Z) (currentTime random : Q)
    (s : State) : State :=
  let (units, s1) := UnitManager.getUnits s in
  match find_by_id s1 unitId (arr s1 units) with
  | None => s1
  | Some (_, unit) =>
      let cooldown := or_zero (combatCooldowns s1 !! unitId) in
      if q_lt currentTime cooldown then s1
      else
        let (enemiesInRange, s2) :=
          CombatSystem.findEnemiesInRange unit units s1 in
        match arr s2 enemiesInRange with
        | [] => s2
        | target :: _ =>
            (processCombat (id (obj s2 unit)) (id (obj s2 target))
                           currentTime random s2).2
        end
  end.

(** spawnInitialUnits: three rows of the five types for the player,
    then three for the enemy.  [random] is the sequence of values that
    Math.random() returns; each unit takes two, for x and then for y.
    An exception of createUnit ends the call. *)
Definition unitTypes : list string :=
  ["archer"; "infantry-heavy"; "infantry-medium"; "mage-high";
   "mage-squad"]%string.

Definition spawn_unit (y0 : Q) (f : Faction) (random : nat → Q) (k : nat)
    (type : string) (index : nat) (s : State) : Completion nat :=
  let px := (200 + inject_Z (Z.of_nat index) * 100
             + (random k * 50 - 25))%Q in
  let py := (y0 + (random (S k) * 100 - 50))%Q in
  UnitManager.createUnit type {| x := px; y := py |} f s.

(** [types.forEach((type, index) => ...)] from [index] on. *)
Fixpoint spawn_forEach (y0 : Q) (f : Faction) (random : nat → Q)
    (types : list string) (index k : nat) (s : State) : Completion () :=
  match types with
  | [] => Return () s
  | type :: rest =>
      match spawn_unit y0 f random k type index s with
      | Return _ s1 => spawn_forEach y0 f random rest (S index) (2 + k) s1
      | Throw e s1 => Throw e s1
      end
  end.

(** [for (let i = 0; i < rows; i++)] *)
Fixpoint spawn_rows (rows : nat) (y0 : Q) (f : Faction) (random : nat → Q)
    (k : nat) (s : State) : Completion () :=
  match rows with
  | O => Return () s
  | S rows' =>
      match spawn_forEach y0 f random unitTypes 0 k s with
      | Return _ s1 =>
          spawn_rows rows' y0 f random (2 * length unitTypes + k) s1
      | Throw e s1 => Throw e s1
      end
  end.

Definition spawnInitialUnits (height : Q) (random : nat → Q) (s : State)
  : Completion () :=
  match spawn_rows 3 (height - 200) player random 0 s with
  | Return _ s1 =>
      spawn_rows 3 200 enemy random (6 * length unitTypes) s1
  | Throw e s1 => Throw e s1
  end.

End WorldState.

(** ** GameModel.ts *)

Module GameModel.

Record GameModel := {
  worldState : State;
  gameId : string;
  paused : bool;
  lastUpdate : Q
}.

Definition updateInterval : Q := 100.

Definition set_lastUpdate (t : Q) (g : GameModel) : GameModel :=
  {| worldState := worldState g; gameId := gameId g; paused := paused g;
     lastUpdate := t |}.

Definition set_worldState (w : State) (g : GameModel) : GameModel :=
  {| worldState := w; gameId := gameId g; paused := paused g;
     lastUpdate := lastUpdate g |}.

Definition checkGameOver (g : GameModel) : GameModel :=
  let (gameStatus, w) := WorldState.isGameOver (worldState g) in
  if over gameStatus
  then {| worldState := emit (game_over (winner gameStatus) (gameId g)) w;
          gameId := gameId g; paused := true; lastUpdate := lastUpdate g |}
  else set_worldState w g.

Section update.

(** The two sweeps of a simulation step act on the world only: they
    move the enemy units and resolve the attacks that are due.  The
    fields of the GameModel are private to it. *)
Variable updateEnemyUnits : State → State.
Variable checkAllCombat : State → State.

Definition update (time : Q) (g : GameModel) : GameModel :=
  let g1 := if Qeq_bool (lastUpdate g) (-1) then set_lastUpdate time g
            else g in
  if paused g1 then g1
  else if Qle_bool updateInterval (time - lastUpdate g1)
  then
    let g2 := set_lastUpdate (lastUpdate g1 - updateInterval) g1 in
    let g3 := set_worldState (updateEnemyUnits (worldState g2)) g2 in
    let g4 := set_worldState (checkAllCombat (worldState g3)) g3 in
    checkGameOver g4
  else g1.

(** Whether a call performs a simulation step. *)
Definition steps (time : Q) (g : GameModel) : bool :=
  let g1 := if Qeq_bool (lastUpdate g) (-1) then set_lastUpdate time g
            else g in
  negb (paused g1) && Qle_bool updateInterval (time - lastUpdate g1).

End update.

Definition moveUnit (unitId : Z) (newPosition : Position) (g : GameModel)
  : GameModel :=
  if paused g then g
  else set_worldState
         (WorldState.moveUnit unitId newPosition (worldState g)) g.

Definition selectUnits (unitIds : list Z) (g : GameModel) : GameModel :=
  set_worldState (UnitManager.selectUnits unitIds (worldState g)) g.

Definition deselectAllUnits (g : GameModel) : GameModel :=
  set_worldState (UnitManager.deselectAll (worldState g)) g.

(** The loop of checkAllCombat over the array getUnits returned:
    [now k] and [random k] are what Date.now() and Math.random()
    return in round [k]. *)
Fixpoint checkAllCombat_rounds (allUnits : list nat) (k : nat)
    (now random : nat → Q) (w : State) : State :=
  match allUnits with
  | [] => w
  | unit :: rest =>
      checkAllCombat_rounds rest (S k) now random
        (WorldState.checkCombatForUnit (id (obj w unit)) (now k) (random k) w)
  end.

Definition checkAllCombat (now random : nat → Q) (w : State) : State :=
  let (allUnits, w1) := UnitManager.getUnits w in
  checkAllCombat_rounds (arr w1 allUnits) 0 now random w1.

End GameModel.

(** ** Histories of the registry *)

Inductive Op :=
  | op_getUnits
  | op_getUnitsByFaction (f : Faction)
  | op_getSelectedUnits
  | op_addUnit (unit : nat)
  | op_createUnit (type : string) (pos : Position) (f : Faction)
  | op_removeUnit (unitId : Z)
  | op_selectUnit (unitId : Z)
  | op_deselectUnit (unitId : Z)
  | op_selectUnits (unitIds : list Z)
  | op_deselectAll
  | op_moveUnit (unitId : Z) (pos : Position)
  | op_damageUnit (unitId : Z) (amount : Z)
  | op_healUnit (unitId : Z) (amount : Z)
  | op_clear.

(** The state a call leaves; for a call that throws, the state at the
    throw. *)
Definition run (o : Op) (s : State) : State :=
  match o with
  | op_getUnits => snd (UnitManager.getUnits s)
  | op_getUnitsByFaction f => snd (UnitManager.getUnitsByFaction f s)
  | op_getSelectedUnits => snd (UnitManager.getSelectedUnits s)
  | op_addUnit unit => UnitManager.addUnit unit s
  | op_createUnit t p f =>
      match UnitManager.createUnit t p f s with
      | Return _ s1 => s1
      | Throw _ s1 => s1
      end
  | op_removeUnit i => UnitManager.removeUnit i s
  | op_selectUnit i => UnitManager.selectUnit i s
  | op_deselectUnit i => UnitManager.deselectUnit i s
  | op_selectUnits l => UnitManager.selectUnits l s
  | op_deselectAll => UnitManager.deselectAll s
  | op_moveUnit i p => UnitManager.moveUnit i p s
  | op_damageUnit i a => snd (UnitManager.damageUnit i a s)
  | op_healUnit i a => UnitManager.healUnit i a s
  | op_clear => UnitManager.clear s
  end.

(** The states of a registry that was constructed in some store and
    then used through calls that [allowed] admits. *)
Inductive reachable (allowed : Op → Prop) : State → Prop :=
  | reachable_new (s0 : State) : reachable allowed (UnitManager.new s0)
  | reachable_run (o : Op) (s : State) :
      reachable allowed s → allowed o → reachable allowed (run o s).

Definition any_call (o : Op) : Prop := True.

(** Every call but a direct addUnit: the units enter the registry
    through createUnit, which makes them with the factory. *)
Definition factory_call (o : Op) : Prop :=
  match o with
  | op_addUnit _ => False
  | _ => True
  end.

(** Calls that damage or heal by a non-negative amount and create
    units under names that are not inherited members. *)
Definition plain_call (o : Op) : Prop :=
  match o with
  | op_damageUnit _ amount | op_healUnit _ amount => 0 <= amount
  | op_createUnit t _ _ => UNIT_TYPES_get t ≠ Inherited
  | op_addUnit _ => False
  | _ => True
  end.


(** ** Scenarios *)

Definition empty_store : State :=
  {| objs := ∅; arrs := ∅; units_ref := 0; selectedUnits_ref := 0;
     nextUnitId := 0; combatCooldowns := ∅; bus := [] |}.

Definition at_xy (px py : Q) : Position := {| x := px; y := py |}.

(** A player archer at the origin and an enemy infantry-medium 100
    distance units away: the archer is object 0, the infantry
    object 1. *)
Definition duel : State :=
  run (op_createUnit "infantry-medium" (at_xy 100 0) enemy)
      (run (op_createUnit "archer" (at_xy 0 0) player)
           (UnitManager.new empty_store)).

Definition the_archer : nat := 0.
Definition the_infantry : nat := 1.

(** What a damage roll is said to be: an integer that is at least 1
    and lies between minDamage and maxDamage, or is minDamage when
    maxDamage is below it. *)
Definition roll_in_bounds (random : Q) (attacker defender : Unit) : Prop :=
  ∃ a d n,
    attack attacker = Num a ∧ defense defender = Num d
    ∧ CombatSystem.calculateDamage random attacker defender = Num n
    ∧ 1 <= n
    ∧ (if CombatSystem.maxDamage a d <? CombatSystem.minDamage a d
       then n = CombatSystem.minDamage a d
       else CombatSystem.minDamage a d <= n <= CombatSystem.maxDamage a d).

Definition with_stats (a d : Z) : Unit :=
  {| id := 0; type := "infantry-heavy"; health := Num 120;
     maxHealth := Num 120; attack := Num a; defense := Num d;
     speed := Num 2; range := Num 1; position := at_xy 0 0;
     selected := false; faction := neutral |}.

(** The outcome of an attack of [a] on [d] in the state [s]: the
    attack is carried out, its damage is between [lo] and [hi], and
    the defender is left with a health between [hlo] and [hhi]. *)
Definition attack_outcome (s : State) (a d : nat) (lo hi hlo hhi : Z)
    (random : Q) : Prop :=
  ∃ damage rest,
    CombatSystem.calculateDamage random (obj s a) (obj s d) = Num damage
    ∧ lo <= damage <= hi
    ∧ health (obj (CombatSystem.performAttack random a d s).2 d) = Num rest
    ∧ hlo <= rest <= hhi
    ∧ bus (CombatSystem.performAttack random a d s).2
      = bus s ++ [combat_attack a d (Num damage) (Num rest)].

(** The archer's attack on the infantry in [duel]. *)
Definition duel_outcome (lo hi hlo hhi : Z) (random : Q) : Prop :=
  attack_outcome duel the_archer the_infantry lo hi hlo hhi random.

(** ** Well-formed registries *)

(** The two fields of the registry hold two different arrays of the
    store. *)
Definition wf_refs (s : State) : Prop :=
  units_ref s ≠ selectedUnits_ref s
  ∧ units_ref s ∈ dom (arrs s)
  ∧ selectedUnits_ref s ∈ dom (arrs s).

(** A game whose clock was last set at 1000 ms, over the [duel]. *)
Definition running_game : GameModel.GameModel :=
  {| GameModel.worldState := duel; GameModel.gameId := "game_0";
     GameModel.paused := false; GameModel.lastUpdate := 1000 |}.

(** ** Invariants of the registry *)

(** A registry seen as its two lists [U] and [S], its objects [o] and
    the id counter [n]: the ids of the stored units are distinct and
    below the counter, and the selection has no duplicates and holds
    exactly the stored units whose flag is set. *)
Definition reg_ok (U S : list nat) (o : nat → Unit) (n : Z) : Prop :=
  NoDup ((λ l, id (o l)) <$> U)
  ∧ (∀ l, l ∈ U → id (o l) < n)
  ∧ NoDup S
  ∧ (∀ l, l ∈ S ↔ l ∈ U ∧ selected (o l) = true).

(** Every stored unit is alive and not above its full health. *)
Definition health_ok (U : list nat) (o : nat → Unit) : Prop :=
  ∀ l, l ∈ U →
    ∃ h m, health (o l) = Num h ∧ maxHealth (o l) = Num m ∧ 0 < h <= m.

Definition Inv (s : State) : Prop :=
  wf_refs s
  ∧ (∀ l, l ∈ units s → l ∈ dom (objs s))
  ∧ reg_ok (units s) (selectedUnits s) (obj s) (nextUnitId s).

(** ** Callers of the queries *)

(** What a caller can do with a reference it holds: change an array in
    place (push, splice, an assignment to an index or to length), or
    assign to fields of a unit object. *)
Inductive Mutation :=
  | ArrayWrite (array : nat) (xs : list nat)
  | UnitWrite (unit : nat) (u : Unit).

Definition mutate (m : Mutation) (s : State) : State :=
  match m with
  | ArrayWrite a xs => write_arr a xs s
  | UnitWrite l u => write_obj l u s
  end.

(** The mutations that go through a returned array [a]: those of the
    array itself and those of the unit objects in it. *)
Definition through (s : State) (a : nat) (m : Mutation) : Prop :=
  match m with
  | ArrayWrite a' _ => a' = a
  | UnitWrite l _ => l ∈ arr s a
  end.

(** The internal state of the registry: its unit list, its selection
    list and the fields of every stored unit. *)
Definition registry_view (s : State) : list nat * list nat * list Unit :=
  (units s, selectedUnits s, obj s <$> units s).

(** A query returns a defensive copy when no mutation through the
    array it returns changes the internal state of the registry. *)
Definition defensive_copy (query : State → nat * State) (s : State) : Prop :=
  ∀ m, through (query s).2 (query s).1 m →
       registry_view (mutate m (query s).2) = registry_view s.

(** ** The cooldown an attack is said to set *)


(** [effect s s' U S o]: the call that led from [s] to [s'] left the
    registry with the unit list [U], the selection [S] and the
    objects [o], and did not touch the id counter or the cooldowns. *)
Definition effect (s s' : State) (U S : list nat) (o : nat → Unit) : Prop :=
  wf_refs s'
  ∧ units s' = U
  ∧ selectedUnits s' = S
  ∧ (∀ l, obj s' l = o l)
  ∧ dom (objs s) ⊆ dom (objs s')
  ∧ nextUnitId s' = nextUnitId s
  ∧ combatCooldowns s' = combatCooldowns s.

(** The objects [o] with the object at [l] replaced by [u]. *)
Definition with_obj (o : nat → Unit) (l : nat) (u : Unit) : nat → Unit :=
  λ l', if decide (l = l') then u else o l'.

(** [keeps_health s s']: the call from [s] to [s'] added no unit and
    changed no health. *)
Definition keeps_health (s s' : State) : Prop :=
  (∀ l, l ∈ units s' → l ∈ units s)
  ∧ (∀ l, health (obj s' l) = health (obj s l)
          ∧ maxHealth (obj s' l) = maxHealth (obj s l)).

(** The [duel] after the archer, whose id is 0, was selected. *)
Definition duel_selected : State := run (op_selectUnit 0) duel.

(** The [duel] after damageUnit(0, -5), and after healUnit(0, -100). *)
Definition duel_damaged_by_minus_5 : State :=
  run (op_damageUnit 0 (-5)) duel.

Definition duel_healed_by_minus_100 : State :=
  run (op_healUnit 0 (-100)) duel.

(** What the queries do give: the array returned by [query] is a new
    array that holds [contents], objects of the store that the call
    left as they were; no change of that array reaches the registry,
    while a write to a stored unit in it is a write to the registry's
    own object. *)
Definition copies_list (query : State → nat * State) (s : State)
    (contents : list nat) : Prop :=
  arr (query s).2 (query s).1 = contents
  ∧ (∀ l, obj (query s).2 l = obj s l)
  ∧ registry_view (query s).2 = registry_view s
  ∧ (∀ ys, registry_view (mutate (ArrayWrite (query s).1 ys) (query s).2)
           = registry_view s)
  ∧ (∀ l u, l ∈ contents → l ∈ units s →
       l ∈ units (mutate (UnitWrite l u) (query s).2)
       ∧ obj (mutate (UnitWrite l u) (query s).2) l = u).

(** A caller of getUnits() sets the health of the first unit to 0. *)
Definition kill_the_archer : Mutation :=
  UnitWrite the_archer (set_health (Num 0) (obj duel the_archer)).

(** [keeps_ids s s']: the call from [s] to [s'] added no unit, changed
    no id and did not touch the id counter. *)
Definition keeps_ids (s s' : State) : Prop :=
  (∀ l, l ∈ units s' → l ∈ units s)
  ∧ (∀ l, id (obj s' l) = id (obj s l))
  ∧ nextUnitId s' = nextUnitId s.

(** A registry whose only unit was created under the inherited name
    valueOf: object 0, with NaN for every stat. *)
Definition ghost : State :=
  run (op_createUnit "valueOf" (at_xy 0 0) enemy)
      (UnitManager.new empty_store).

(** The duel after the archer lost 10 of its 60 health. *)
Definition duel_wounded : State := run (op_damageUnit 0 10) duel.

(** ** Combat between stored units *)

(** Every stored unit has an attack and every stored unit a defense,
    and no defense is more than one above twice an attack. *)
Definition stats_ok (U : list nat) (o : nat → Unit) : Prop :=
  ∀ a d, a ∈ U → d ∈ U →
    ∃ av dv, attack (o a) = Num av ∧ defense (o d) = Num dv
             ∧ -1 <= 2 * av - dv.

(** [u'] is [u] but for its health and its selected flag. *)
Definition same_stats (u u' : Unit) : Prop :=
  id u' = id u ∧ type u' = type u ∧ maxHealth u' = maxHealth u
  ∧ attack u' = attack u ∧ defense u' = defense u ∧ speed u' = speed u
  ∧ range u' = range u ∧ position u' = position u
  ∧ faction u' = faction u.

(** [wears_down s s']: from [s] to [s'] no unit was added, no unit
    gained health, and nothing else of a unit changed but its flag. *)
Definition wears_down (s s' : State) : Prop :=
  (∀ l, l ∈ units s' → l ∈ units s)
  ∧ (∀ l, same_stats (obj s l) (obj s' l))
  ∧ (∀ l h, health (obj s l) = Num h →
            ∃ h', health (obj s' l) = Num h' ∧ h' <= h).

(** A unit with the stats of its type in UNIT_TYPES, alive and not
    above its full health. *)
Definition from_table (u : Unit) : Prop :=
  ∃ stats h,
    UNIT_TYPES !! type u = Some stats
    ∧ maxHealth u = Num (stats_health stats)
    ∧ attack u = Num (stats_attack stats)
    ∧ defense u = Num (stats_defense stats)
    ∧ health u = Num h ∧ 0 < h <= stats_health stats.

(** What a run of creations adds to a registry of table units. *)
Definition spawned (f : Faction) (n : nat) (s s' : State) : Prop :=
  ∃ new,
    units s' = units s ++ new
    ∧ length new = n
    ∧ (∀ l, l ∈ new →
         faction (obj s' l) = f ∧ selected (obj s' l) = false
         ∧ health (obj s' l) = maxHealth (obj s' l))
    ∧ (∀ l, l ∈ units s → obj s' l = obj s l)
    ∧ nextUnitId s' = nextUnitId s + Z.of_nat n
    ∧ combatCooldowns s' = combatCooldowns s
    ∧ Inv s'
    ∧ (∀ l, l ∈ units s' → from_table (obj s' l)).

(** The duel after the archer was selected, the registry cleared, and
    the archer added again with addUnit. *)
Definition archer_readded : State :=
  run (op_addUnit the_archer) (run op_clear duel_selected).
(** * Properties *)

(** ** The store *)

Section store.
Implicit Types (s : State) (l a : nat) (u : Unit) (xs : list nat).

Lemma obj_write_obj_eq s l u : obj (write_obj l u s) l = u.
Proof. unfold obj, write_obj; simpl. apply lookup_total_insert_eq. Qed.

Lemma obj_write_obj_ne s l l' u :
  l ≠ l' → obj (write_obj l u s) l' = obj s l'.
Proof.
  intros Hne. unfold obj, write_obj; simpl.
  by apply lookup_total_insert_ne.
Qed.

Lemma obj_write_obj s l l' u :
  obj (write_obj l u s) l' = if decide (l = l') then u else obj s l'.
Proof.
  case_decide as Hl.
  - subst. apply obj_write_obj_eq.
  - by apply obj_write_obj_ne.
Qed.

Lemma arr_write_arr_eq s a xs : arr (write_arr a xs s) a = xs.
Proof. unfold arr, write_arr; simpl. apply lookup_total_insert_eq. Qed.

Lemma arr_write_arr_ne s a b xs :
  a ≠ b → arr (write_arr a xs s) b = arr s b.
Proof.
  intros Hne. unfold arr, write_arr; simpl.
  by apply lookup_total_insert_ne.
Qed.

Lemma dom_objs_write_obj s l u :
  dom (objs (write_obj l u s)) = {[l]} ∪ dom (objs s).
Proof. unfold write_obj; simpl. apply dom_insert_L. Qed.

Lemma dom_arrs_write_arr s a xs :
  dom (arrs (write_arr a xs s)) = {[a]} ∪ dom (arrs s).
Proof. unfold write_arr; simpl. apply dom_insert_L. Qed.

Lemma alloc_arr_fresh s xs : (alloc_arr xs s).1 ∉ dom (arrs s).
Proof. unfold alloc_arr; simpl. apply is_fresh. Qed.

Lemma alloc_obj_fresh s u : (alloc_obj u s).1 ∉ dom (objs s).
Proof. unfold alloc_obj; simpl. apply is_fresh. Qed.

(** A caller's copy: a new array with the same elements. *)
Lemma alloc_arr_read s xs :
  arr (alloc_arr xs s).2 (alloc_arr xs s).1 = xs.
Proof. unfold alloc_arr; simpl. apply arr_write_arr_eq. Qed.

Lemma alloc_arr_old s xs b :
  b ∈ dom (arrs s) → arr (alloc_arr xs s).2 b = arr s b.
Proof.
  intros Hb. unfold alloc_arr; simpl. apply arr_write_arr_ne.
  intros Heq. rewrite <- Heq in Hb.
  by apply (is_fresh (dom (arrs s))).
Qed.

Lemma obj_emit s e l : obj (emit e s) l = obj s l.
Proof. reflexivity. Qed.

Lemma arr_emit s e a : arr (emit e s) a = arr s a.
Proof. reflexivity. Qed.

Lemma obj_write_arr s a xs l : obj (write_arr a xs s) l = obj s l.
Proof. reflexivity. Qed.

Lemma arr_write_obj s l u a : arr (write_obj l u s) a = arr s a.
Proof. reflexivity. Qed.

Lemma obj_set_combatCooldowns c s l :
  obj (set_combatCooldowns c s) l = obj s l.
Proof. reflexivity. Qed.

Lemma units_set_combatCooldowns c s :
  units (set_combatCooldowns c s) = units s.
Proof. reflexivity. Qed.

Lemma bus_set_combatCooldowns c s : bus (set_combatCooldowns c s) = bus s.
Proof. reflexivity. Qed.

End store.

(** ** Numbers *)

Lemma num_le_Num (p q : Z) : num_le (Num p) (Num q) = true ↔ p <= q.
Proof. simpl. apply Z.leb_le. Qed.

(** ** Doubles *)

Lemma Qpow2_pos (k : Z) : (0 < 2 ^ k)%Q.
Proof. apply Qpower_0_lt. reflexivity. Qed.

Lemma Qpow2_inject (k : Z) : 0 <= k → (inject_Z (2 ^ k) == 2 ^ k)%Q.
Proof. intros Hk. by rewrite Zpower_Qpower. Qed.

Lemma Qpow2_le (a b : Z) : a <= b → (2 ^ a <= 2 ^ b)%Q.
Proof. intros H. apply Qpower_le_compat_l; [done|discriminate]. Qed.

Lemma Qpow2_plus (a b : Z) : (2 ^ (a + b) == 2 ^ a * 2 ^ b)%Q.
Proof. apply Qpower_plus. discriminate. Qed.

Lemma ilog2_spec (q : Q) :
  (0 < q)%Q → (2 ^ ilog2 q <= q)%Q ∧ (q < 2 ^ (ilog2 q + 1))%Q.
Proof.
  intros Hq. unfold ilog2. destruct (Qle_bool 1 q) eqn:H1.
  - apply Qle_bool_iff in H1.
    assert (Hf : 1 <= Qfloor q).
    { rewrite <- (Qfloor_Z 1). by apply Qfloor_resp_le. }
    destruct (Z.log2_spec (Qfloor q)) as [Hlo Hhi]; [lia|].
    pose proof (Z.log2_nonneg (Qfloor q)) as Hk.
    split.
    + rewrite <- Qpow2_inject by done.
      eapply Qle_trans; [|apply Qfloor_le]. by rewrite <- Zle_Qle.
    + rewrite <- Qpow2_inject by lia.
      eapply Qlt_le_trans; [apply Qlt_floor|]. rewrite <- Zle_Qle.
      change (Z.succ (Z.log2 (Qfloor q))) with (Z.log2 (Qfloor q) + 1) in Hhi.
      lia.
  - assert (Hlt : (q < 1)%Q).
    { apply Qnot_le_lt. intros Hle. apply Qle_bool_iff in Hle. congruence. }
    assert (Hq0 : ¬ (q == 0)%Q) by (intros Heq; rewrite Heq in Hq; by apply Qlt_irrefl in Hq).
    assert (Hinv : (q * / q == 1)%Q) by (by apply Qmult_inv_r).
    assert (Hr : (1 < / q)%Q).
    { apply Qlt_shift_inv_l; [done|]. by rewrite Qmult_1_l. }
    set (c := Qceiling (/ q)).
    assert (Hc : 1 < c).
    { rewrite Zlt_Qlt. eapply Qlt_le_trans; [exact Hr|apply Qle_ceiling]. }
    destruct (Z.log2_up_spec c Hc) as [Hlo Hhi].
    assert (Hk : 1 <= Z.log2_up c).
    { pose proof (Z.log2_up_pos c Hc). lia. }
    split.
    + rewrite Qpower_opp. apply Qle_shift_inv_r; [apply Qpow2_pos|].
      rewrite <- Hinv. apply Qmult_le_l; [done|].
      eapply Qle_trans; [apply Qle_ceiling|]. fold c.
      rewrite <- Qpow2_inject by lia. by rewrite <- Zle_Qle.
    + replace (- Z.log2_up c + 1) with (- (Z.log2_up c - 1)) by lia.
      rewrite Qpower_opp. apply Qlt_shift_inv_l; [apply Qpow2_pos|].
      rewrite <- Hinv. apply Qmult_lt_l; [done|].
      eapply Qle_lt_trans; [|apply (Qceiling_lt (/ q))]. fold c.
      rewrite <- Qpow2_inject by lia. rewrite <- Zle_Qle.
      change (Z.pred (Z.log2_up c)) with (Z.log2_up c - 1) in Hlo. lia.
Qed.

Lemma ilog2_le (x y : Q) : (0 < x)%Q → (x <= y)%Q → ilog2 x <= ilog2 y.
Proof.
  intros Hx Hxy.
  assert (Hy : (0 < y)%Q) by (by eapply Qlt_le_trans).
  destruct (ilog2_spec x Hx) as [Hlo _].
  destruct (ilog2_spec y Hy) as [_ Hhi].
  destruct (Z_lt_le_dec (ilog2 y) (ilog2 x)) as [Hlt|]; [|done].
  exfalso. apply (Qlt_irrefl y).
  eapply Qlt_le_trans; [exact Hhi|].
  eapply Qle_trans; [|exact Hxy].
  eapply Qle_trans; [|exact Hlo]. apply Qpow2_le. lia.
Qed.

Lemma rne_cases (x : Q) :
  (rne x = Qfloor x ∧ (x - inject_Z (Qfloor x) <= 1 # 2)%Q)
  ∨ (rne x = Qfloor x + 1 ∧ (1 # 2 <= x - inject_Z (Qfloor x))%Q).
Proof.
  unfold rne. cbn zeta.
  destruct (Qcompare_spec (x - inject_Z (Qfloor x)) (1 # 2)) as [He|Hl|Hg].
  - destruct (Z.even (Qfloor x)); [left|right]; split; try done;
      rewrite He; apply Qle_refl.
  - left. split; [done|]. by apply Qlt_le_weak.
  - right. split; [done|]. by apply Qlt_le_weak.
Qed.

Lemma rne_Z (z : Z) : rne (inject_Z z) = z.
Proof.
  unfold rne. cbn zeta. rewrite Qfloor_Z.
  assert (H : (inject_Z z - inject_Z z ?= 1 # 2)%Q = Lt).
  { apply (proj1 (Qlt_alt _ _)). assert (E : (inject_Z z - inject_Z z == 0)%Q) by ring.
    rewrite E. reflexivity. }
  by rewrite H.
Qed.

Lemma rne_le (x y : Q) : (x <= y)%Q → rne x <= rne y.
Proof.
  intros Hxy. pose proof (Qfloor_resp_le x y Hxy) as Hf.
  destruct (Z.eq_dec (Qfloor x) (Qfloor y)) as [Heq|Hne].
  - unfold rne. cbn zeta. rewrite Heq.
    assert (Hr : (x - inject_Z (Qfloor y) <= y - inject_Z (Qfloor y))%Q)
      by lra.
    destruct (Qcompare_spec (x - inject_Z (Qfloor y)) (1 # 2)) as [He|Hl|Hg];
      destruct (Qcompare_spec (y - inject_Z (Qfloor y)) (1 # 2))
        as [He'|Hl'|Hg'];
      try destruct (Z.even (Qfloor y)); try lia; exfalso; lra.
  - destruct (rne_cases x) as [[-> _]|[-> _]];
      destruct (rne_cases y) as [[-> _]|[-> _]]; lia.
Qed.

Lemma rne_nonneg (x : Q) : (0 <= x)%Q → 0 <= rne x.
Proof. intros H. rewrite <- (rne_Z 0). by apply rne_le. Qed.

(** The exponent of the last place of a positive [q]. *)
Lemma round64_pos_scaled (q : Q) :
  (0 < q)%Q →
  let e := Z.max (ilog2 q - 52) (-1074) in
  (q / 2 ^ e < inject_Z (2 ^ 53))%Q
  ∧ (-1074 < e → (inject_Z (2 ^ 52) <= q / 2 ^ e)%Q).
Proof.
  intros Hq. cbn zeta. set (e := Z.max (ilog2 q - 52) (-1074)).
  destruct (ilog2_spec q Hq) as [Hlo Hhi]. split.
  - apply Qlt_shift_div_r; [apply Qpow2_pos|].
    rewrite Qpow2_inject by lia. rewrite <- Qpow2_plus.
    eapply Qlt_le_trans; [exact Hhi|]. apply Qpow2_le. lia.
  - intros He. apply Qle_shift_div_l; [apply Qpow2_pos|].
    rewrite Qpow2_inject by lia. rewrite <- Qpow2_plus.
    eapply Qle_trans; [|exact Hlo]. apply Qpow2_le. lia.
Qed.

Lemma round64_pos_le (x y : Q) :
  (0 < x)%Q → (x <= y)%Q → (round64_pos x <= round64_pos y)%Q.
Proof.
  intros Hx Hxy.
  assert (Hy : (0 < y)%Q) by (by eapply Qlt_le_trans).
  pose proof (ilog2_le x y Hx Hxy) as Hlog.
  destruct (round64_pos_scaled x Hx) as [Hxhi _].
  destruct (round64_pos_scaled y Hy) as [_ Hylo].
  unfold round64_pos. cbn zeta in *.
  set (ex := Z.max (ilog2 x - 52) (-1074)) in *.
  set (ey := Z.max (ilog2 y - 52) (-1074)) in *.
  destruct (Z.eq_dec ex ey) as [Heq|Hne].
  - rewrite <- Heq. apply Qmult_le_compat_r; [|apply Qlt_le_weak, Qpow2_pos].
    rewrite <- Zle_Qle. apply rne_le.
    apply Qmult_le_compat_r; [done|].
    apply Qlt_le_weak, Qinv_lt_0_compat, Qpow2_pos.
  - assert (Hlt : ex < ey) by lia.
    assert (Hrx : rne (x / 2 ^ ex) <= 2 ^ 53).
    { rewrite <- (rne_Z (2 ^ 53)). apply rne_le. by apply Qlt_le_weak. }
    assert (Hry : 2 ^ 52 <= rne (y / 2 ^ ey)).
    { rewrite <- (rne_Z (2 ^ 52)). apply rne_le. apply Hylo. lia. }
    eapply Qle_trans.
    { apply Qmult_le_compat_r; [|apply Qlt_le_weak, Qpow2_pos].
      rewrite <- Zle_Qle. exact Hrx. }
    eapply Qle_trans.
    2: { apply Qmult_le_compat_r; [|apply Qlt_le_weak, Qpow2_pos].
         rewrite <- Zle_Qle. exact Hry. }
    rewrite !Qpow2_inject by lia. rewrite <- !Qpow2_plus.
    apply Qpow2_le. lia.
Qed.

Lemma round64_pos_nonneg (q : Q) : (0 < q)%Q → (0 <= round64_pos q)%Q.
Proof.
  intros Hq. unfold round64_pos. cbn zeta.
  apply Qmult_le_0_compat; [|apply Qlt_le_weak, Qpow2_pos].
  change 0%Q with (inject_Z 0). rewrite <- Zle_Qle. apply rne_nonneg.
  apply Qle_shift_div_l; [apply Qpow2_pos|]. rewrite Qmult_0_l.
  by apply Qlt_le_weak.
Qed.

Lemma round64_nonneg (q : Q) : (0 <= q)%Q → (0 <= round64 q)%Q.
Proof.
  intros Hq. unfold round64.
  destruct (Qcompare_spec q 0) as [He|Hl|Hg].
  - apply Qle_refl.
  - exfalso. lra.
  - by apply round64_pos_nonneg.
Qed.

(** Rounding keeps the order. *)
Lemma round64_le (x y : Q) : (x <= y)%Q → (round64 x <= round64 y)%Q.
Proof.
  intros Hxy. unfold round64.
  destruct (Qcompare_spec x 0) as [Hx|Hx|Hx];
    destruct (Qcompare_spec y 0) as [Hy|Hy|Hy]; try (exfalso; lra).
  - apply Qle_refl.
  - by apply round64_pos_nonneg.
  - assert (H := round64_pos_nonneg (- x)). lra.
  - apply Qopp_le_compat. apply round64_pos_le; lra.
  - assert (H := round64_pos_nonneg (- x)).
    assert (H' := round64_pos_nonneg y). lra.
  - by apply round64_pos_le.
Qed.

(** An integer below 2^53 is a double. *)
Lemma round64_pos_Z (z : Z) :
  0 < z < 2 ^ 53 → (round64_pos (inject_Z z) == inject_Z z)%Q.
Proof.
  intros [Hz0 Hz1]. unfold round64_pos. cbn zeta.
  assert (Hlog : ilog2 (inject_Z z) = Z.log2 z).
  { unfold ilog2.
    assert (H1 : Qle_bool 1 (inject_Z z) = true).
    { apply Qle_bool_iff. change 1%Q with (inject_Z 1). rewrite <- Zle_Qle.
      lia. }
    by rewrite H1, Qfloor_Z. }
  rewrite Hlog.
  assert (Hl : 0 <= Z.log2 z < 53).
  { split; [apply Z.log2_nonneg|]. apply Z.log2_lt_pow2; lia. }
  rewrite Z.max_l by lia.
  set (k := 52 - Z.log2 z).
  replace (Z.log2 z - 52) with (- k) by (unfold k; lia).
  assert (Hk : 0 <= k) by (unfold k; lia).
  assert (Hscaled : (inject_Z z / 2 ^ (- k) == inject_Z (z * 2 ^ k))%Q).
  { rewrite Qpower_opp, inject_Z_mult, Qpow2_inject by done.
    unfold Qdiv. rewrite Qinv_involutive. reflexivity. }
  assert (Hr : rne (inject_Z z / 2 ^ (- k)) = z * 2 ^ k).
  { rewrite <- (rne_Z (z * 2 ^ k)).
    apply Z.le_antisymm; apply rne_le; rewrite Hscaled; apply Qle_refl. }
  rewrite Hr, inject_Z_mult, Qpow2_inject by done.
  rewrite <- Qmult_assoc, <- Qpow2_plus.
  replace (k + - k) with 0 by lia. apply Qmult_1_r.
Qed.

Lemma round64_Z (z : Z) :
  - 2 ^ 53 < z < 2 ^ 53 → (round64 (inject_Z z) == inject_Z z)%Q.
Proof.
  intros Hz. unfold round64.
  destruct (Qcompare_spec (inject_Z z) 0) as [He|Hl|Hg].
  - by rewrite He.
  - assert (Hneg : z < 0).
    { rewrite Zlt_Qlt. exact Hl. }
    rewrite <- inject_Z_opp, round64_pos_Z by lia.
    rewrite inject_Z_opp. apply Qopp_involutive.
  - assert (Hpos : 0 < z).
    { rewrite Zlt_Qlt. exact Hg. }
    apply round64_pos_Z. lia.
Qed.

(** The roll of calculateDamage for the bounds [m] and [m + n - 1]:
    it is at least [m], and at most [m + n], which is one more than
    the upper bound. *)
Lemma roll_bounds (m n : Z) (r : Q) :
  (0 <= r)%Q → (r < 1)%Q → 0 <= n < 2 ^ 53 → - 2 ^ 53 < m →
  m + n < 2 ^ 53 →
  m <= Qfloor (round64 (inject_Z m + round64 (r * inject_Z n))) <= m + n.
Proof.
  intros Hr0 Hr1 Hn Hm Hmn.
  assert (Hn0 : (0 <= inject_Z n)%Q).
  { change 0%Q with (inject_Z 0). rewrite <- Zle_Qle. lia. }
  assert (Hp0 : (0 <= round64 (r * inject_Z n))%Q).
  { apply round64_nonneg. by apply Qmult_le_0_compat. }
  assert (Hp1 : (round64 (r * inject_Z n) <= inject_Z n)%Q).
  { assert (En : (round64 (inject_Z n) == inject_Z n)%Q)
      by (apply round64_Z; lia).
    assert (H : (round64 (r * inject_Z n) <= round64 (inject_Z n))%Q).
    { apply round64_le. rewrite <- (Qmult_1_l (inject_Z n)) at 2.
      apply Qmult_le_compat_r; [by apply Qlt_le_weak|done]. }
    lra. }
  set (p := round64 (r * inject_Z n)) in *.
  assert (Em : (round64 (inject_Z m) == inject_Z m)%Q)
    by (apply round64_Z; lia).
  assert (Emn : (round64 (inject_Z (m + n)) == inject_Z (m + n))%Q)
    by (apply round64_Z; lia).
  assert (Hlo : (round64 (inject_Z m) <= round64 (inject_Z m + p))%Q)
    by (apply round64_le; lra).
  assert (Hhi : (round64 (inject_Z m + p) <= round64 (inject_Z (m + n)))%Q).
  { apply round64_le. rewrite inject_Z_plus. lra. }
  split.
  - rewrite <- (Qfloor_Z m) at 1. apply Qfloor_resp_le. lra.
  - rewrite <- (Qfloor_Z (m + n)). apply Qfloor_resp_le. lra.
Qed.

Lemma roll_ge_one (m n : Z) (r : Q) :
  (0 <= r)%Q → 0 <= n → 1 <= m →
  1 <= Qfloor (round64 (inject_Z m + round64 (r * inject_Z n))).
Proof.
  intros Hr0 Hn Hm.
  assert (Hn0 : (0 <= inject_Z n)%Q).
  { change 0%Q with (inject_Z 0). rewrite <- Zle_Qle. lia. }
  assert (Hp0 : (0 <= round64 (r * inject_Z n))%Q).
  { apply round64_nonneg. by apply Qmult_le_0_compat. }
  set (p := round64 (r * inject_Z n)) in *.
  assert (Hm1 : (inject_Z 1 <= inject_Z m)%Q) by (by rewrite <- Zle_Qle).
  assert (E1 : (round64 (inject_Z 1) == inject_Z 1)%Q)
    by (apply round64_Z; lia).
  assert (Hlo : (round64 (inject_Z 1) <= round64 (inject_Z m + p))%Q)
    by (apply round64_le; lra).
  rewrite <- (Qfloor_Z 1) at 1. apply Qfloor_resp_le. lra.
Qed.

(** ** Distance and range *)

Lemma calculateDistance_sym (p q : Position) :
  CombatSystem.calculateDistance p q = CombatSystem.calculateDistance q p.
Proof. unfold CombatSystem.calculateDistance. f_equal. ring. Qed.

Lemma Q2R_inject_Z (z : Z) : Q2R (inject_Z z) = IZR z.
Proof. unfold Q2R; simpl. field. Qed.

(** The runnable range test decides the one of the source. *)
Lemma isInRangeb_spec (attacker target : Unit) :
  CombatSystem.isInRangeb attacker target = true
  ↔ CombatSystem.isInRange attacker target.
Proof.
  unfold CombatSystem.isInRangeb, CombatSystem.isInRange,
    CombatSystem.calculateDistance.
  destruct (range attacker) as [r|]; [|done].
  set (k := r * 50).
  set (dx := (x (position target) - x (position attacker))%Q).
  set (dy := (y (position target) - y (position attacker))%Q).
  set (D := (_ * _ + _ * _)%R).
  assert (HD : Q2R (dx * dx + dy * dy) = D).
  { subst D dx dy. by rewrite Q2R_plus, !Q2R_mult, !Q2R_minus. }
  assert (HK : Q2R (inject_Z (k * k)) = (IZR k * IZR k)%R).
  { by rewrite Q2R_inject_Z, mult_IZR. }
  assert (HD0 : (0 <= D)%R).
  { subst D. apply Rplus_le_le_0_compat; apply Rle_0_sqr. }
  rewrite andb_true_iff, Z.leb_le, Qle_bool_iff. split.
  - intros [Hk HQ]. apply Qle_Rle in HQ. rewrite HD, HK in HQ.
    rewrite <- (sqrt_square (IZR k)) by (apply IZR_le; lia).
    by apply sqrt_le_1_alt.
  - intros H.
    assert (Hk : (0 <= IZR k)%R).
    { eapply Rle_trans; [apply (sqrt_pos D)|exact H]. }
    split; [by apply le_IZR|].
    apply Rle_Qle. rewrite HD, HK.
    rewrite <- (sqrt_sqrt D) by done.
    apply Rmult_le_compat; auto using sqrt_pos.
Qed.

Example duel_archer : obj duel the_archer =
  {| id := 0; type := "archer"; health := Num 60; maxHealth := Num 60;
     attack := Num 12; defense := Num 3; speed := Num 3; range := Num 5;
     position := at_xy 0 0; selected := false; faction := player |}.
Proof. vm_compute. reflexivity. Qed.

Example duel_infantry : obj duel the_infantry =
  {| id := 1; type := "infantry-medium"; health := Num 80;
     maxHealth := Num 80; attack := Num 8; defense := Num 5;
     speed := Num 3; range := Num 1; position := at_xy 100 0;
     selected := false; faction := enemy |}.
Proof. vm_compute. reflexivity. Qed.

Example duel_units : units duel = [the_archer; the_infantry].
Proof. vm_compute. reflexivity. Qed.

(** C9: the distance between two positions does not depend on their
    order, but the range test does: it compares the distance with 50
    times the range of the attacker, whatever the range of the target
    is, so there are units [a] and [b] with [a] in range of [b] and
    [b] not in range of [a]. *)
Theorem distance_symmetric_range_not :
  (∀ p q : Position,
     CombatSystem.calculateDistance p q = CombatSystem.calculateDistance q p)
  ∧ (∃ a b : Unit,
       CombatSystem.isInRange a b ∧ ¬ CombatSystem.isInRange b a)
  ∧ (∀ a b b' : Unit,
       position b = position b' →
       (CombatSystem.isInRange a b ↔ CombatSystem.isInRange a b')).
Proof.
  split_and!.
  - apply calculateDistance_sym.
  - exists (obj duel the_archer), (obj duel the_infantry). split.
    + apply isInRangeb_spec. vm_compute. reflexivity.
    + intros H%isInRangeb_spec. vm_compute in H. discriminate H.
  - intros a b b' Hpos. unfold CombatSystem.isInRange.
    by rewrite Hpos.
Qed.

(** ** The damage roll *)

Lemma baseDamage_ge (a d : Z) :
  -1 <= 2 * a - d → (- (1 # 2) <= CombatSystem.baseDamage a d)%Q.
Proof.
  intros H. unfold CombatSystem.baseDamage.
  assert (H' : d <= 2 * a + 1) by lia.
  rewrite Zle_Qle, inject_Z_plus, inject_Z_mult in H'.
  change (inject_Z 1) with 1%Q in H'.
  change (inject_Z 2) with 2%Q in H'.
  unfold Qdiv. change (/ 2)%Q with (1 # 2)%Q. lra.
Qed.

(** When the base damage is above -1, maxDamage is at least
    minDamage - 1 ... *)
Lemma maxDamage_ge (a d : Z) :
  -1 <= 2 * a - d →
  CombatSystem.minDamage a d - 1 <= CombatSystem.maxDamage a d.
Proof.
  intros H%baseDamage_ge.
  unfold CombatSystem.minDamage, CombatSystem.maxDamage.
  set (b := CombatSystem.baseDamage a d) in *.
  pose proof (Qfloor_le (b * (8 # 10))) as Hf.
  pose proof (Qle_ceiling (b * (12 # 10))) as Hc.
  destruct (Z.max_spec 1 (Qfloor (b * (8 # 10)))) as [[Hlt ->]|[Hle ->]].
  - assert (H1 : (inject_Z 1 <= inject_Z (Qfloor (b * (8 # 10))))%Q)
      by (rewrite <- Zle_Qle; lia).
    change (inject_Z 1) with 1%Q in H1.
    cut (Qfloor (b * (8 # 10)) <= Qceiling (b * (12 # 10))); [lia|].
    rewrite Zle_Qle. lra.
  - cut (-1 < Qceiling (b * (12 # 10))); [lia|].
    rewrite Zlt_Qlt. change (inject_Z (-1)) with (-1)%Q. lra.
Qed.

(** A roll is between minDamage and maxDamage + 1, when maxDamage
    is not more than one below minDamage. *)
Lemma calculateDamage_roll (random : Q) (attacker defender : Unit)
    (a d : Z) :
  attack attacker = Num a → defense defender = Num d →
  CombatSystem.minDamage a d - 1 <= CombatSystem.maxDamage a d →
  CombatSystem.maxDamage a d + 1 < 2 ^ 53 →
  (0 <= random)%Q → (random < 1)%Q →
  ∃ n, CombatSystem.calculateDamage random attacker defender = Num n
       ∧ CombatSystem.minDamage a d <= n
       ∧ n <= CombatSystem.maxDamage a d + 1.
Proof.
  intros Ha Hd Hle Hmax Hr0 Hr1. eexists. split.
  - unfold CombatSystem.calculateDamage. rewrite Ha, Hd. reflexivity.
  - assert (1 <= CombatSystem.minDamage a d)
      by (unfold CombatSystem.minDamage; lia).
    pose proof (roll_bounds (CombatSystem.minDamage a d)
      (CombatSystem.maxDamage a d - CombatSystem.minDamage a d + 1)
      random Hr0 Hr1). lia.
Qed.

(** A larger roll does not give less damage. *)
Lemma calculateDamage_le (random random' : Q) (attacker defender : Unit)
    (a d n n' : Z) :
  attack attacker = Num a → defense defender = Num d →
  CombatSystem.minDamage a d - 1 <= CombatSystem.maxDamage a d →
  (random <= random')%Q →
  CombatSystem.calculateDamage random attacker defender = Num n →
  CombatSystem.calculateDamage random' attacker defender = Num n' →
  n <= n'.
Proof.
  intros Ha Hd Hle Hr. unfold CombatSystem.calculateDamage.
  rewrite Ha, Hd. intros [= <-] [= <-].
  apply Qfloor_resp_le, round64_le, Qplus_le_r, round64_le.
  apply Qmult_le_compat_r; [done|].
  change 0%Q with (inject_Z 0). rewrite <- Zle_Qle. lia.
Qed.

(** ... and the roll is then at least 1. *)
Lemma calculateDamage_ge_one (random : Q) (attacker defender : Unit)
    (a d : Z) :
  attack attacker = Num a → defense defender = Num d →
  -1 <= 2 * a - d → (0 <= random)%Q →
  ∃ n, CombatSystem.calculateDamage random attacker defender = Num n
       ∧ 1 <= n.
Proof.
  intros Ha Hd Hb Hr0. pose proof (maxDamage_ge a d Hb) as Hmax.
  eexists. split.
  - unfold CombatSystem.calculateDamage. rewrite Ha, Hd. reflexivity.
  - apply roll_ge_one; [done|lia|].
    unfold CombatSystem.minDamage. lia.
Qed.

(** Every pair of stat records of the table is in that case. *)
Lemma UNIT_TYPES_base_damage (t1 t2 : string) (s1 s2 : UnitStats) :
  UNIT_TYPES !! t1 = Some s1 → UNIT_TYPES !! t2 = Some s2 →
  -1 <= 2 * stats_attack s1 - stats_defense s2.
Proof.
  assert (Hall : map_Forall
            (λ _ st, 8 <= stats_attack st ∧ stats_defense st <= 8)
            UNIT_TYPES).
  { apply (bool_decide_unpack _). vm_compute. exact I. }
  intros H1 H2. apply Hall in H1, H2. simpl in *. lia.
Qed.

(** C1 (the failing input): for an attacker of attack 1, a defender of
    defense 8 and the roll 1/2, calculateDamage returns -1.  Here
    minDamage is 1 and maxDamage is -3, and the result is neither
    clamped to minDamage nor at least 1. *)
Theorem calculateDamage_below_one :
  CombatSystem.calculateDamage (1 # 2) (with_stats 1 0) (with_stats 0 8)
  = Num (-1)
  ∧ CombatSystem.minDamage 1 8 = 1
  ∧ CombatSystem.maxDamage 1 8 = -3
  ∧ ¬ roll_in_bounds (1 # 2) (with_stats 1 0) (with_stats 0 8).
Proof.
  split_and!; [vm_compute; reflexivity..|].
  intros (a & d & n & Ha & Hd & Hn & H1 & _).
  vm_compute in Hn. injection Hn as <-. lia.
Qed.

(** ** Attacks *)

Lemma performAttack_out_of_range (random : Q) (a d : nat) (s : State) :
  CombatSystem.isInRangeb (obj s a) (obj s d) = false →
  CombatSystem.performAttack random a d s = (false, s).
Proof. intros H. unfold CombatSystem.performAttack. by rewrite H. Qed.

Lemma performAttack_hit (random : Q) (a d : nat) (s : State) (h n : Z) :
  CombatSystem.isInRangeb (obj s a) (obj s d) = true →
  health (obj s d) = Num h →
  CombatSystem.calculateDamage random (obj s a) (obj s d) = Num n →
  CombatSystem.performAttack random a d s =
    let rest := Z.max 0 (h - n) in
    let s2 := emit (combat_attack a d (Num n) (Num rest))
                   (write_obj d (set_health (Num rest) (obj s d)) s) in
    if rest <=? 0 then (true, emit (combat_defeat a d) s2) else (false, s2).
Proof.
  intros Hin Hh Hn. unfold CombatSystem.performAttack.
  rewrite Hin, Hn, Hh. cbn [negb num_sub Math_max].
  rewrite obj_emit, !obj_write_obj_eq. reflexivity.
Qed.

(** An attacker of attack 12 against a defender of defense 5 and
    health 80, in range: the damage is between 7 and [hi], when a
    roll gives no more than [hi]. *)
Lemma attack_12_on_5 (random : Q) (s : State) (a d : nat) (hi : Z) :
  CombatSystem.isInRangeb (obj s a) (obj s d) = true →
  attack (obj s a) = Num 12 → defense (obj s d) = Num 5 →
  health (obj s d) = Num 80 →
  (0 <= random)%Q → (random < 1)%Q →
  (∀ n, CombatSystem.calculateDamage random (obj s a) (obj s d) = Num n →
        n <= hi) →
  hi <= 13 →
  attack_outcome s a d 7 hi (80 - hi) 73 random.
Proof.
  intros Hin Hatt Hdef Hhp Hr0 Hr1 Hmost Hhi.
  assert (Hmin : CombatSystem.minDamage 12 5 = 7)
    by (vm_compute; reflexivity).
  assert (Hmax : CombatSystem.maxDamage 12 5 = 12)
    by (vm_compute; reflexivity).
  destruct (calculateDamage_roll random (obj s a) (obj s d) 12 5 Hatt Hdef)
    as (n & Hn & Hlo & _); [rewrite Hmin, Hmax; lia|rewrite Hmax; lia
                           |done|done|].
  rewrite Hmin in Hlo. pose proof (Hmost n Hn) as Hle.
  exists n, (80 - n).
  rewrite (performAttack_hit random a d s 80 n Hin Hhp Hn).
  cbn zeta. replace (Z.max 0 (80 - n)) with (80 - n) by lia.
  destruct (Z.leb_spec (80 - n) 0) as [?|_]; [lia|].
  cbn [snd]. rewrite obj_emit, obj_write_obj_eq.
  split_and!; first [done|lia].
Qed.

(** C6 (as amended): in [duel] the infantry is in range of the archer,
    and for every roll in [0, 1) the attack is carried out and deals
    between 7 and 13 damage, which leaves the infantry a health
    between 67 and 73.  For a roll up to the last double but one
    below 1 the damage is at most 12 and the health left at least
    68. *)
Theorem duel_attack (random : Q) :
  (0 <= random)%Q → (random < 1)%Q →
  CombatSystem.isInRange (obj duel the_archer) (obj duel the_infantry)
  ∧ duel_outcome 7 13 67 73 random
  ∧ ((random <= last_roll_but_one)%Q → duel_outcome 7 12 68 73 random).
Proof.
  intros Hr0 Hr1.
  assert (Hin : CombatSystem.isInRangeb (obj duel the_archer)
                  (obj duel the_infantry) = true).
  { vm_compute. reflexivity. }
  assert (Hatt : attack (obj duel the_archer) = Num 12)
    by (by rewrite duel_archer).
  assert (Hdef : defense (obj duel the_infantry) = Num 5)
    by (by rewrite duel_infantry).
  assert (Hhp : health (obj duel the_infantry) = Num 80)
    by (by rewrite duel_infantry).
  assert (Hle : CombatSystem.minDamage 12 5 - 1
                <= CombatSystem.maxDamage 12 5) by (vm_compute; discriminate).
  split; [by apply isInRangeb_spec|]. split.
  - apply (attack_12_on_5 random duel the_archer the_infantry 13);
      try assumption; try lia.
    intros n Hn.
    destruct (calculateDamage_roll random (obj duel the_archer)
                (obj duel the_infantry) 12 5 Hatt Hdef Hle)
      as (n' & Hn' & _ & Hhi); [vm_compute; reflexivity|done|done|].
    rewrite Hn in Hn'. injection Hn' as <-.
    assert (Hmax : CombatSystem.maxDamage 12 5 = 12)
      by (vm_compute; reflexivity).
    lia.
  - intros Hbelow.
    apply (attack_12_on_5 random duel the_archer the_infantry 12);
      try assumption; try lia.
    intros n Hn.
    apply (calculateDamage_le random last_roll_but_one
             (obj duel the_archer) (obj duel the_infantry) 12 5 n 12
             Hatt Hdef Hle Hbelow Hn).
    unfold CombatSystem.calculateDamage. rewrite Hatt, Hdef.
    vm_compute. reflexivity.
Qed.

Lemma duel_attack_witness :
  CombatSystem.isInRange (obj duel the_archer) (obj duel the_infantry)
  ∧ duel_outcome 7 13 67 73 (1 # 2).
Proof.
  destruct (duel_attack (1 # 2)) as (H1 & H2 & _);
    [discriminate|reflexivity|exact (conj H1 H2)].
Defined.

(** C6 (counterexample): at the roll 0 the archer deals 7 damage and
    the infantry is left with 73 health; at the largest roll, the
    double next below 1, it deals 13 and the infantry is left with
    67.  Neither damage is between 8 and 12, and neither health
    between 68 and 72. *)
Lemma duel_attack_low_roll :
  (0 <= 0)%Q ∧ (0 < 1)%Q
  ∧ CombatSystem.calculateDamage 0 (obj duel the_archer)
                                 (obj duel the_infantry) = Num 7
  ∧ health (obj (CombatSystem.performAttack 0 the_archer the_infantry
                   duel).2 the_infantry) = Num 73
  ∧ ¬ duel_outcome 8 12 68 72 0
  ∧ (0 <= last_roll)%Q ∧ (last_roll < 1)%Q
  ∧ CombatSystem.calculateDamage last_roll (obj duel the_archer)
                                 (obj duel the_infantry) = Num 13
  ∧ health (obj (CombatSystem.performAttack last_roll the_archer
                   the_infantry duel).2 the_infantry) = Num 67
  ∧ ¬ duel_outcome 8 12 68 72 last_roll.
Proof.
  split_and!.
  - discriminate.
  - reflexivity.
  - vm_compute. reflexivity.
  - vm_compute. reflexivity.
  - intros (damage & rest & Hd & Hlo & _).
    vm_compute in Hd. injection Hd as <-. lia.
  - vm_compute. discriminate.
  - vm_compute. reflexivity.
  - vm_compute. reflexivity.
  - vm_compute. reflexivity.
  - intros (damage & rest & Hd & Hlo & _).
    vm_compute in Hd. injection Hd as <-. lia.
Qed.

(** ** Allocation and the queries *)

Lemma alloc_arr_spec (xs : list nat) (s : State) :
  let a := (alloc_arr xs s).1 in
  let s1 := (alloc_arr xs s).2 in
  (a ∉ dom (arrs s))
  ∧ arr s1 a = xs
  ∧ (∀ b, b ∈ dom (arrs s) → arr s1 b = arr s b)
  ∧ dom (arrs s1) = {[a]} ∪ dom (arrs s)
  ∧ objs s1 = objs s
  ∧ units_ref s1 = units_ref s
  ∧ selectedUnits_ref s1 = selectedUnits_ref s
  ∧ nextUnitId s1 = nextUnitId s
  ∧ combatCooldowns s1 = combatCooldowns s
  ∧ bus s1 = bus s.
Proof.
  cbn zeta. split_and!; try reflexivity.
  - apply alloc_arr_fresh.
  - apply alloc_arr_read.
  - intros b Hb. by apply alloc_arr_old.
  - apply dom_arrs_write_arr.
Qed.

(** What an allocation leaves of a well-formed registry. *)
Lemma alloc_arr_frame (xs : list nat) (s : State) :
  wf_refs s →
  let s1 := (alloc_arr xs s).2 in
  wf_refs s1 ∧ units s1 = units s ∧ selectedUnits s1 = selectedUnits s
  ∧ (∀ l, obj s1 l = obj s l).
Proof.
  intros (Hne & Hu & Hs).
  destruct (alloc_arr_spec xs s)
    as (Hfresh & _ & Hold & Hdoms & Hobjs & Hur & Hsr & _).
  cbn zeta. split_and!.
  - unfold wf_refs. rewrite Hur, Hsr, Hdoms.
    split_and!; [done|by apply elem_of_union_r..].
  - unfold units. rewrite Hur. by apply Hold.
  - unfold selectedUnits. rewrite Hsr. by apply Hold.
  - intros l. unfold obj. by rewrite Hobjs.
Qed.

(** ** The end of the game *)

(** The two arrays isGameOver asks for hold the player units and the
    enemy units of the registry. *)
Lemma isGameOver_status (s : State) :
  units_ref s ∈ dom (arrs s) →
  (WorldState.isGameOver s).1 =
    let playerUnits := filter (λ l, faction (obj s l) = player) (units s) in
    let enemyUnits := filter (λ l, faction (obj s l) = enemy) (units s) in
    if (length playerUnits =? 0)%nat
    then {| over := true; winner := Some enemy |}
    else if (length enemyUnits =? 0)%nat
    then {| over := true; winner := Some player |}
    else {| over := false; winner := None |}.
Proof.
  intros Hu. cbn zeta.
  set (P := filter (λ l, faction (obj s l) = player) (units s)).
  set (E := filter (λ l, faction (obj s l) = enemy) (units s)).
  unfold WorldState.isGameOver, UnitManager.getUnitsByFaction.
  fold P.
  destruct (alloc_arr_spec P s)
    as (Hf1 & Hr1 & Ho1 & Hd1 & Hobj1 & Hur1 & _).
  destruct (alloc_arr P s) as [a1 s1] eqn:E1. cbn [fst snd] in *.
  assert (HE : filter (λ l, faction (obj s1 l) = enemy) (units s1) = E).
  { unfold units, obj. rewrite Hur1, Hobj1. fold (arr s1 (units_ref s)).
    by rewrite Ho1. }
  rewrite HE.
  destruct (alloc_arr_spec E s1) as (Hf2 & Hr2 & Ho2 & _).
  destruct (alloc_arr E s1) as [a2 s2] eqn:E2. cbn [fst snd] in *.
  assert (Ha1 : arr s2 a1 = P).
  { rewrite Ho2; [done|]. rewrite Hd1. apply elem_of_union_l.
    by apply elem_of_singleton. }
  rewrite Ha1, Hr2.
  by repeat case_match.
Qed.

(** C2: isGameOver looks at the player side first.  Without player
    units the enemy has won, also when there are no enemy units
    either; with player units and without enemy units the player has
    won; otherwise the game is not over. *)
Theorem isGameOver_player_first (s : State) :
  units_ref s ∈ dom (arrs s) →
  let status := (WorldState.isGameOver s).1 in
  let playerUnits := filter (λ l, faction (obj s l) = player) (units s) in
  let enemyUnits := filter (λ l, faction (obj s l) = enemy) (units s) in
  (playerUnits = [] → status = {| over := true; winner := Some enemy |})
  ∧ (playerUnits ≠ [] → enemyUnits = [] →
     status = {| over := true; winner := Some player |})
  ∧ (playerUnits ≠ [] → enemyUnits ≠ [] →
     status = {| over := false; winner := None |})
  ∧ (units s = [] → status = {| over := true; winner := Some enemy |}).
Proof.
  intros Hu. cbn zeta. rewrite (isGameOver_status s Hu). cbn zeta.
  set (P := filter (λ l, faction (obj s l) = player) (units s)).
  set (E := filter (λ l, faction (obj s l) = enemy) (units s)).
  assert (HP : P = [] ∨ ∃ p P', P = p :: P')
    by (destruct P; [by left|right; eauto]).
  assert (HE : E = [] ∨ ∃ e E', E = e :: E')
    by (destruct E; [by left|right; eauto]).
  split_and!.
  - by intros ->.
  - intros HP' ->. by destruct HP as [?|(p & P' & ->)].
  - intros HP' HE'. destruct HP as [?|(p & P' & ->)]; [done|].
    by destruct HE as [?|(e & E' & ->)].
  - intros Hnone. subst P. by rewrite Hnone.
Qed.

Lemma isGameOver_player_first_witness :
  (WorldState.isGameOver (UnitManager.new empty_store)).1
  = {| over := true; winner := Some enemy |}.
Proof.
  apply (isGameOver_player_first (UnitManager.new empty_store)).
  - vm_compute. reflexivity.
  - vm_compute. reflexivity.
Defined.

Example isGameOver_duel :
  (WorldState.isGameOver duel).1 = {| over := false; winner := None |}.
Proof. vm_compute. reflexivity. Qed.

(** ** The clock of the tick driver *)

Section clock.
Variables updateEnemyUnits checkAllCombat : State → State.

Abbreviation update :=
  (GameModel.update updateEnemyUnits checkAllCombat).

Lemma checkGameOver_lastUpdate (g : GameModel.GameModel) :
  GameModel.lastUpdate (GameModel.checkGameOver g)
  = GameModel.lastUpdate g.
Proof.
  unfold GameModel.checkGameOver.
  destruct (WorldState.isGameOver (GameModel.worldState g)) as [st w].
  by destruct (over st).
Qed.

(** A call that performs a simulation step on a clock that was set
    moves the clock back by one interval. *)
Lemma update_step_lastUpdate (time : Q) (g : GameModel.GameModel) :
  Qeq_bool (GameModel.lastUpdate g) (-1) = false →
  GameModel.steps time g = true →
  GameModel.lastUpdate (update time g)
  = (GameModel.lastUpdate g - GameModel.updateInterval)%Q.
Proof.
  unfold GameModel.steps, GameModel.update. intros ->.
  rewrite andb_true_iff, negb_true_iff. intros [-> ->].
  by rewrite checkGameOver_lastUpdate.
Qed.

(** The gap to the clock only grows: once a step was made, every
    later call of a game that is still running makes one too. *)
Lemma update_step_again (time time' : Q) (g : GameModel.GameModel) :
  Qeq_bool (GameModel.lastUpdate g) (-1) = false →
  Qeq_bool (GameModel.lastUpdate g - GameModel.updateInterval) (-1)
  = false →
  GameModel.steps time g = true →
  GameModel.paused (update time g) = false →
  (time <= time')%Q →
  GameModel.steps time' (update time g) = true.
Proof.
  intros Hset Hset' Hstep Hrun Hle.
  pose proof (update_step_lastUpdate time g Hset Hstep) as Hlast.
  unfold GameModel.steps in *. rewrite Hlast, Hset', Hrun.
  rewrite Hset in Hstep. apply andb_true_iff in Hstep as [_ Hgap].
  apply Qle_bool_iff in Hgap. cbn [negb andb]. apply Qle_bool_iff.
  rewrite Hlast. unfold GameModel.updateInterval in *. lra.
Qed.

(** C3 (the failing input): a running game whose clock stands at
    1000 is updated at time 1100.  The call performs a step and
    leaves the clock at 1000 - 100, which is not 1000 + 100. *)
Theorem update_moves_clock_back :
  GameModel.steps 1100 running_game = true
  ∧ GameModel.lastUpdate (update 1100 running_game) = (1000 - 100)%Q
  ∧ ¬ (GameModel.lastUpdate (update 1100 running_game)
       == 1000 + GameModel.updateInterval)%Q.
Proof.
  assert (Hlast : GameModel.lastUpdate (update 1100 running_game)
                  = (1000 - 100)%Q).
  { by rewrite update_step_lastUpdate. }
  split_and!; [done|done|]. by rewrite Hlast.
Qed.

End clock.

(** ** Creating units *)

(** A call that passes the guard: the new unit takes the next id and
    its stats from whatever UNIT_TYPES[type] found, and is appended to
    the registry's array. *)
Lemma createUnit_return (type : string) (pos : Position) (f : Faction)
    (s : State) :
  UNIT_TYPES_get type ≠ Undefined →
  ∃ l s1,
    UnitManager.createUnit type pos f s = Return l s1
    ∧ (l ∉ dom (objs s))
    ∧ obj s1 l =
        {| id := nextUnitId s; type := type;
           health := read_stat stats_health (UNIT_TYPES_get type);
           maxHealth := read_stat stats_health (UNIT_TYPES_get type);
           attack := read_stat stats_attack (UNIT_TYPES_get type);
           defense := read_stat stats_defense (UNIT_TYPES_get type);
           speed := read_stat stats_speed (UNIT_TYPES_get type);
           range := read_stat stats_range (UNIT_TYPES_get type);
           position := pos; selected := false; faction := f |}
    ∧ (∀ l', l' ≠ l → obj s1 l' = obj s l')
    ∧ dom (objs s1) = {[l]} ∪ dom (objs s)
    ∧ arrs s1 = <[units_ref s := units s ++ [l]]> (arrs s)
    ∧ units_ref s1 = units_ref s
    ∧ selectedUnits_ref s1 = selectedUnits_ref s
    ∧ nextUnitId s1 = nextUnitId s + 1
    ∧ combatCooldowns s1 = combatCooldowns s
    ∧ bus s1 = bus s ++ [unit_added l].
Proof.
  intros Hget. unfold UnitManager.createUnit, UnitFactory.createUnit.
  destruct pos as [px py].
  destruct (UNIT_TYPES_get type) as [stats| |]; [| |done].
  all: eexists _, _; split; [reflexivity|].
  all: cbn [alloc_obj fst snd x y]; unfold UnitManager.addUnit.
  all: split_and!; try reflexivity.
  all: try apply is_fresh.
  all: try (by rewrite obj_emit, obj_write_arr, obj_write_obj_eq).
  all: try apply dom_insert_L.
  all: intros l' Hne.
  all: by rewrite obj_emit, obj_write_arr, obj_write_obj_ne.
Qed.

Lemma createUnit_own (type : string) (stats : UnitStats) (pos : Position)
    (f : Faction) (s : State) :
  UNIT_TYPES !! type = Some stats →
  ∃ l s1,
    UnitManager.createUnit type pos f s = Return l s1
    ∧ obj s1 l =
        {| id := nextUnitId s; type := type;
           health := Num (stats_health stats);
           maxHealth := Num (stats_health stats);
           attack := Num (stats_attack stats);
           defense := Num (stats_defense stats);
           speed := Num (stats_speed stats);
           range := Num (stats_range stats);
           position := pos; selected := false; faction := f |}
    ∧ units s1 = units s ++ [l]
    ∧ nextUnitId s1 = nextUnitId s + 1.
Proof.
  intros Hown.
  assert (Hget : UNIT_TYPES_get type = OwnStats stats)
    by (unfold UNIT_TYPES_get; by rewrite Hown).
  destruct (createUnit_return type pos f s)
    as (l & s1 & Hc & _ & Hobj & _ & _ & Harr & Hur & _ & Hnext & _).
  { by rewrite Hget. }
  exists l, s1. rewrite Hget in Hobj. split_and!; try done.
  unfold units, arr. rewrite Harr, Hur. apply lookup_total_insert_eq.
Qed.

Lemma createUnit_undefined (type : string) (pos : Position) (f : Faction)
    (s : State) :
  UNIT_TYPES_get type = Undefined →
  UnitManager.createUnit type pos f s = Throw (UnknownUnitType type) s.
Proof.
  intros Hget. unfold UnitManager.createUnit, UnitFactory.createUnit.
  by rewrite Hget.
Qed.

Lemma createUnit_inherited (type : string) (pos : Position) (f : Faction)
    (s : State) :
  UNIT_TYPES_get type = Inherited →
  ∃ l s1,
    UnitManager.createUnit type pos f s = Return l s1
    ∧ obj s1 l =
        {| id := nextUnitId s; type := type; health := NaN;
           maxHealth := NaN; attack := NaN; defense := NaN; speed := NaN;
           range := NaN; position := pos; selected := false;
           faction := f |}
    ∧ units s1 = units s ++ [l]
    ∧ nextUnitId s1 = nextUnitId s + 1.
Proof.
  intros Hget.
  destruct (createUnit_return type pos f s)
    as (l & s1 & Hc & _ & Hobj & _ & _ & Harr & Hur & _ & Hnext & _).
  { by rewrite Hget. }
  exists l, s1. rewrite Hget in Hobj. split_and!; try done.
  unfold units, arr. rewrite Harr, Hur. apply lookup_total_insert_eq.
Qed.

(** What holds of the claim: a name of the table gives a unit at full
    health that is not selected, and a name that UNIT_TYPES[type] does
    not find at all makes the call throw in the state it started
    in. *)
Lemma createUnit_table_or_unknown (type : string) (pos : Position)
    (f : Faction) (s : State) :
  (∀ stats, UNIT_TYPES !! type = Some stats →
     ∃ l s1, UnitManager.createUnit type pos f s = Return l s1
       ∧ health (obj s1 l) = Num (stats_health stats)
       ∧ maxHealth (obj s1 l) = Num (stats_health stats)
       ∧ selected (obj s1 l) = false)
  ∧ (UNIT_TYPES !! type = None → type ∉ Object_prototype_keys →
     UnitManager.createUnit type pos f s = Throw (UnknownUnitType type) s).
Proof.
  split.
  - intros stats Hown.
    destruct (createUnit_own type stats pos f s Hown)
      as (l & s1 & Hc & Hobj & _).
    exists l, s1. by rewrite Hobj.
  - intros Hnone Hnot. apply createUnit_undefined.
    unfold UNIT_TYPES_get. rewrite Hnone.
    by rewrite bool_decide_eq_false_2.
Qed.

(** C8 (the failing input): "constructor" is not a name of the table,
    yet createUnit does not throw for it: UNIT_TYPES["constructor"] is
    the inherited Object, which passes the guard.  The call takes the
    next id, builds a unit whose stats are all undefined and adds it
    to the registry. *)
Theorem createUnit_inherited_name (pos : Position) (f : Faction)
    (s : State) :
  UNIT_TYPES !! "constructor" = None
  ∧ ∃ l s1,
      UnitManager.createUnit "constructor" pos f s = Return l s1
      ∧ nextUnitId s1 = nextUnitId s + 1
      ∧ units s1 = units s ++ [l]
      ∧ health (obj s1 l) = NaN ∧ maxHealth (obj s1 l) = NaN.
Proof.
  split; [vm_compute; reflexivity|].
  assert (Hget : UNIT_TYPES_get "constructor" = Inherited)
    by (vm_compute; reflexivity).
  destruct (createUnit_inherited "constructor" pos f s Hget)
    as (l & s1 & Hc & Hobj & Hunits & Hnext).
  exists l, s1. by rewrite Hobj.
Qed.

(** ** The registry's arrays in the store *)

Section registry_arrays.
Implicit Types (s : State) (l a : nat) (u : Unit) (xs : list nat).

Lemma units_write_units s xs :
  units (write_arr (units_ref s) xs s) = xs.
Proof. unfold units. apply arr_write_arr_eq. Qed.

Lemma selectedUnits_write_selectedUnits s xs :
  selectedUnits (write_arr (selectedUnits_ref s) xs s) = xs.
Proof. unfold selectedUnits. apply arr_write_arr_eq. Qed.

Lemma units_write_selectedUnits s xs :
  wf_refs s → units (write_arr (selectedUnits_ref s) xs s) = units s.
Proof.
  intros (Hne & _). unfold units. cbn [units_ref write_arr set_arrs].
  by apply arr_write_arr_ne.
Qed.

Lemma selectedUnits_write_units s xs :
  wf_refs s →
  selectedUnits (write_arr (units_ref s) xs s) = selectedUnits s.
Proof.
  intros (Hne & _). unfold selectedUnits.
  cbn [selectedUnits_ref write_arr set_arrs]. by apply arr_write_arr_ne.
Qed.

Lemma wf_refs_write_arr s a xs : wf_refs s → wf_refs (write_arr a xs s).
Proof.
  intros (Hne & Hu & Hs). unfold wf_refs.
  rewrite dom_arrs_write_arr. cbn [units_ref selectedUnits_ref write_arr
    set_arrs]. split_and!; [done|..]; apply elem_of_union_r; done.
Qed.

Lemma wf_refs_write_obj s l u : wf_refs s → wf_refs (write_obj l u s).
Proof. done. Qed.

Lemma wf_refs_emit s e : wf_refs s → wf_refs (emit e s).
Proof. done. Qed.

End registry_arrays.
(** ** Lists without duplicates *)

Lemma elem_of_delete_NoDup {A : Type} (xs : list A) (i : nat) (a b : A) :
  NoDup xs → xs !! i = Some a → b ∈ delete i xs ↔ b ∈ xs ∧ b ≠ a.
Proof.
  intros Hnd. revert i. induction Hnd as [|c xs Hc Hnd IH]; intros i Hi.
  - done.
  - destruct i as [|i]; cbn in *.
    + injection Hi as ->. rewrite elem_of_cons. split.
      * intros Hb. split; [by right|]. by intros ->.
      * intros [[->|Hb] Hne]; done.
    + rewrite !elem_of_cons, (IH i Hi). split.
      * intros [->|[Hb Hne]]; [|by auto].
        split; [by left|]. intros ->. apply Hc.
        by eapply list_elem_of_lookup_2.
      * intros [[->|Hb] Hne]; auto.
Qed.

(** ** The registry as two lists *)

Section reg_ok.
Implicit Types (U S : list nat) (o : nat → Unit) (n : Z) (l : nat).

Lemma reg_ok_NoDup_units U S o n : reg_ok U S o n → NoDup U.
Proof. intros (Hids & _). by eapply NoDup_fmap_1. Qed.

Lemma reg_ok_ids_inj U S o n l l' :
  reg_ok U S o n → l ∈ U → l' ∈ U → id (o l) = id (o l') → l = l'.
Proof.
  intros (Hids & _) Hl Hl' Heq.
  apply list_elem_of_lookup in Hl as [i Hi].
  apply list_elem_of_lookup in Hl' as [j Hj].
  assert (i = j) as ->.
  { eapply NoDup_lookup; [exact Hids|..].
    - rewrite list_lookup_fmap, Hi. reflexivity.
    - rewrite list_lookup_fmap, Hj. cbn. by rewrite Heq. }
  congruence.
Qed.

Lemma ids_fmap_ext U o o' :
  (∀ l, l ∈ U → id (o' l) = id (o l)) →
  (λ l, id (o' l)) <$> U = (λ l, id (o l)) <$> U.
Proof.
  intros H. apply list_fmap_ext. intros i l Hl. apply H.
  by eapply list_elem_of_lookup_2.
Qed.

(** Changes that touch neither an id nor a flag. *)
Lemma reg_ok_ext U S o o' n :
  reg_ok U S o n →
  (∀ l, l ∈ U → id (o' l) = id (o l)) →
  (∀ l, l ∈ U → selected (o' l) = selected (o l)) →
  reg_ok U S o' n.
Proof.
  intros (Hids & Hlt & HS & Hsel) Hid Hflag. split_and!.
  - by rewrite (ids_fmap_ext U o o').
  - intros l Hl. rewrite Hid; auto.
  - done.
  - intros l. rewrite Hsel. split; intros [Hl Hs]; split; try done.
    + by rewrite Hflag.
    + by rewrite <- Hflag.
Qed.

Lemma reg_ok_select U S o o' n l :
  reg_ok U S o n → l ∈ U → selected (o l) = false →
  (∀ l', l' ∈ U → id (o' l') = id (o l')) →
  selected (o' l) = true →
  (∀ l', l' ∈ U → l' ≠ l → selected (o' l') = selected (o l')) →
  reg_ok U (S ++ [l]) o' n.
Proof.
  intros (Hids & Hlt & HS & Hsel) Hl Hoff Hid Hon Hflag.
  assert (HlS : l ∉ S).
  { intros [_ Hs]%Hsel. congruence. }
  split_and!.
  - by rewrite (ids_fmap_ext U o o').
  - intros l' Hl'. rewrite Hid; auto.
  - apply NoDup_app. split_and!; [done| |apply NoDup_singleton].
    intros l' Hl' ->%list_elem_of_singleton. done.
  - intros l'. rewrite elem_of_app, list_elem_of_singleton, Hsel.
    destruct (decide (l' = l)) as [->|Hne].
    + split; [by auto|]. by right.
    + split.
      * intros [[Hl' Hs]|?]; [|done]. split; [done|]. by rewrite Hflag.
      * intros [Hl' Hs]. left. split; [done|]. by rewrite <- Hflag.
Qed.

Lemma reg_ok_deselect U S o o' n j l :
  reg_ok U S o n → S !! j = Some l →
  (∀ l', l' ∈ U → id (o' l') = id (o l')) →
  selected (o' l) = false →
  (∀ l', l' ∈ U → l' ≠ l → selected (o' l') = selected (o l')) →
  reg_ok U (delete j S) o' n.
Proof.
  intros (Hids & Hlt & HS & Hsel) Hj Hid Hoff Hflag. split_and!.
  - by rewrite (ids_fmap_ext U o o').
  - intros l' Hl'. rewrite Hid; auto.
  - eapply sublist_NoDup; [exact HS|apply sublist_delete].
  - intros l'. rewrite (elem_of_delete_NoDup S j l l' HS Hj), Hsel.
    destruct (decide (l' = l)) as [->|Hne].
    + split; [by intros [_ ?]|]. intros [_ Hs]. congruence.
    + split.
      * intros [[Hl' Hs] _]. split; [done|]. by rewrite Hflag.
      * intros [Hl' Hs]. split; [|done]. split; [done|].
        by rewrite <- Hflag.
Qed.

Lemma reg_ok_remove U S o n i l :
  reg_ok U S o n → U !! i = Some l → l ∉ S →
  reg_ok (delete i U) S o n.
Proof.
  intros Hok Hi HlS. pose proof (reg_ok_NoDup_units _ _ _ _ Hok) as HU.
  destruct Hok as (Hids & Hlt & HS & Hsel). split_and!.
  - rewrite list_fmap_delete.
    eapply sublist_NoDup; [exact Hids|apply sublist_delete].
  - intros l' Hl'. apply Hlt. by eapply list_elem_of_delete_inv.
  - done.
  - intros l'. rewrite (elem_of_delete_NoDup U i l l' HU Hi), Hsel.
    split; [|by intros [[? ?] ?]].
    intros [Hl' Hs]. split_and!; try done. intros ->.
    apply HlS. by apply Hsel.
Qed.

Lemma reg_ok_deselectAll U S o o' n :
  reg_ok U S o n →
  (∀ l, l ∈ U → id (o' l) = id (o l)) →
  (∀ l, l ∈ S → selected (o' l) = false) →
  (∀ l, l ∈ U → l ∉ S → selected (o' l) = selected (o l)) →
  reg_ok U [] o' n.
Proof.
  intros (Hids & Hlt & HS & Hsel) Hid Hoff Hflag. split_and!.
  - by rewrite (ids_fmap_ext U o o').
  - intros l Hl. rewrite Hid; auto.
  - apply NoDup_nil_2.
  - intros l. split; [by intros ?%elem_of_nil|].
    intros [Hl Hs]. destruct (decide (l ∈ S)) as [HlS|HlS].
    + rewrite Hoff in Hs; done.
    + rewrite Hflag in Hs by done. exfalso. apply HlS. by apply Hsel.
Qed.

Lemma reg_ok_create U S o o' n l :
  reg_ok U S o n → l ∉ U → id (o' l) = n → selected (o' l) = false →
  (∀ l', l' ∈ U → o' l' = o l') →
  reg_ok (U ++ [l]) S o' (n + 1).
Proof.
  intros (Hids & Hlt & HS & Hsel) HlU Hnew Hoff Hold. split_and!.
  - rewrite fmap_app. apply NoDup_app. split_and!.
    + rewrite (ids_fmap_ext U o o'); [done|]. intros l' Hl'.
      by rewrite Hold.
    + intros i Hi Hi'. cbn in Hi'. apply list_elem_of_singleton in Hi'.
      apply list_elem_of_fmap in Hi as (l' & -> & Hl').
      rewrite Hold, Hnew in Hi' by done. specialize (Hlt l' Hl'). lia.
    + apply NoDup_singleton.
  - intros l' [Hl'| ->%list_elem_of_singleton]%elem_of_app.
    + rewrite Hold by done. specialize (Hlt l' Hl'). lia.
    + lia.
  - done.
  - intros l'. rewrite Hsel, elem_of_app, list_elem_of_singleton. split.
    + intros [Hl' Hs]. split; [by left|]. by rewrite Hold.
    + intros [[Hl'| ->] Hs]; [|congruence].
      split; [done|]. by rewrite <- Hold.
Qed.

Lemma reg_ok_clear o n : reg_ok [] [] o n.
Proof.
  split_and!; try apply NoDup_nil_2.
  - by intros l ?%elem_of_nil.
  - intros l. split; [by intros ?%elem_of_nil|].
    by intros [?%elem_of_nil _].
Qed.

Lemma reg_ok_counter U S o n n' :
  reg_ok U S o n → n <= n' → reg_ok U S o n'.
Proof.
  intros (Hids & Hlt & HS & Hsel) Hle. split_and!; try done.
  intros l Hl. specialize (Hlt l Hl). lia.
Qed.

(** Looking an id of the registry up in the selection finds the unit
    that carries it, or nothing when that unit is not selected. *)
Lemma reg_ok_find_selected U S o n l :
  reg_ok U S o n → l ∈ U →
  match list_find (λ l', id (o l') = id (o l)) S with
  | Some (j, l') => l' = l ∧ S !! j = Some l
  | None => l ∉ S
  end.
Proof.
  intros Hok Hl. destruct (list_find _ S) as [[j l']|] eqn:Hfind.
  - apply list_find_Some in Hfind as (Hj & Heq & _).
    assert (l' = l) as ->; [|done].
    eapply reg_ok_ids_inj; [exact Hok| |done|done].
    destruct Hok as (_ & _ & _ & Hsel).
    apply Hsel. by eapply list_elem_of_lookup_2.
  - apply list_find_None in Hfind. intros HlS.
    rewrite Forall_forall in Hfind. by apply (Hfind l HlS).
Qed.

End reg_ok.

(** Every stored unit keeps its health. *)
Lemma health_ok_ext (U U' : list nat) (o o' : nat → Unit) :
  health_ok U o →
  (∀ l, l ∈ U' → l ∈ U ∧ health (o' l) = health (o l)
                 ∧ maxHealth (o' l) = maxHealth (o l)) →
  health_ok U' o'.
Proof.
  intros Hok Hsame l Hl. destruct (Hsame l Hl) as (HlU & -> & ->).
  by apply Hok.
Qed.

(** ** What each call of the registry does to it *)

Lemma find_by_id_Some (s : State) (unitId : Z) (xs : list nat) (i l : nat) :
  find_by_id s unitId xs = Some (i, l) →
  xs !! i = Some l ∧ l ∈ xs ∧ id (obj s l) = unitId.
Proof.
  intros (Hi & Hid & _)%list_find_Some. split_and!; [done| |done].
  by eapply list_elem_of_lookup_2.
Qed.

Lemma find_by_id_None (s : State) (unitId : Z) (xs : list nat) (l : nat) :
  find_by_id s unitId xs = None → l ∈ xs → id (obj s l) ≠ unitId.
Proof.
  intros Hnone%list_find_None Hl. rewrite Forall_forall in Hnone.
  by apply Hnone.
Qed.

Lemma effect_refl (s : State) :
  wf_refs s → effect s s (units s) (selectedUnits s) (obj s).
Proof. intros Hwf. by split_and!. Qed.

Lemma dom_objs_write_obj_subseteq (s : State) (l : nat) (u : Unit) :
  dom (objs s) ⊆ dom (objs (write_obj l u s)).
Proof. rewrite dom_objs_write_obj. apply union_subseteq_r. Qed.

(** Writing one unit object, and nothing else. *)
Lemma effect_write_obj (s : State) (l : nat) (u : Unit) :
  wf_refs s →
  effect s (write_obj l u s) (units s) (selectedUnits s)
         (with_obj (obj s) l u).
Proof.
  intros Hwf. split_and!; try done.
  - intros l'. apply obj_write_obj.
  - apply dom_objs_write_obj_subseteq.
Qed.

Lemma effect_emit (s s' : State) (U S : list nat) (o : nat → Unit)
    (e : Event) :
  effect s s' U S o → effect s (emit e s') U S o.
Proof. done. Qed.

Lemma deselectUnit_found (s : State) (unitId : Z) (j l : nat) :
  wf_refs s →
  find_by_id s unitId (selectedUnits s) = Some (j, l) →
  effect s (UnitManager.deselectUnit unitId s) (units s)
         (delete j (selectedUnits s))
         (with_obj (obj s) l (set_selected false (obj s l)))
  ∧ bus (UnitManager.deselectUnit unitId s) = bus s ++ [unit_deselected l].
Proof.
  intros Hwf Hfind. unfold UnitManager.deselectUnit. rewrite Hfind.
  set (s1 := write_obj l (set_selected false (obj s l)) s).
  assert (Hwf1 : wf_refs s1) by done.
  split; [|done]. apply effect_emit. split_and!; try done.
  - by apply wf_refs_write_arr.
  - by rewrite units_write_selectedUnits.
  - by rewrite selectedUnits_write_selectedUnits.
  - intros l'. rewrite obj_write_arr. apply obj_write_obj.
  - apply dom_objs_write_obj_subseteq.
Qed.

Lemma deselectUnit_not_found (s : State) (unitId : Z) :
  find_by_id s unitId (selectedUnits s) = None →
  UnitManager.deselectUnit unitId s = s.
Proof. intros Hfind. unfold UnitManager.deselectUnit. by rewrite Hfind. Qed.

Lemma selectUnit_found (s : State) (unitId : Z) (i l : nat) :
  wf_refs s →
  find_by_id s unitId (units s) = Some (i, l) →
  selected (obj s l) = false →
  effect s (UnitManager.selectUnit unitId s) (units s)
         (selectedUnits s ++ [l])
         (with_obj (obj s) l (set_selected true (obj s l)))
  ∧ bus (UnitManager.selectUnit unitId s) = bus s ++ [unit_selected l].
Proof.
  intros Hwf Hfind Hoff. unfold UnitManager.selectUnit.
  rewrite Hfind, Hoff.
  set (s1 := write_obj l (set_selected true (obj s l)) s).
  assert (Hwf1 : wf_refs s1) by done.
  split; [|done]. apply effect_emit. split_and!; try done.
  - by apply wf_refs_write_arr.
  - by rewrite units_write_selectedUnits.
  - by rewrite selectedUnits_write_selectedUnits.
  - intros l'. rewrite obj_write_arr. apply obj_write_obj.
  - apply dom_objs_write_obj_subseteq.
Qed.

(** Selecting what is selected, or what is not there, does nothing at
    all: no entry, no event. *)
Lemma selectUnit_noop (s : State) (unitId : Z) :
  (∀ i l, find_by_id s unitId (units s) = Some (i, l) →
          selected (obj s l) = true) →
  UnitManager.selectUnit unitId s = s.
Proof.
  intros Hsel. unfold UnitManager.selectUnit.
  destruct (find_by_id s unitId (units s)) as [[i l]|]; [|done].
  by rewrite (Hsel i l).
Qed.

Lemma removeUnit_not_found (s : State) (unitId : Z) :
  find_by_id s unitId (units s) = None →
  UnitManager.removeUnit unitId s = s.
Proof. intros Hfind. unfold UnitManager.removeUnit. by rewrite Hfind. Qed.

(** Removing a stored unit: it leaves the unit list, and the selection
    too when it was selected; its flag is then cleared. *)
Lemma removeUnit_found (s : State) (unitId : Z) (i l : nat) :
  Inv s →
  find_by_id s unitId (units s) = Some (i, l) →
  ((l ∉ selectedUnits s)
   ∧ effect s (UnitManager.removeUnit unitId s) (delete i (units s))
            (selectedUnits s) (obj s)
   ∧ bus (UnitManager.removeUnit unitId s) = bus s ++ [unit_removed l])
  ∨ (∃ j, selectedUnits s !! j = Some l
      ∧ effect s (UnitManager.removeUnit unitId s) (delete i (units s))
               (delete j (selectedUnits s))
               (with_obj (obj s) l (set_selected false (obj s l)))
      ∧ bus (UnitManager.removeUnit unitId s)
        = bus s ++ [unit_deselected l; unit_removed l]).
Proof.
  intros (Hwf & Hdom & Hok) Hfind. unfold UnitManager.removeUnit.
  rewrite Hfind. apply find_by_id_Some in Hfind as (Hi & Hl & Hid).
  set (s1 := write_arr (units_ref s) (delete i (units s)) s).
  assert (Hwf1 : wf_refs s1) by (by apply wf_refs_write_arr).
  assert (Hu1 : units s1 = delete i (units s))
    by apply units_write_units.
  assert (Hs1 : selectedUnits s1 = selectedUnits s)
    by (by apply selectedUnits_write_units).
  pose proof (reg_ok_find_selected _ _ _ _ l Hok Hl) as Hsel.
  rewrite Hid in Hsel.
  destruct (list_find _ (selectedUnits s)) as [[j l']|] eqn:Hfind'.
  - destruct Hsel as [-> Hj]. right. exists j. split; [done|].
    assert (Hfind1 : find_by_id s1 unitId (selectedUnits s1) = Some (j, l)).
    { rewrite Hs1. exact Hfind'. }
    destruct (deselectUnit_found s1 unitId j l Hwf1 Hfind1)
      as ((Hwf2 & Hu2 & Hs2 & Ho2 & Hd2 & Hn2 & Hc2) & Hbus).
    split.
    + apply effect_emit. split_and!; try done.
      * by rewrite Hu2.
      * by rewrite Hs2, Hs1.
    + cbn. rewrite Hbus. cbn. by rewrite <- app_assoc.
  - left. split; [done|].
    assert (Hfind1 : find_by_id s1 unitId (selectedUnits s1) = None).
    { rewrite Hs1. exact Hfind'. }
    rewrite (deselectUnit_not_found s1 unitId Hfind1).
    split; [|done]. apply effect_emit. by split_and!.
Qed.

(** ** The invariant is kept *)

Lemma with_obj_eq (o : nat → Unit) (l : nat) (u : Unit) :
  with_obj o l u l = u.
Proof. unfold with_obj. by rewrite decide_True. Qed.

Lemma with_obj_ne (o : nat → Unit) (l l' : nat) (u : Unit) :
  l ≠ l' → with_obj o l u l' = o l'.
Proof. intros Hne. unfold with_obj. by rewrite decide_False. Qed.

Lemma reg_ok_proper (U S : list nat) (o o' : nat → Unit) (n : Z) :
  (∀ l, o' l = o l) → reg_ok U S o n → reg_ok U S o' n.
Proof.
  intros Heq Hok. eapply reg_ok_ext; [exact Hok|..];
    intros l _; by rewrite Heq.
Qed.

(** A call that adds no unit keeps the invariant when it leaves the
    two lists and the objects in order. *)
Lemma Inv_effect (s s' : State) (U S : list nat) (o : nat → Unit) :
  Inv s → effect s s' U S o →
  (∀ l, l ∈ U → l ∈ units s) →
  reg_ok U S o (nextUnitId s) →
  Inv s'.
Proof.
  intros (Hwf & Hdom & Hok) (Hwf' & HU & HS & Ho & Hsub & Hn & _) Hin Hok'.
  split_and!; [done|..].
  - rewrite HU. intros l Hl. apply Hsub, Hdom. by apply Hin.
  - rewrite HU, HS, Hn. by apply (reg_ok_proper U S o).
Qed.

Lemma Inv_emit (s : State) (e : Event) : Inv s → Inv (emit e s).
Proof. done. Qed.

Lemma Inv_deselectUnit (s : State) (unitId : Z) :
  Inv s → Inv (UnitManager.deselectUnit unitId s).
Proof.
  intros HI.
  destruct (find_by_id s unitId (selectedUnits s)) as [[j l]|] eqn:Hfind.
  - pose proof HI as (Hwf & _ & Hok).
    destruct (deselectUnit_found s unitId j l Hwf Hfind) as [Heff _].
    eapply Inv_effect; [done|exact Heff|done|].
    apply find_by_id_Some in Hfind as (Hj & _ & _).
    eapply reg_ok_deselect; [exact Hok|exact Hj|..].
    + intros l' _. unfold with_obj. by case_decide; subst.
    + by rewrite with_obj_eq.
    + intros l' _ Hne. by rewrite with_obj_ne.
  - by rewrite deselectUnit_not_found.
Qed.

Lemma Inv_selectUnit (s : State) (unitId : Z) :
  Inv s → Inv (UnitManager.selectUnit unitId s).
Proof.
  intros HI.
  destruct (find_by_id s unitId (units s)) as [[i l]|] eqn:Hfind.
  - destruct (selected (obj s l)) eqn:Hsel.
    + rewrite selectUnit_noop; [done|]. intros i' l' Hfind'. congruence.
    + pose proof HI as (Hwf & _ & Hok).
      destruct (selectUnit_found s unitId i l Hwf Hfind Hsel) as [Heff _].
      eapply Inv_effect; [done|exact Heff|done|].
      apply find_by_id_Some in Hfind as (_ & Hl & _).
      eapply reg_ok_select; [exact Hok|exact Hl|exact Hsel|..].
      * intros l' _. unfold with_obj. by case_decide; subst.
      * by rewrite with_obj_eq.
      * intros l' _ Hne. by rewrite with_obj_ne.
  - rewrite selectUnit_noop; [done|]. intros i' l' Hfind'. congruence.
Qed.

Lemma Inv_removeUnit (s : State) (unitId : Z) :
  Inv s → Inv (UnitManager.removeUnit unitId s).
Proof.
  intros HI.
  destruct (find_by_id s unitId (units s)) as [[i l]|] eqn:Hfind.
  - pose proof HI as (Hwf & _ & Hok).
    pose proof (find_by_id_Some _ _ _ _ _ Hfind) as (Hi & Hl & _).
    destruct (removeUnit_found s unitId i l HI Hfind)
      as [(HlS & Heff & _)|(j & Hj & Heff & _)].
    + eapply Inv_effect; [done|exact Heff|..].
      * intros l'. apply list_elem_of_delete_inv.
      * by eapply reg_ok_remove.
    + eapply Inv_effect; [done|exact Heff|..].
      * intros l'. apply list_elem_of_delete_inv.
      * assert (Hok' : reg_ok (units s) (delete j (selectedUnits s))
                  (with_obj (obj s) l (set_selected false (obj s l)))
                  (nextUnitId s)).
        { eapply reg_ok_deselect; [exact Hok|exact Hj|..].
          - intros l' _. unfold with_obj. by case_decide; subst.
          - by rewrite with_obj_eq.
          - intros l' _ Hne. by rewrite with_obj_ne. }
        eapply reg_ok_remove; [exact Hok'|exact Hi|].
        destruct Hok' as (_ & _ & _ & Hsel). intros [_ Hon]%Hsel.
        by rewrite with_obj_eq in Hon.
  - by rewrite removeUnit_not_found.
Qed.

(** Writes to one stored unit that keep its id and its flag. *)
Lemma Inv_write_obj (s : State) (l : nat) (u : Unit) :
  Inv s → id u = id (obj s l) → selected u = selected (obj s l) →
  Inv (write_obj l u s).
Proof.
  intros HI Hid Hflag. pose proof HI as (Hwf & _ & Hok).
  eapply Inv_effect; [done|by apply effect_write_obj|done|].
  eapply reg_ok_ext; [exact Hok|..]; intros l' _; unfold with_obj;
    by case_decide; subst.
Qed.

Lemma Inv_moveUnit (s : State) (unitId : Z) (pos : Position) :
  Inv s → Inv (UnitManager.moveUnit unitId pos s).
Proof.
  intros HI. unfold UnitManager.moveUnit.
  destruct (find_by_id s unitId (units s)) as [[i l]|]; [|done].
  apply Inv_emit. by apply Inv_write_obj.
Qed.

Lemma Inv_healUnit (s : State) (unitId amount : Z) :
  Inv s → Inv (UnitManager.healUnit unitId amount s).
Proof.
  intros HI. unfold UnitManager.healUnit.
  destruct (find_by_id s unitId (units s)) as [[i l]|]; [|done].
  case_match; [apply Inv_emit|]; by apply Inv_write_obj.
Qed.

Lemma Inv_damageUnit (s : State) (unitId amount : Z) :
  Inv s → Inv (UnitManager.damageUnit unitId amount s).2.
Proof.
  intros HI. unfold UnitManager.damageUnit.
  destruct (find_by_id s unitId (units s)) as [[i l]|]; [|done].
  case_match; cbn [snd].
  - apply Inv_removeUnit, Inv_emit. by apply Inv_write_obj.
  - apply Inv_emit. by apply Inv_write_obj.
Qed.

(** The loop of deselectAll clears the flag of the listed units and
    touches nothing else. *)
Lemma clear_flags_frame (xs : list nat) (s : State) :
  arrs (UnitManager.clear_flags s xs) = arrs s
  ∧ units_ref (UnitManager.clear_flags s xs) = units_ref s
  ∧ selectedUnits_ref (UnitManager.clear_flags s xs) = selectedUnits_ref s
  ∧ nextUnitId (UnitManager.clear_flags s xs) = nextUnitId s
  ∧ combatCooldowns (UnitManager.clear_flags s xs) = combatCooldowns s
  ∧ bus (UnitManager.clear_flags s xs) = bus s
  ∧ dom (objs s) ⊆ dom (objs (UnitManager.clear_flags s xs)).
Proof.
  revert s. induction xs as [|l xs IH]; intros s; [done|].
  cbn [UnitManager.clear_flags foldl]. fold (UnitManager.clear_flags
    (write_obj l (set_selected false (obj s l)) s) xs).
  destruct (IH (write_obj l (set_selected false (obj s l)) s))
    as (-> & -> & -> & -> & -> & -> & Hsub).
  split_and!; try done.
  etrans; [apply dom_objs_write_obj_subseteq|exact Hsub].
Qed.

Lemma clear_flags_obj (xs : list nat) (s : State) (l : nat) :
  obj (UnitManager.clear_flags s xs) l
  = if decide (l ∈ xs) then set_selected false (obj s l) else obj s l.
Proof.
  revert s. induction xs as [|l' xs IH]; intros s.
  - cbn. by rewrite decide_False by apply not_elem_of_nil.
  - cbn [UnitManager.clear_flags foldl]. fold (UnitManager.clear_flags
      (write_obj l' (set_selected false (obj s l')) s) xs).
    rewrite IH, obj_write_obj.
    destruct (decide (l' = l)) as [->|Hne].
    + rewrite (decide_True (P := l ∈ l :: xs)) by apply list_elem_of_here.
      by case_decide.
    + destruct (decide (l ∈ xs)) as [Hin|Hout].
      * by rewrite decide_True by (by apply list_elem_of_further).
      * rewrite decide_False; [done|].
        intros [?|?]%elem_of_cons; by subst.
Qed.

Lemma deselectAll_effect (s : State) :
  wf_refs s →
  effect s (UnitManager.deselectAll s) (units s) []
         (λ l, if decide (l ∈ selectedUnits s)
               then set_selected false (obj s l) else obj s l).
Proof.
  intros Hwf. unfold UnitManager.deselectAll.
  set (s1 := UnitManager.clear_flags s (selectedUnits s)).
  destruct (clear_flags_frame (selectedUnits s) s)
    as (Harr & Hur & Hsr & Hn & Hc & _ & Hsub). fold s1 in Harr, Hur, Hsr,
    Hn, Hc, Hsub.
  assert (Hwf1 : wf_refs s1).
  { unfold wf_refs. by rewrite Harr, Hur, Hsr. }
  assert (Hu1 : units s1 = units s).
  { unfold units, arr. by rewrite Harr, Hur. }
  destruct (alloc_arr_frame (selectedUnits s1) s1 Hwf1)
    as (Hwf2 & Hu2 & _ & Ho2).
  destruct (alloc_arr_spec (selectedUnits s1) s1)
    as (_ & _ & _ & _ & Hobjs2 & _ & _ & Hn2 & Hc2 & _).
  destruct (alloc_arr (selectedUnits s1) s1) as [prev s2].
  cbn [fst snd] in *.
  destruct (alloc_arr_frame [] s2 Hwf2) as (Hwf3 & Hu3 & _ & Ho3).
  destruct (alloc_arr_spec [] s2)
    as (Hf3 & Hr3 & _ & Hd3 & Hobjs3 & Hur3 & _ & Hn3 & Hc3 & _).
  destruct (alloc_arr [] s2) as [empty s3]. cbn [fst snd] in *.
  set (s4 := set_selectedUnits_ref empty s3).
  assert (Heff : effect s s4 (units s) []
            (λ l, if decide (l ∈ selectedUnits s)
                  then set_selected false (obj s l) else obj s l)).
  { split_and!.
    - destruct Hwf3 as (Hne3 & Hin3 & _). split_and!; cbn.
      + intros Heq. rewrite <- Heq, Hur3 in Hf3.
        destruct Hwf2 as (_ & Hin2 & _). done.
      + done.
      + rewrite Hd3. apply elem_of_union_l. by apply elem_of_singleton.
    - change (units s4) with (units s3). by rewrite Hu3, Hu2, Hu1.
    - exact Hr3.
    - intros l. change (obj s4 l) with (obj s3 l).
      rewrite Ho3, Ho2. apply clear_flags_obj.
    - change (objs s4) with (objs s3). by rewrite Hobjs3, Hobjs2.
    - change (nextUnitId s4) with (nextUnitId s3). by rewrite Hn3, Hn2.
    - change (combatCooldowns s4) with (combatCooldowns s3).
      by rewrite Hc3, Hc2. }
  by case_match.
Qed.

Lemma Inv_deselectAll (s : State) : Inv s → Inv (UnitManager.deselectAll s).
Proof.
  intros HI. pose proof HI as (Hwf & _ & Hok).
  eapply Inv_effect; [done|by apply deselectAll_effect|done|].
  eapply reg_ok_deselectAll; [exact Hok|..].
  - intros l _. by case_decide.
  - intros l Hl. by rewrite decide_True.
  - intros l _ Hl. by rewrite decide_False.
Qed.

Lemma Inv_selectUnits (s : State) (unitIds : list Z) :
  Inv s → Inv (UnitManager.selectUnits unitIds s).
Proof.
  intros HI%Inv_deselectAll. unfold UnitManager.selectUnits.
  revert HI. generalize (UnitManager.deselectAll s). clear s.
  induction unitIds as [|unitId unitIds IH]; intros s HI.
  - cbn. by case_match.
  - cbn [foldl]. apply IH. by apply Inv_selectUnit.
Qed.

Lemma Inv_alloc_arr (s : State) (xs : list nat) :
  Inv s → Inv (alloc_arr xs s).2.
Proof.
  intros (Hwf & Hdom & Hok).
  destruct (alloc_arr_frame xs s Hwf) as (Hwf' & HU & HS & Ho).
  destruct (alloc_arr_spec xs s)
    as (_ & _ & _ & _ & Hobjs & _ & _ & Hn & _).
  split_and!; [done|..].
  - rewrite HU, Hobjs. exact Hdom.
  - rewrite HU, HS, Hn. by apply (reg_ok_proper _ _ (obj s)).
Qed.

(** Two new empty arrays for the two fields: the constructor and
    clear(). *)
Lemma fresh_registry (s : State) :
  let s' := UnitManager.new s in
  wf_refs s' ∧ units s' = [] ∧ selectedUnits s' = []
  ∧ objs s' = objs s ∧ nextUnitId s' = nextUnitId s
  ∧ combatCooldowns s' = combatCooldowns s ∧ bus s' = bus s.
Proof.
  cbn zeta. unfold UnitManager.new.
  destruct (alloc_arr_spec [] s)
    as (Hf1 & Hr1 & _ & Hd1 & Hobjs1 & _ & _ & Hn1 & Hc1 & Hb1).
  destruct (alloc_arr [] s) as [u s1]. cbn [fst snd] in *.
  set (s1' := set_units_ref u s1).
  destruct (alloc_arr_spec [] s1')
    as (Hf2 & Hr2 & Ho2 & Hd2 & Hobjs2 & Hur2 & _ & Hn2 & Hc2 & Hb2).
  destruct (alloc_arr [] s1') as [v s2]. cbn [fst snd] in *.
  assert (Hu : u ∈ dom (arrs s1')).
  { change (arrs s1') with (arrs s1). rewrite Hd1.
    apply elem_of_union_l. by apply elem_of_singleton. }
  split_and!.
  - split_and!; cbn.
    + rewrite Hur2. cbn. intros <-. done.
    + rewrite Hur2, Hd2. cbn. by apply elem_of_union_r.
    + rewrite Hd2. apply elem_of_union_l. by apply elem_of_singleton.
  - unfold units. cbn. rewrite Hur2. cbn.
    change (arr s2 u = []). rewrite Ho2 by done. exact Hr1.
  - exact Hr2.
  - cbn. by rewrite Hobjs2.
  - cbn. by rewrite Hn2.
  - cbn. by rewrite Hc2.
  - cbn. by rewrite Hb2.
Qed.

Lemma Inv_new (s : State) : Inv (UnitManager.new s).
Proof.
  destruct (fresh_registry s) as (Hwf & HU & HS & _).
  split_and!; [done|..].
  - rewrite HU. by intros l ?%elem_of_nil.
  - rewrite HU, HS. apply reg_ok_clear.
Qed.

Lemma clear_is_new (s : State) :
  UnitManager.clear s = emit units_cleared (UnitManager.new s).
Proof.
  unfold UnitManager.clear, UnitManager.new.
  destruct (alloc_arr [] s) as [u s1].
  by destruct (alloc_arr [] (set_units_ref u s1)) as [v s2].
Qed.

Lemma Inv_clear (s : State) : Inv (UnitManager.clear s).
Proof. rewrite clear_is_new. apply Inv_emit, Inv_new. Qed.

Lemma Inv_createUnit (s : State) (t : string) (pos : Position)
    (f : Faction) :
  Inv s → Inv (run (op_createUnit t pos f) s).
Proof.
  intros HI. pose proof HI as (Hwf & Hdom & Hok). cbn [run].
  assert (Hu : UNIT_TYPES_get t = Undefined ∨ UNIT_TYPES_get t ≠ Undefined)
    by (destruct (UNIT_TYPES_get t); auto).
  destruct Hu as [Hu|Hu]; [by rewrite createUnit_undefined|].
  destruct (createUnit_return t pos f s Hu)
    as (l & s1 & -> & Hfresh & Hobj & Hold & Hd & Harr & Hur & Hsr & Hn & _).
  destruct Hwf as (Hne & Hin & Hin').
  assert (HU : units s1 = units s ++ [l]).
  { unfold units, arr. rewrite Harr, Hur. apply lookup_total_insert_eq. }
  assert (HS : selectedUnits s1 = selectedUnits s).
  { unfold selectedUnits, arr. rewrite Harr, Hsr.
    by apply lookup_total_insert_ne. }
  assert (HlU : l ∉ units s) by (intros Hl; by apply Hfresh, Hdom).
  split_and!.
  - unfold wf_refs. rewrite Hur, Hsr, Harr, dom_insert_L.
    split_and!; [done|..]; by apply elem_of_union_r.
  - rewrite HU, Hd. intros l' [Hl'| ->%list_elem_of_singleton]%elem_of_app.
    + by apply elem_of_union_r, Hdom.
    + apply elem_of_union_l. by apply elem_of_singleton.
  - rewrite HU, HS, Hn. eapply reg_ok_create; [exact Hok|done|..].
    + by rewrite Hobj.
    + by rewrite Hobj.
    + intros l' Hl'. apply Hold. by intros ->.
Qed.

(** Every call keeps the invariant, whatever its arguments. *)
Lemma Inv_run (o : Op) (s : State) :
  factory_call o → Inv s → Inv (run o s).
Proof.
  intros Hcall HI. destruct o; cbn [run].
  - by apply Inv_alloc_arr.
  - by apply Inv_alloc_arr.
  - by apply Inv_alloc_arr.
  - destruct Hcall.
  - by apply Inv_createUnit.
  - by apply Inv_removeUnit.
  - by apply Inv_selectUnit.
  - by apply Inv_deselectUnit.
  - by apply Inv_selectUnits.
  - by apply Inv_deselectAll.
  - by apply Inv_moveUnit.
  - by apply Inv_damageUnit.
  - by apply Inv_healUnit.
  - apply Inv_clear.
Qed.

Lemma reachable_Inv (s : State) : reachable factory_call s → Inv s.
Proof.
  induction 1 as [s0|o s _ IH Hcall]; [apply Inv_new|by apply Inv_run].
Qed.

Lemma reachable_weaken (allowed allowed' : Op → Prop) (s : State) :
  (∀ o, allowed o → allowed' o) →
  reachable allowed s → reachable allowed' s.
Proof.
  intros Hsub. induction 1 as [s0|o s _ IH Hcall].
  - apply reachable_new.
  - apply reachable_run; [done|by apply Hsub].
Qed.

Lemma plain_factory (o : Op) : plain_call o → factory_call o.
Proof. by destruct o. Qed.
(** ** The selection *)

Lemma find_by_id_stored (s : State) (l : nat) :
  Inv s → l ∈ units s →
  ∃ i, find_by_id s (id (obj s l)) (units s) = Some (i, l)
       ∧ units s !! i = Some l.
Proof.
  intros (_ & _ & Hok) Hl.
  destruct (find_by_id s (id (obj s l)) (units s)) as [[i l']|] eqn:Hfind.
  - pose proof (find_by_id_Some _ _ _ _ _ Hfind) as (Hi & Hl' & Hid).
    assert (l' = l) as -> by (by eapply reg_ok_ids_inj).
    by exists i.
  - by destruct (find_by_id_None s _ _ l Hfind Hl).
Qed.

Lemma deselectUnit_selected (s : State) (l : nat) :
  Inv s → l ∈ selectedUnits s →
  let s' := UnitManager.deselectUnit (id (obj s l)) s in
  selected (obj s' l) = false ∧ (l ∉ selectedUnits s')
  ∧ units s' = units s.
Proof.
  intros (Hwf & _ & Hok) HlS. cbn zeta.
  assert (Hl : l ∈ units s) by (by apply Hok in HlS as [? _]).
  pose proof (reg_ok_find_selected _ _ _ _ l Hok Hl) as Hfind.
  destruct (list_find _ (selectedUnits s)) as [[j l']|] eqn:Hfind';
    [|done].
  destruct Hfind as [-> Hj].
  destruct (deselectUnit_found s (id (obj s l)) j l Hwf Hfind')
    as ((_ & HU & HS & Ho & _) & _).
  rewrite Ho, HS, HU, with_obj_eq. split_and!; try done.
  destruct Hok as (_ & _ & Hnd & _).
  rewrite (elem_of_delete_NoDup _ j l l Hnd Hj). by intros [_ ?].
Qed.

Lemma removeUnit_stored (s : State) (l : nat) :
  Inv s → l ∈ units s →
  let s' := UnitManager.removeUnit (id (obj s l)) s in
  (l ∉ units s') ∧ (l ∉ selectedUnits s')
  ∧ (∀ l', l' ≠ l → (l' ∈ units s' ↔ l' ∈ units s)
                    ∧ (l' ∈ selectedUnits s' ↔ l' ∈ selectedUnits s)
                    ∧ obj s' l' = obj s l').
Proof.
  intros HI Hl. cbn zeta.
  destruct (find_by_id_stored s l HI Hl) as (i & Hfind & Hi).
  pose proof HI as (_ & _ & Hok).
  pose proof (reg_ok_NoDup_units _ _ _ _ Hok) as HndU.
  destruct Hok as (_ & _ & HndS & _).
  destruct (removeUnit_found s _ i l HI Hfind)
    as [(HlS & (_ & HU & HS & Ho & _) & _)
       |(j & Hj & (_ & HU & HS & Ho & _) & _)].
  - rewrite HU, HS. split_and!; [|done|].
    + rewrite (elem_of_delete_NoDup _ i l l HndU Hi). by intros [_ ?].
    + intros l' Hne. rewrite Ho.
      rewrite (elem_of_delete_NoDup _ i l l' HndU Hi). by intuition.
  - rewrite HU, HS. split_and!.
    + rewrite (elem_of_delete_NoDup _ i l l HndU Hi). by intros [_ ?].
    + rewrite (elem_of_delete_NoDup _ j l l HndS Hj). by intros [_ ?].
    + intros l' Hne. rewrite Ho, with_obj_ne by done.
      rewrite (elem_of_delete_NoDup _ i l l' HndU Hi).
      rewrite (elem_of_delete_NoDup _ j l l' HndS Hj). by intuition.
Qed.

(** C10 (as amended): in every state a registry reaches through its
    calls, a direct addUnit apart, the selection has no duplicates
    and holds exactly the stored units whose flag is set.  Selecting
    a selected unit changes nothing (no second entry, no event);
    deselecting a selected unit clears its flag and takes it out of
    the selection; removing a stored unit takes it out of the unit
    list and out of the selection. *)
Theorem selection_invariant (s : State) :
  reachable factory_call s →
  NoDup (selectedUnits s)
  ∧ (∀ l, l ∈ selectedUnits s ↔ l ∈ units s ∧ selected (obj s l) = true)
  ∧ (∀ unitId i l,
       find_by_id s unitId (units s) = Some (i, l) →
       selected (obj s l) = true →
       UnitManager.selectUnit unitId s = s)
  ∧ (∀ l, l ∈ selectedUnits s →
       let s' := UnitManager.deselectUnit (id (obj s l)) s in
       selected (obj s' l) = false ∧ (l ∉ selectedUnits s')
       ∧ units s' = units s)
  ∧ (∀ l, l ∈ units s →
       let s' := UnitManager.removeUnit (id (obj s l)) s in
       (l ∉ units s') ∧ (l ∉ selectedUnits s')).
Proof.
  intros HI%reachable_Inv. pose proof HI as (_ & _ & _ & _ & Hnd & Hsel).
  split_and!; [done|done|..].
  - intros unitId i l Hfind Hon. apply selectUnit_noop.
    intros i' l' Hfind'. congruence.
  - intros l Hl. by apply deselectUnit_selected.
  - intros l Hl. destruct (removeUnit_stored s l HI Hl) as (? & ? & _).
    done.
Qed.

Lemma duel_reachable (allowed : Op → Prop) :
  allowed (op_createUnit "archer" (at_xy 0 0) player) →
  allowed (op_createUnit "infantry-medium" (at_xy 100 0) enemy) →
  reachable allowed duel.
Proof.
  intros H1 H2. unfold duel.
  apply reachable_run; [|done]. apply reachable_run; [|done].
  apply reachable_new.
Defined.

Lemma selection_invariant_witness :
  NoDup (selectedUnits duel_selected)
  ∧ (∀ l, l ∈ selectedUnits duel_selected
          ↔ l ∈ units duel_selected
            ∧ selected (obj duel_selected l) = true).
Proof.
  assert (Hreach : reachable factory_call duel_selected).
  { apply reachable_run; [|exact I]. apply duel_reachable; exact I. }
  destruct (selection_invariant duel_selected Hreach) as (H1 & H2 & _).
  exact (conj H1 H2).
Defined.

(** C10 (counterexample): the archer is created and selected, the
    registry is cleared, and the archer is added again with addUnit.
    All four are calls of the registry.  The archer is then stored
    with its flag set and is not in the selection, and selectUnit
    does nothing for it. *)
Lemma selection_invariant_addUnit :
  reachable any_call archer_readded
  ∧ the_archer ∈ units archer_readded
  ∧ selected (obj archer_readded the_archer) = true
  ∧ selectedUnits archer_readded = []
  ∧ UnitManager.selectUnit 0 archer_readded = archer_readded
  ∧ ¬ (∀ l, l ∈ selectedUnits archer_readded
            ↔ l ∈ units archer_readded
              ∧ selected (obj archer_readded l) = true).
Proof.
  assert (HU : units archer_readded = [the_archer])
    by (vm_compute; reflexivity).
  assert (HS : selectedUnits archer_readded = [])
    by (vm_compute; reflexivity).
  assert (Hon : selected (obj archer_readded the_archer) = true)
    by (vm_compute; reflexivity).
  split_and!.
  - apply reachable_run; [|exact I]. apply reachable_run; [|exact I].
    apply reachable_run; [|exact I]. apply duel_reachable; exact I.
  - rewrite HU. apply list_elem_of_here.
  - exact Hon.
  - exact HS.
  - vm_compute. reflexivity.
  - intros Hall.
    assert (Hin : the_archer ∈ selectedUnits archer_readded).
    { apply Hall. split; [rewrite HU; apply list_elem_of_here|exact Hon]. }
    rewrite HS in Hin. by apply elem_of_nil in Hin.
Qed.

Example duel_selected_selection :
  selectedUnits duel_selected = [the_archer]
  ∧ bus duel_selected = bus duel ++ [unit_selected the_archer]
  ∧ run (op_selectUnit 0) duel_selected = duel_selected.
Proof. vm_compute. done. Qed.
(** ** Health *)

Lemma keeps_health_refl (s : State) : keeps_health s s.
Proof. by split. Qed.

Lemma keeps_health_trans (s1 s2 s3 : State) :
  keeps_health s1 s2 → keeps_health s2 s3 → keeps_health s1 s3.
Proof.
  intros [Hin1 Hh1] [Hin2 Hh2]. split.
  - intros l Hl. by apply Hin1, Hin2.
  - intros l. destruct (Hh1 l) as [<- <-]. apply Hh2.
Qed.

Lemma keeps_health_effect (s s' : State) (U S : list nat) (o : nat → Unit) :
  effect s s' U S o →
  (∀ l, l ∈ U → l ∈ units s) →
  (∀ l, health (o l) = health (obj s l)
        ∧ maxHealth (o l) = maxHealth (obj s l)) →
  keeps_health s s'.
Proof.
  intros (_ & HU & _ & Ho & _) Hin Hh. split.
  - by rewrite HU.
  - intros l. rewrite Ho. apply Hh.
Qed.

Lemma with_obj_flag_health (o : nat → Unit) (l l' : nat) (b : bool) :
  health (with_obj o l (set_selected b (o l)) l') = health (o l')
  ∧ maxHealth (with_obj o l (set_selected b (o l)) l') = maxHealth (o l').
Proof. unfold with_obj. by case_decide; subst. Qed.

Lemma keeps_health_selectUnit (s : State) (unitId : Z) :
  wf_refs s → keeps_health s (UnitManager.selectUnit unitId s).
Proof.
  intros Hwf.
  destruct (find_by_id s unitId (units s)) as [[i l]|] eqn:Hfind.
  - destruct (selected (obj s l)) eqn:Hsel.
    + rewrite selectUnit_noop; [apply keeps_health_refl|].
      intros i' l' Hfind'. congruence.
    + destruct (selectUnit_found s unitId i l Hwf Hfind Hsel) as [Heff _].
      eapply keeps_health_effect; [exact Heff|done|].
      intros l'. apply with_obj_flag_health.
  - rewrite selectUnit_noop; [apply keeps_health_refl|].
    intros i' l' Hfind'. congruence.
Qed.

Lemma keeps_health_deselectUnit (s : State) (unitId : Z) :
  wf_refs s → keeps_health s (UnitManager.deselectUnit unitId s).
Proof.
  intros Hwf.
  destruct (find_by_id s unitId (selectedUnits s)) as [[j l]|] eqn:Hfind.
  - destruct (deselectUnit_found s unitId j l Hwf Hfind) as [Heff _].
    eapply keeps_health_effect; [exact Heff|done|].
    intros l'. apply with_obj_flag_health.
  - rewrite deselectUnit_not_found by done. apply keeps_health_refl.
Qed.

Lemma keeps_health_removeUnit (s : State) (unitId : Z) :
  Inv s → keeps_health s (UnitManager.removeUnit unitId s).
Proof.
  intros HI.
  destruct (find_by_id s unitId (units s)) as [[i l]|] eqn:Hfind.
  - destruct (removeUnit_found s unitId i l HI Hfind)
      as [(_ & Heff & _)|(j & _ & Heff & _)].
    + eapply keeps_health_effect; [exact Heff|..].
      * intros l'. apply list_elem_of_delete_inv.
      * done.
    + eapply keeps_health_effect; [exact Heff|..].
      * intros l'. apply list_elem_of_delete_inv.
      * intros l'. apply with_obj_flag_health.
  - rewrite removeUnit_not_found by done. apply keeps_health_refl.
Qed.

Lemma keeps_health_deselectAll (s : State) :
  wf_refs s → keeps_health s (UnitManager.deselectAll s).
Proof.
  intros Hwf.
  eapply keeps_health_effect; [by apply deselectAll_effect|done|].
  intros l. cbn beta. by case_decide.
Qed.

Lemma keeps_health_selectUnits (s : State) (unitIds : list Z) :
  Inv s → keeps_health s (UnitManager.selectUnits unitIds s).
Proof.
  intros HI. unfold UnitManager.selectUnits.
  eapply keeps_health_trans.
  { apply keeps_health_deselectAll. by destruct HI. }
  apply Inv_deselectAll in HI.
  revert HI. generalize (UnitManager.deselectAll s). clear s.
  induction unitIds as [|unitId unitIds IH]; intros s HI.
  - cbn. case_match; by split.
  - cbn [foldl]. eapply keeps_health_trans.
    + apply keeps_health_selectUnit. by destruct HI.
    + apply IH. by apply Inv_selectUnit.
Qed.

Lemma keeps_health_moveUnit (s : State) (unitId : Z) (pos : Position) :
  keeps_health s (UnitManager.moveUnit unitId pos s).
Proof.
  unfold UnitManager.moveUnit.
  destruct (find_by_id s unitId (units s)) as [[i l]|];
    [|apply keeps_health_refl].
  split; [done|]. intros l'. rewrite obj_emit, obj_write_obj.
  by case_decide; subst.
Qed.

Lemma keeps_health_alloc_arr (s : State) (xs : list nat) :
  wf_refs s → keeps_health s (alloc_arr xs s).2.
Proof.
  intros Hwf. destruct (alloc_arr_frame xs s Hwf) as (_ & HU & _ & Ho).
  split; [by rewrite HU|]. intros l. by rewrite Ho.
Qed.

Lemma health_ok_keeps (s s' : State) :
  health_ok (units s) (obj s) → keeps_health s s' →
  health_ok (units s') (obj s').
Proof.
  intros Hok [Hin Hh]. eapply health_ok_ext; [exact Hok|].
  intros l Hl. split; [by apply Hin|apply Hh].
Qed.

(** The search for an id looks at ids only. *)
Lemma find_by_id_ids (s s' : State) (unitId : Z) (xs : list nat) :
  (∀ l, id (obj s' l) = id (obj s l)) →
  find_by_id s' unitId xs = find_by_id s unitId xs.
Proof.
  intros Hid. unfold find_by_id. apply list_find_ext.
  intros l. by rewrite Hid.
Qed.

Lemma UNIT_TYPES_health_positive (t : string) (stats : UnitStats) :
  UNIT_TYPES !! t = Some stats → 0 < stats_health stats.
Proof.
  assert (Hall : map_Forall (λ _ st, 0 < stats_health st) UNIT_TYPES).
  { apply (bool_decide_unpack _). vm_compute. exact I. }
  intros Ht. by apply Hall in Ht.
Qed.

(** damageUnit on a stored unit of health [h], by any amount. *)
Lemma damageUnit_found (s : State) (unitId amount : Z) (i l : nat) (h : Z) :
  Inv s →
  find_by_id s unitId (units s) = Some (i, l) →
  health (obj s l) = Num h →
  let r := UnitManager.damageUnit unitId amount s in
  health (obj r.2 l) = Num (Z.max 0 (h - amount))
  ∧ maxHealth (obj r.2 l) = maxHealth (obj s l)
  ∧ (∀ l', l' ≠ l → health (obj r.2 l') = health (obj s l')
                    ∧ maxHealth (obj r.2 l') = maxHealth (obj s l'))
  ∧ (∀ l', l' ∈ units r.2 → l' ∈ units s)
  ∧ (h - amount <= 0 → r.1 = true ∧ l ∉ units r.2)
  ∧ (0 < h - amount → r.1 = false ∧ units r.2 = units s).
Proof.
  intros HI Hfind Hh. cbn zeta. unfold UnitManager.damageUnit.
  rewrite Hfind, Hh. cbn [num_sub Math_max].
  set (u := set_health (Num (Z.max 0 (h - amount))) (obj s l)).
  set (s2 := emit (unit_damaged l amount) (write_obj l u s)).
  assert (HI2 : Inv s2) by (by apply Inv_emit, Inv_write_obj).
  assert (Ho2 : ∀ l', obj s2 l' = with_obj (obj s) l u l').
  { intros l'. unfold s2. rewrite obj_emit. apply obj_write_obj. }
  assert (Hl2 : obj s2 l = u) by (by rewrite Ho2, with_obj_eq).
  rewrite Hl2. cbn [health u set_health num_le].
  pose proof (find_by_id_Some _ _ _ _ _ Hfind) as (Hi & Hl & Hid).
  destruct (Z.leb_spec (Z.max 0 (h - amount)) 0) as [Hle|Hgt]; cbn [fst snd].
  - assert (Heq : unitId = id (obj s2 l)) by (by rewrite Hl2).
    rewrite Heq.
    destruct (removeUnit_stored s2 l HI2 Hl) as (HlU & _ & Hrest).
    destruct (keeps_health_removeUnit s2 (id (obj s2 l)) HI2) as [Hin Hkeep].
    split_and!.
    + destruct (Hkeep l) as [-> _]. by rewrite Hl2.
    + destruct (Hkeep l) as [_ ->]. by rewrite Hl2.
    + intros l' Hne. destruct (Hkeep l') as [-> ->].
      by rewrite Ho2, with_obj_ne.
    + exact Hin.
    + done.
    + lia.
  - split_and!.
    + by rewrite Hl2.
    + by rewrite Hl2.
    + intros l' Hne. by rewrite Ho2, with_obj_ne.
    + done.
    + lia.
    + done.
Qed.

(** healUnit on a stored unit of health [h] and full health [m]. *)
Lemma healUnit_found (s : State) (unitId amount : Z) (i l : nat) (h m : Z) :
  find_by_id s unitId (units s) = Some (i, l) →
  health (obj s l) = Num h → maxHealth (obj s l) = Num m →
  let s' := UnitManager.healUnit unitId amount s in
  health (obj s' l) = Num (Z.min m (h + amount))
  ∧ maxHealth (obj s' l) = Num m
  ∧ (∀ l', l' ≠ l → obj s' l' = obj s l')
  ∧ units s' = units s
  ∧ bus s' = bus s ++ (if 0 <? Z.min m (h + amount) - h
                       then [unit_healed l (Num (Z.min m (h + amount) - h))]
                       else []).
Proof.
  intros Hfind Hh Hm. cbn zeta. unfold UnitManager.healUnit.
  rewrite Hfind, Hh, Hm. cbn [num_add Math_min].
  rewrite obj_write_obj_eq. cbn [health set_health num_sub num_gt].
  destruct (0 <? Z.min m (h + amount) - h).
  - rewrite obj_emit, obj_write_obj_eq. split_and!; try done.
    intros l' Hne. by rewrite obj_emit, obj_write_obj_ne.
  - rewrite obj_write_obj_eq. split_and!; try done.
    + intros l' Hne. by rewrite obj_write_obj_ne.
    + by rewrite app_nil_r.
Qed.

Lemma health_ok_run (o : Op) (s : State) :
  Inv s → plain_call o → health_ok (units s) (obj s) →
  health_ok (units (run o s)) (obj (run o s)).
Proof.
  intros HI Hplain Hok. pose proof HI as (Hwf & Hdom & Hreg).
  destruct o as [| | |unit|t pos f|unitId|unitId|unitId|unitIds|
                |unitId pos|unitId amount|unitId amount|];
    cbn [run plain_call] in *.
  - eapply health_ok_keeps; [done|by apply keeps_health_alloc_arr].
  - eapply health_ok_keeps; [done|by apply keeps_health_alloc_arr].
  - eapply health_ok_keeps; [done|by apply keeps_health_alloc_arr].
  - destruct Hplain.
  - unfold UNIT_TYPES_get in Hplain.
    destruct (UNIT_TYPES !! t) as [stats|] eqn:Ht.
    + destruct (createUnit_return t pos f s)
        as (l & s1 & Hc & Hfresh & Hobj & Hold & _ & Harr & Hur & _).
      { unfold UNIT_TYPES_get. by rewrite Ht. }
      rewrite Hc.
      assert (HU : units s1 = units s ++ [l]).
      { unfold units, arr. rewrite Harr, Hur.
        apply lookup_total_insert_eq. }
      rewrite HU.
      intros l' [Hl'| ->%list_elem_of_singleton]%elem_of_app.
      * rewrite Hold; [by apply Hok|]. intros ->. by apply Hfresh, Hdom.
      * rewrite Hobj. unfold UNIT_TYPES_get. rewrite Ht. cbn.
        pose proof (UNIT_TYPES_health_positive t stats Ht).
        exists (stats_health stats), (stats_health stats).
        split_and!; try done; lia.
    + rewrite createUnit_undefined; [done|].
      unfold UNIT_TYPES_get. rewrite Ht. by case_bool_decide.
  - eapply health_ok_keeps; [done|by apply keeps_health_removeUnit].
  - eapply health_ok_keeps; [done|by apply keeps_health_selectUnit].
  - eapply health_ok_keeps; [done|by apply keeps_health_deselectUnit].
  - eapply health_ok_keeps; [done|by apply keeps_health_selectUnits].
  - eapply health_ok_keeps; [done|by apply keeps_health_deselectAll].
  - eapply health_ok_keeps; [done|by apply keeps_health_moveUnit].
  - destruct (find_by_id s unitId (units s)) as [[i l]|] eqn:Hfind.
    + pose proof (find_by_id_Some _ _ _ _ _ Hfind) as (_ & Hl & _).
      destruct (Hok l Hl) as (h & m & Hh & Hm & Hhm).
      destruct (damageUnit_found s unitId amount i l h HI Hfind Hh)
        as (Hh' & Hm' & Hrest & Hin & Hdead & Hlive).
      intros l' Hl'. destruct (decide (l' = l)) as [->|Hne].
      * destruct (decide (h - amount <= 0)) as [Hle|Hgt].
        -- by destruct (Hdead Hle) as [_ ?].
        -- exists (h - amount), m. rewrite Hh', Hm', Hm.
           split_and!; [f_equal; lia|done|lia|lia].
      * destruct (Hrest l' Hne) as [-> ->]. by apply Hok, Hin.
    + unfold UnitManager.damageUnit. by rewrite Hfind.
  - destruct (find_by_id s unitId (units s)) as [[i l]|] eqn:Hfind.
    + pose proof (find_by_id_Some _ _ _ _ _ Hfind) as (_ & Hl & _).
      destruct (Hok l Hl) as (h & m & Hh & Hm & Hhm).
      destruct (healUnit_found s unitId amount i l h m Hfind Hh Hm)
        as (Hh' & Hm' & Hrest & HU & _).
      rewrite HU. intros l' Hl'. destruct (decide (l' = l)) as [->|Hne].
      * exists (Z.min m (h + amount)), m. split_and!; [done|done|lia|lia].
      * rewrite (Hrest l' Hne). by apply Hok.
    + unfold UnitManager.healUnit. by rewrite Hfind.
  - rewrite clear_is_new. destruct (fresh_registry s) as (_ & HU & _).
    change (units (emit units_cleared (UnitManager.new s)))
      with (units (UnitManager.new s)). rewrite HU.
    by intros l ?%elem_of_nil.
Qed.

Lemma reachable_health_ok (s : State) :
  reachable plain_call s → health_ok (units s) (obj s).
Proof.
  induction 1 as [s0|o s Hreach IH Hplain].
  - destruct (fresh_registry s0) as (_ & HU & _). rewrite HU.
    by intros l ?%elem_of_nil.
  - apply health_ok_run; [|done|done].
    apply reachable_Inv. by apply (reachable_weaken _ _ _ plain_factory).
Qed.

(** X24: in every state a registry reaches through calls that damage
    and heal by non-negative amounts, create units under names that
    are not inherited members and do not call addUnit directly, every
    stored unit has 0 < health <= maxHealth.  In such a state
    damageUnit sets the health to max(0, health - amount) and removes
    the unit at once when that is 0, and healUnit leaves the health
    at or below maxHealth. *)
Theorem health_invariant (s : State) :
  reachable plain_call s →
  health_ok (units s) (obj s)
  ∧ (∀ unitId amount i l h,
       find_by_id s unitId (units s) = Some (i, l) →
       health (obj s l) = Num h →
       let r := UnitManager.damageUnit unitId amount s in
       health (obj r.2 l) = Num (Z.max 0 (h - amount))
       ∧ (h - amount <= 0 → r.1 = true ∧ l ∉ units r.2)
       ∧ (0 < h - amount → r.1 = false ∧ l ∈ units r.2))
  ∧ (∀ unitId amount i l,
       find_by_id s unitId (units s) = Some (i, l) →
       let s' := UnitManager.healUnit unitId amount s in
       ∃ h' m, health (obj s' l) = Num h'
               ∧ maxHealth (obj s' l) = Num m ∧ h' <= m).
Proof.
  intros Hreach. pose proof (reachable_health_ok s Hreach) as Hok.
  pose proof (reachable_Inv s (reachable_weaken _ _ s plain_factory Hreach))
    as HI.
  split_and!; [done|..].
  - intros unitId amount i l h Hfind Hh.
    destruct (damageUnit_found s unitId amount i l h HI Hfind Hh)
      as (Hh' & _ & _ & _ & Hdead & Hlive).
    cbn zeta. split_and!; [done|done|].
    intros Hgt. destruct (Hlive Hgt) as [-> ->]. split; [done|].
    by apply find_by_id_Some in Hfind as (_ & ? & _).
  - intros unitId amount i l Hfind.
    pose proof (find_by_id_Some _ _ _ _ _ Hfind) as (_ & Hl & _).
    destruct (Hok l Hl) as (h & m & Hh & Hm & Hhm).
    destruct (healUnit_found s unitId amount i l h m Hfind Hh Hm)
      as (Hh' & Hm' & _).
    exists (Z.min m (h + amount)), m. split_and!; [done|done|lia].
Qed.

Lemma health_invariant_witness : health_ok (units duel) (obj duel).
Proof.
  assert (Hreach : reachable plain_call duel).
  { apply duel_reachable; vm_compute; discriminate. }
  destruct (health_invariant duel Hreach) as [H _]. exact H.
Defined.

(** C4 (the failing inputs): damageUnit(0, -5) on the [duel] leaves
    the archer in the registry with health 65 above its maxHealth 60,
    and healUnit(0, -100) leaves it in the registry with health
    -40. *)
Lemma health_invariant_negative_amounts :
  reachable any_call duel_damaged_by_minus_5
  ∧ the_archer ∈ units duel_damaged_by_minus_5
  ∧ health (obj duel_damaged_by_minus_5 the_archer) = Num 65
  ∧ maxHealth (obj duel_damaged_by_minus_5 the_archer) = Num 60
  ∧ ¬ health_ok (units duel_damaged_by_minus_5)
                (obj duel_damaged_by_minus_5)
  ∧ reachable any_call duel_healed_by_minus_100
  ∧ the_archer ∈ units duel_healed_by_minus_100
  ∧ health (obj duel_healed_by_minus_100 the_archer) = Num (-40)
  ∧ ¬ health_ok (units duel_healed_by_minus_100)
                (obj duel_healed_by_minus_100).
Proof.
  assert (Hd : obj duel_damaged_by_minus_5 the_archer
               = set_health (Num 65) (obj duel the_archer))
    by (vm_compute; reflexivity).
  assert (Hh : obj duel_healed_by_minus_100 the_archer
               = set_health (Num (-40)) (obj duel the_archer))
    by (vm_compute; reflexivity).
  assert (Hud : units duel_damaged_by_minus_5 = [the_archer; the_infantry])
    by (vm_compute; reflexivity).
  assert (Huh : units duel_healed_by_minus_100 = [the_archer; the_infantry])
    by (vm_compute; reflexivity).
  split_and!.
  - apply reachable_run; [|exact I]. apply duel_reachable; exact I.
  - rewrite Hud. apply list_elem_of_here.
  - by rewrite Hd, duel_archer.
  - by rewrite Hd, duel_archer.
  - intros Hok. destruct (Hok the_archer) as (h & m & Hh' & Hm & Hhm).
    { rewrite Hud. apply list_elem_of_here. }
    rewrite Hd, duel_archer in Hh', Hm. cbn in Hh', Hm.
    injection Hh' as <-. injection Hm as <-. lia.
  - apply reachable_run; [|exact I]. apply duel_reachable; exact I.
  - rewrite Huh. apply list_elem_of_here.
  - by rewrite Hh, duel_archer.
  - intros Hok. destruct (Hok the_archer) as (h & m & Hh' & Hm & Hhm).
    { rewrite Huh. apply list_elem_of_here. }
    rewrite Hh, duel_archer in Hh'. cbn in Hh'.
    injection Hh' as <-. lia.
Qed.

(** ** What the queries return *)

Lemma registry_view_eq (s s' : State) :
  units s' = units s → selectedUnits s' = selectedUnits s →
  (∀ l, obj s' l = obj s l) →
  registry_view s' = registry_view s.
Proof.
  intros HU HS Ho. unfold registry_view. rewrite HU, HS. f_equal.
  apply list_fmap_ext. intros i l _. apply Ho.
Qed.

Lemma alloc_arr_copies (xs : list nat) (s : State) :
  wf_refs s → copies_list (alloc_arr xs) s xs.
Proof.
  intros Hwf. pose proof Hwf as (Hne & Hu & Hs).
  destruct (alloc_arr_frame xs s Hwf) as (Hwf1 & HU & HS & Ho).
  destruct (alloc_arr_spec xs s)
    as (Hfresh & Hread & Hold & _ & _ & Hur & Hsr & _).
  unfold copies_list. destruct (alloc_arr xs s) as [a s1].
  cbn [fst snd] in *.
  split_and!; [done|done|by apply registry_view_eq|..].
  - intros ys. cbn [mutate]. apply registry_view_eq.
    + transitivity (units s1); [|exact HU]. unfold units.
      cbn [units_ref write_arr set_arrs]. apply arr_write_arr_ne.
      rewrite Hur. intros Heq. apply Hfresh. by rewrite Heq.
    + transitivity (selectedUnits s1); [|exact HS]. unfold selectedUnits.
      cbn [selectedUnits_ref write_arr set_arrs]. apply arr_write_arr_ne.
      rewrite Hsr. intros Heq. apply Hfresh. by rewrite Heq.
    + intros l. by rewrite obj_write_arr.
  - intros l u _ Hl. cbn [mutate]. split.
    + change (units (write_obj l u s1)) with (units s1). by rewrite HU.
    + apply obj_write_obj_eq.
Qed.

Lemma getUnits_copies (s : State) :
  wf_refs s → copies_list UnitManager.getUnits s (units s).
Proof. intros Hwf. exact (alloc_arr_copies (units s) s Hwf). Qed.

(** C5 (as amended): each of the three queries returns a new array
    that holds the registry's own unit objects.  Whatever a caller
    does to the returned array leaves the registry's unit list, its
    selection list and the fields of its units as they were; what a
    caller writes to a stored unit it reached through the array is
    written to the unit the registry holds. *)
Theorem queries_copy_the_list (s : State) (f : Faction) :
  wf_refs s →
  copies_list UnitManager.getUnits s (units s)
  ∧ copies_list (UnitManager.getUnitsByFaction f) s
                (filter (λ l, faction (obj s l) = f) (units s))
  ∧ copies_list UnitManager.getSelectedUnits s (selectedUnits s).
Proof.
  intros Hwf. split_and!.
  - by apply getUnits_copies.
  - exact (alloc_arr_copies _ s Hwf).
  - exact (alloc_arr_copies (selectedUnits s) s Hwf).
Qed.

Lemma units_write_obj (s : State) (l : nat) (u : Unit) :
  units (write_obj l u s) = units s.
Proof. reflexivity. Qed.

Lemma duel_wf_refs : wf_refs duel.
Proof.
  assert (Hreach : reachable factory_call duel)
    by (apply duel_reachable; exact I).
  destruct (reachable_Inv _ Hreach) as [H _]. exact H.
Qed.

Lemma queries_copy_the_list_witness :
  copies_list UnitManager.getUnits duel (units duel).
Proof.
  destruct (queries_copy_the_list duel player duel_wf_refs) as [H _].
  exact H.
Defined.

(** C5 (counterexample): a caller of getUnits() on the [duel] sets the
    health of the first unit of the returned array to 0.  The unit is
    the registry's own archer, whose health is then 0: getUnits does
    not return a defensive copy. *)
Lemma getUnits_shares_the_units :
  through (UnitManager.getUnits duel).2 (UnitManager.getUnits duel).1
          kill_the_archer
  ∧ health (obj duel the_archer) = Num 60
  ∧ health (obj (mutate kill_the_archer (UnitManager.getUnits duel).2)
                the_archer) = Num 0
  ∧ the_archer ∈ units (mutate kill_the_archer (UnitManager.getUnits duel).2)
  ∧ ¬ defensive_copy UnitManager.getUnits duel.
Proof.
  destruct (getUnits_copies duel duel_wf_refs)
    as (Hcontents & _ & Hview & _ & Hwrite).
  assert (Hin : the_archer ∈ units duel).
  { rewrite duel_units. apply list_elem_of_here. }
  destruct (Hwrite the_archer (set_health (Num 0) (obj duel the_archer))
              Hin Hin) as [Hstored Hafter].
  fold kill_the_archer in Hstored, Hafter.
  assert (Hthrough : through (UnitManager.getUnits duel).2
                       (UnitManager.getUnits duel).1 kill_the_archer).
  { unfold through, kill_the_archer. rewrite Hcontents. exact Hin. }
  split_and!.
  - exact Hthrough.
  - rewrite duel_archer. reflexivity.
  - rewrite Hafter. reflexivity.
  - exact Hstored.
  - intros Hcopy. specialize (Hcopy kill_the_archer Hthrough).
    unfold registry_view in Hcopy.
    pose proof (f_equal (λ v, v.1.1) Hcopy) as HU. cbn [fst] in HU.
    pose proof (f_equal (λ v, health <$> v.2 !! 0%nat) Hcopy) as Hh.
    cbn [snd] in Hh. rewrite HU, duel_units in Hh.
    cbn [fmap list_fmap lookup list_lookup option_fmap option_map] in Hh.
    rewrite Hafter, duel_archer in Hh. discriminate Hh.
Qed.

(** ** Combat under cooldown *)

(** An attack writes the health of the defender and nothing else in
    the store; it reports a defeat when the defender was in range and
    is left without health. *)
Lemma performAttack_effect (random : Q) (a d : nat) (s : State) :
  let r := CombatSystem.performAttack random a d s in
  arrs r.2 = arrs s
  ∧ units_ref r.2 = units_ref s
  ∧ selectedUnits_ref r.2 = selectedUnits_ref s
  ∧ nextUnitId r.2 = nextUnitId s
  ∧ combatCooldowns r.2 = combatCooldowns s
  ∧ dom (objs s) ⊆ dom (objs r.2)
  ∧ (∀ l, l ≠ d → obj r.2 l = obj s l)
  ∧ obj r.2 d = set_health (health (obj r.2 d)) (obj s d)
  ∧ (r.1 = true ↔ CombatSystem.isInRangeb (obj s a) (obj s d) = true
                  ∧ num_le (health (obj r.2 d)) (Num 0) = true)
  ∧ (CombatSystem.isInRangeb (obj s a) (obj s d) = false → r.2 = s).
Proof.
  cbn zeta. unfold CombatSystem.performAttack.
  destruct (CombatSystem.isInRangeb (obj s a) (obj s d)) eqn:Hin;
    cbn [negb].
  - set (u := set_health _ (obj s d)).
    set (s1 := write_obj d u s).
    set (s2 := emit _ s1).
    assert (Hd : obj s2 d = u) by apply obj_write_obj_eq.
    assert (Hrest : ∀ l, l ≠ d → obj s2 l = obj s l).
    { intros l Hne. unfold s2. rewrite obj_emit.
      apply obj_write_obj_ne. by intros ->. }
    destruct (num_le (health (obj s2 d)) (Num 0)) eqn:Hle; cbn [fst snd].
    + rewrite !obj_emit, !Hd. rewrite Hd in Hle.
      split_and!; [reflexivity..| | | | |].
      * apply dom_objs_write_obj_subseteq.
      * intros l Hne. rewrite obj_emit. by apply Hrest.
      * reflexivity.
      * by split.
      * discriminate.
    + rewrite !Hd. rewrite Hd in Hle.
      split_and!; [reflexivity..| | | | |].
      * apply dom_objs_write_obj_subseteq.
      * exact Hrest.
      * reflexivity.
      * split; [discriminate|]. intros [_ ?]. congruence.
      * discriminate.
  - cbn [fst snd]. split_and!; try done.
    + by destruct (obj s d).
    + split; [done|]. by intros [? _].
Qed.

(** A change of healths alone, like that of an attack, keeps the
    invariant. *)
Lemma Inv_health_only (s s' : State) :
  Inv s →
  arrs s' = arrs s → units_ref s' = units_ref s →
  selectedUnits_ref s' = selectedUnits_ref s →
  nextUnitId s' = nextUnitId s →
  dom (objs s) ⊆ dom (objs s') →
  (∀ l, ∃ h, obj s' l = set_health h (obj s l)) →
  Inv s'.
Proof.
  intros (Hwf & Hdom & Hok) Harr Hur Hsr Hn Hsub Hobj.
  assert (HU : units s' = units s) by (unfold units, arr; by rewrite Harr, Hur).
  assert (HS : selectedUnits s' = selectedUnits s)
    by (unfold selectedUnits, arr; by rewrite Harr, Hsr).
  split_and!.
  - unfold wf_refs. by rewrite Harr, Hur, Hsr.
  - rewrite HU. intros l Hl. by apply Hsub, Hdom.
  - rewrite HU, HS, Hn. eapply reg_ok_ext; [exact Hok|..].
    + intros l _. by destruct (Hobj l) as [h ->].
    + intros l _. by destruct (Hobj l) as [h ->].
Qed.

Lemma set_health_id (u : Unit) : set_health (health u) u = u.
Proof. by destruct u. Qed.

Lemma Inv_performAttack (random : Q) (a d : nat) (s : State) :
  Inv s → Inv (CombatSystem.performAttack random a d s).2.
Proof.
  intros HI.
  destruct (performAttack_effect random a d s)
    as (Harr & Hur & Hsr & Hn & _ & Hsub & Hrest & Hd & _).
  eapply Inv_health_only; try done.
  intros l. destruct (decide (l = d)) as [->|Hne].
  - eauto.
  - exists (health (obj s l)). by rewrite Hrest, set_health_id.
Qed.


(** The copy processCombat searches. *)
Lemma getUnits_frame (s : State) :
  Inv s →
  let r := UnitManager.getUnits s in
  Inv r.2 ∧ arr r.2 r.1 = units s ∧ units r.2 = units s
  ∧ selectedUnits r.2 = selectedUnits s ∧ (∀ l, obj r.2 l = obj s l)
  ∧ combatCooldowns r.2 = combatCooldowns s ∧ bus r.2 = bus s.
Proof.
  intros HI. cbn zeta. unfold UnitManager.getUnits.
  pose proof HI as (Hwf & _).
  destruct (alloc_arr_frame (units s) s Hwf) as (_ & HU & HS & Ho).
  destruct (alloc_arr_spec (units s) s)
    as (_ & Hread & _ & _ & _ & _ & _ & _ & Hc & Hb).
  split_and!; try done. by apply Inv_alloc_arr.
Qed.

(** Removing a unit changes no object but, at most, the flag of the
    unit removed, and leaves the cooldowns alone. *)
Lemma removeUnit_objects (s : State) (unitId : Z) :
  Inv s →
  (∀ l, obj (UnitManager.removeUnit unitId s) l = obj s l
        ∨ obj (UnitManager.removeUnit unitId s) l
          = set_selected false (obj s l))
  ∧ combatCooldowns (UnitManager.removeUnit unitId s) = combatCooldowns s.
Proof.
  intros HI.
  destruct (find_by_id s unitId (units s)) as [[i u]|] eqn:Hfind.
  - destruct (removeUnit_found s unitId i u HI Hfind)
      as [(_ & (_ & _ & _ & Ho & _ & _ & Hc) & _)
         |(j & _ & (_ & _ & _ & Ho & _ & _ & Hc) & _)].
    + split; [|done]. intros l. left. apply Ho.
    + split; [|done]. intros l. rewrite Ho. unfold with_obj.
      case_decide; subst; auto.
  - rewrite removeUnit_not_found by done. split; [|done]. by left.
Qed.



(** The archer attacks at time 0 with the roll 1/2: 10 damage, the
    infantry survives, and the archer may attack again at 1000/3; at
    time 333 it is still refused. *)
Example processCombat_duel :
  let r := WorldState.processCombat 0 1 0 (1 # 2) duel in
  r.1 = false
  ∧ health (obj r.2 the_infantry) = Num 70
  ∧ units r.2 = [the_archer; the_infantry]
  ∧ combatCooldowns r.2 !! 0 = Some (QNum (0 + 1000 * (1 / 3)))
  ∧ (WorldState.processCombat 0 1 333 (1 # 2) r.2).1 = false
  ∧ (WorldState.processCombat 0 1 333 (1 # 2) r.2).2 = r.2.
Proof. vm_compute. split_and!; reflexivity. Qed.
(** ** Ids *)

Lemma keeps_ids_refl (s : State) : keeps_ids s s.
Proof. by split_and!. Qed.

Lemma keeps_ids_trans (s1 s2 s3 : State) :
  keeps_ids s1 s2 → keeps_ids s2 s3 → keeps_ids s1 s3.
Proof.
  intros (Hin1 & Hid1 & Hn1) (Hin2 & Hid2 & Hn2). split_and!.
  - intros l Hl. by apply Hin1, Hin2.
  - intros l. by rewrite Hid2, Hid1.
  - by rewrite Hn2, Hn1.
Qed.

Lemma keeps_ids_effect (s s' : State) (U S : list nat) (o : nat → Unit) :
  effect s s' U S o →
  (∀ l, l ∈ U → l ∈ units s) →
  (∀ l, id (o l) = id (obj s l)) →
  keeps_ids s s'.
Proof.
  intros (_ & HU & _ & Ho & _ & Hn & _) Hin Hid. split_and!.
  - by rewrite HU.
  - intros l. by rewrite Ho.
  - done.
Qed.

Lemma with_obj_flag_id (o : nat → Unit) (l l' : nat) (b : bool) :
  id (with_obj o l (set_selected b (o l)) l') = id (o l').
Proof. unfold with_obj. by case_decide; subst. Qed.

Lemma keeps_ids_selectUnit (s : State) (unitId : Z) :
  wf_refs s → keeps_ids s (UnitManager.selectUnit unitId s).
Proof.
  intros Hwf.
  destruct (find_by_id s unitId (units s)) as [[i l]|] eqn:Hfind.
  - destruct (selected (obj s l)) eqn:Hsel.
    + rewrite selectUnit_noop; [apply keeps_ids_refl|].
      intros i' l' Hfind'. congruence.
    + destruct (selectUnit_found s unitId i l Hwf Hfind Hsel) as [Heff _].
      eapply keeps_ids_effect; [exact Heff|done|].
      intros l'. apply with_obj_flag_id.
  - rewrite selectUnit_noop; [apply keeps_ids_refl|].
    intros i' l' Hfind'. congruence.
Qed.

Lemma keeps_ids_deselectUnit (s : State) (unitId : Z) :
  wf_refs s → keeps_ids s (UnitManager.deselectUnit unitId s).
Proof.
  intros Hwf.
  destruct (find_by_id s unitId (selectedUnits s)) as [[j l]|] eqn:Hfind.
  - destruct (deselectUnit_found s unitId j l Hwf Hfind) as [Heff _].
    eapply keeps_ids_effect; [exact Heff|done|].
    intros l'. apply with_obj_flag_id.
  - rewrite deselectUnit_not_found by done. apply keeps_ids_refl.
Qed.

Lemma keeps_ids_removeUnit (s : State) (unitId : Z) :
  Inv s → keeps_ids s (UnitManager.removeUnit unitId s).
Proof.
  intros HI.
  destruct (find_by_id s unitId (units s)) as [[i l]|] eqn:Hfind.
  - destruct (removeUnit_found s unitId i l HI Hfind)
      as [(_ & Heff & _)|(j & _ & Heff & _)].
    + eapply keeps_ids_effect; [exact Heff|..].
      * intros l'. apply list_elem_of_delete_inv.
      * done.
    + eapply keeps_ids_effect; [exact Heff|..].
      * intros l'. apply list_elem_of_delete_inv.
      * intros l'. apply with_obj_flag_id.
  - rewrite removeUnit_not_found by done. apply keeps_ids_refl.
Qed.

Lemma keeps_ids_deselectAll (s : State) :
  wf_refs s → keeps_ids s (UnitManager.deselectAll s).
Proof.
  intros Hwf.
  eapply keeps_ids_effect; [by apply deselectAll_effect|done|].
  intros l. cbn beta. by case_decide.
Qed.

Lemma keeps_ids_selectUnits (s : State) (unitIds : list Z) :
  Inv s → keeps_ids s (UnitManager.selectUnits unitIds s).
Proof.
  intros HI. unfold UnitManager.selectUnits.
  eapply keeps_ids_trans.
  { apply keeps_ids_deselectAll. by destruct HI. }
  apply Inv_deselectAll in HI.
  revert HI. generalize (UnitManager.deselectAll s). clear s.
  induction unitIds as [|unitId unitIds IH]; intros s HI.
  - cbn. case_match; by split_and!.
  - cbn [foldl]. eapply keeps_ids_trans.
    + apply keeps_ids_selectUnit. by destruct HI.
    + apply IH. by apply Inv_selectUnit.
Qed.

Lemma keeps_ids_write_obj (s : State) (l : nat) (u : Unit) :
  id u = id (obj s l) → keeps_ids s (write_obj l u s).
Proof.
  intros Hid. split_and!; [done| |done].
  intros l'. rewrite obj_write_obj. by case_decide; subst.
Qed.

Lemma keeps_ids_emit (s s' : State) (e : Event) :
  keeps_ids s s' → keeps_ids s (emit e s').
Proof. done. Qed.

Lemma keeps_ids_alloc_arr (s : State) (xs : list nat) :
  wf_refs s → keeps_ids s (alloc_arr xs s).2.
Proof.
  intros Hwf. destruct (alloc_arr_frame xs s Hwf) as (_ & HU & _ & Ho).
  split_and!; [by rewrite HU| |done]. intros l. by rewrite Ho.
Qed.

(** What a call does to the ids: createUnit under a name that passes
    the guard adds one unit, whose id is the counter, and advances the
    counter by one; every other call adds no unit and changes neither
    an id nor the counter. *)
Lemma run_ids (o : Op) (s : State) :
  factory_call o → Inv s →
  keeps_ids s (run o s)
  ∨ (nextUnitId (run o s) = nextUnitId s + 1
     ∧ ∃ l, units (run o s) = units s ++ [l] ∧ (l ∉ units s)
            ∧ id (obj (run o s) l) = nextUnitId s
            ∧ ∀ l', l' ∈ units s → obj (run o s) l' = obj s l').
Proof.
  intros Hcall HI. pose proof HI as (Hwf & Hdom & _).
  destruct o as [| | |unit|t pos f|unitId|unitId|unitId|unitIds|
                |unitId pos|unitId amount|unitId amount|]; cbn [run].
  - left. by apply keeps_ids_alloc_arr.
  - left. by apply keeps_ids_alloc_arr.
  - left. by apply keeps_ids_alloc_arr.
  - destruct Hcall.
  - assert (Hu : UNIT_TYPES_get t = Undefined ∨ UNIT_TYPES_get t ≠ Undefined)
      by (destruct (UNIT_TYPES_get t); auto).
    destruct Hu as [Hu|Hu].
    { left. rewrite createUnit_undefined by done. apply keeps_ids_refl. }
    right.
    destruct (createUnit_return t pos f s Hu)
      as (l & s1 & -> & Hfresh & Hobj & Hold & _ & Harr & Hur & _ & Hn & _).
    split; [done|]. exists l.
    assert (HlU : l ∉ units s) by (intros Hl; by apply Hfresh, Hdom).
    split_and!; [|done|by rewrite Hobj|].
    + unfold units, arr. rewrite Harr, Hur. apply lookup_total_insert_eq.
    + intros l' Hl'. apply Hold. by intros ->.
  - left. by apply keeps_ids_removeUnit.
  - left. by apply keeps_ids_selectUnit.
  - left. by apply keeps_ids_deselectUnit.
  - left. by apply keeps_ids_selectUnits.
  - left. by apply keeps_ids_deselectAll.
  - left. unfold UnitManager.moveUnit.
    destruct (find_by_id s unitId (units s)) as [[i l]|];
      [|apply keeps_ids_refl].
    apply keeps_ids_emit. by apply keeps_ids_write_obj.
  - left. unfold UnitManager.damageUnit.
    destruct (find_by_id s unitId (units s)) as [[i l]|];
      [|apply keeps_ids_refl].
    set (s2 := emit _ (write_obj l _ s)).
    assert (H2 : keeps_ids s s2)
      by (by apply keeps_ids_emit, keeps_ids_write_obj).
    case_match; cbn [snd]; [|done].
    eapply keeps_ids_trans; [exact H2|]. apply keeps_ids_removeUnit.
    by apply Inv_emit, Inv_write_obj.
  - left. unfold UnitManager.healUnit.
    destruct (find_by_id s unitId (units s)) as [[i l]|];
      [|apply keeps_ids_refl].
    case_match; [apply keeps_ids_emit|]; by apply keeps_ids_write_obj.
  - left. rewrite clear_is_new.
    destruct (fresh_registry s) as (_ & HU & _ & Hobjs & Hn & _).
    split_and!.
    + change (units (emit units_cleared (UnitManager.new s)))
        with (units (UnitManager.new s)). rewrite HU.
      by intros l ?%elem_of_nil.
    + intros l. rewrite obj_emit. unfold obj. by rewrite Hobjs.
    + done.
Qed.

(** X1: in every state a registry reaches through its calls, a
    direct addUnit apart, the stored units have distinct ids below
    the counter.  No such call lowers the counter, and a unit that it
    adds gets the value of the counter as its id: an id that was
    given out is not given out again, also after the unit was removed
    or the registry cleared. *)
Theorem ids_are_not_reused (s : State) :
  reachable factory_call s →
  NoDup ((λ l, id (obj s l)) <$> units s)
  ∧ (∀ l, l ∈ units s → id (obj s l) < nextUnitId s)
  ∧ (∀ o, factory_call o →
          nextUnitId s <= nextUnitId (run o s)
          ∧ ∀ l, l ∈ units (run o s) →
                 (l ∈ units s ∧ id (obj (run o s) l) = id (obj s l))
                 ∨ ((l ∉ units s) ∧ id (obj (run o s) l) = nextUnitId s)).
Proof.
  intros HI%reachable_Inv. pose proof HI as (_ & _ & Hids & Hlt & _).
  split_and!; [done|done|]. intros o Hcall.
  destruct (run_ids o s Hcall HI)
    as [(Hin & Hid & Hn)|(Hn & l & HU & HlU & Hidl & Hold)].
  - split; [lia|]. intros l Hl. left. split; [by apply Hin|apply Hid].
  - split; [lia|]. rewrite HU.
    intros l' [Hl'| ->%list_elem_of_singleton]%elem_of_app.
    + left. split; [done|]. by rewrite Hold.
    + by right.
Qed.

Lemma ids_are_not_reused_witness :
  NoDup ((λ l, id (obj duel l)) <$> units duel)
  ∧ (∀ l, l ∈ units duel → id (obj duel l) < nextUnitId duel).
Proof.
  assert (Hreach : reachable factory_call duel)
    by (apply duel_reachable; exact I).
  destruct (ids_are_not_reused duel Hreach) as (H1 & H2 & _).
  exact (conj H1 H2).
Defined.

(** ** Events of the selection calls *)

Lemma deselectAll_bus (s : State) :
  wf_refs s →
  (selectedUnits s = [] → bus (UnitManager.deselectAll s) = bus s)
  ∧ (selectedUnits s ≠ [] →
     ∃ a, bus (UnitManager.deselectAll s) = bus s ++ [units_deselected a]
          ∧ arr (UnitManager.deselectAll s) a = selectedUnits s
          ∧ a ∉ dom (arrs s)).
Proof.
  intros Hwf. unfold UnitManager.deselectAll.
  set (s1 := UnitManager.clear_flags s (selectedUnits s)).
  destruct (clear_flags_frame (selectedUnits s) s)
    as (Harr & Hur & Hsr & _ & _ & Hb & _).
  fold s1 in Harr, Hur, Hsr, Hb.
  assert (HS1 : selectedUnits s1 = selectedUnits s).
  { unfold selectedUnits, arr. by rewrite Harr, Hsr. }
  rewrite HS1.
  destruct (alloc_arr_spec (selectedUnits s) s1)
    as (Hf2 & Hr2 & _ & Hd2 & _ & _ & _ & _ & _ & Hb2).
  destruct (alloc_arr (selectedUnits s) s1) as [prev s2].
  cbn [fst snd] in *.
  destruct (alloc_arr_spec [] s2)
    as (_ & _ & Ho3 & _ & _ & _ & _ & _ & _ & Hb3).
  destruct (alloc_arr [] s2) as [empty s3]. cbn [fst snd] in *.
  assert (Hprev : arr (set_selectedUnits_ref empty s3) prev = selectedUnits s).
  { change (arr s3 prev = selectedUnits s). rewrite Ho3; [done|].
    rewrite Hd2. apply elem_of_union_l. by apply elem_of_singleton. }
  rewrite Hprev. split.
  - intros ->. cbn. by rewrite Hb3, Hb2, Hb.
  - intros Hne. exists prev.
    destruct (selectedUnits s) as [|l S] eqn:HS; [done|]. cbn.
    rewrite Hb3, Hb2, Hb. split_and!; [done|done|]. by rewrite <- Harr.
Qed.

(** X2: deselectAll empties the selection and clears the flag of every
    stored unit; it emits one event when something was selected and
    none otherwise, so a second call in a row changes nothing in the
    registry and emits nothing. *)
Theorem deselectAll_twice (s : State) :
  Inv s →
  let s1 := UnitManager.deselectAll s in
  let s2 := UnitManager.deselectAll s1 in
  selectedUnits s1 = []
  ∧ units s1 = units s
  ∧ (∀ l, l ∈ units s1 → selected (obj s1 l) = false)
  ∧ (selectedUnits s = [] → bus s1 = bus s)
  ∧ (length (bus s1) <= S (length (bus s)))%nat
  ∧ bus s2 = bus s1
  ∧ registry_view s2 = registry_view s1.
Proof.
  intros HI. cbn zeta. pose proof HI as (Hwf & _).
  pose proof (Inv_deselectAll s HI) as HI1.
  pose proof HI1 as (Hwf1 & _ & _ & _ & _ & Hsel1).
  destruct (deselectAll_effect s Hwf) as (_ & HU1 & HS1 & _).
  destruct (deselectAll_effect _ Hwf1) as (_ & HU2 & HS2 & Ho2 & _).
  destruct (deselectAll_bus s Hwf) as [Hb0 Hb1].
  destruct (deselectAll_bus _ Hwf1) as [Hb2 _].
  split_and!; [done|done| |done| |by apply Hb2|].
  - intros l Hl. destruct (selected (obj _ l)) eqn:Hon; [|done].
    assert (Hin : l ∈ selectedUnits (UnitManager.deselectAll s))
      by (by apply Hsel1).
    rewrite HS1 in Hin. by apply elem_of_nil in Hin.
  - destruct (selectedUnits s) as [|l S] eqn:HS.
    + rewrite Hb0 by done. lia.
    + destruct Hb1 as (a & -> & _); [done|].
      rewrite length_app. cbn. lia.
  - apply registry_view_eq.
    + by rewrite HU2.
    + by rewrite HS2, HS1.
    + intros l. rewrite Ho2, HS1. by rewrite decide_False by apply not_elem_of_nil.
Qed.

Lemma deselectAll_twice_witness :
  selectedUnits (UnitManager.deselectAll duel_selected) = []
  ∧ bus (UnitManager.deselectAll (UnitManager.deselectAll duel_selected))
    = bus (UnitManager.deselectAll duel_selected).
Proof.
  assert (HI : Inv duel_selected).
  { apply reachable_Inv. apply reachable_run; [|exact I].
    apply duel_reachable; exact I. }
  destruct (deselectAll_twice duel_selected HI)
    as (H1 & _ & _ & _ & _ & H2 & _).
  exact (conj H1 H2).
Defined.

(** ** Removing a unit *)

Lemma filter_not_elem_of (xs : list nat) (l : nat) :
  l ∉ xs → filter (λ l', l' ≠ l) xs = xs.
Proof.
  induction xs as [|a xs IH]; [done|]. intros Hl.
  apply not_elem_of_cons in Hl as [Hne Hl].
  rewrite filter_cons_True by done. f_equal. by apply IH.
Qed.

Lemma delete_NoDup_filter (xs : list nat) (i l : nat) :
  NoDup xs → xs !! i = Some l → delete i xs = filter (λ l', l' ≠ l) xs.
Proof.
  intros Hnd. revert i. induction Hnd as [|a xs Ha Hnd IH]; intros i Hi.
  - done.
  - destruct i as [|i]; cbn in Hi.
    + injection Hi as ->. cbn [delete list_delete].
      rewrite filter_cons_False by naive_solver.
      symmetry. by apply filter_not_elem_of.
    + cbn [delete list_delete].
      assert (a ≠ l).
      { intros ->. apply Ha. by eapply list_elem_of_lookup_2. }
      rewrite filter_cons_True by done. f_equal. by apply IH.
Qed.

(** X3: removeUnit of an id that no stored unit has changes nothing and
    emits nothing.  For the id of a stored unit it takes that unit, and
    only it, out of both lists, which otherwise keep their order; it
    clears the unit's flag, leaves every other object as it was, and
    emits unit-removed, after unit-deselected when the unit was
    selected. *)
Theorem removeUnit_outcome (s : State) (unitId : Z) :
  Inv s →
  let s' := UnitManager.removeUnit unitId s in
  ((∀ l, l ∈ units s → id (obj s l) ≠ unitId) → s' = s)
  ∧ (∀ l, l ∈ units s → id (obj s l) = unitId →
       units s' = filter (λ l', l' ≠ l) (units s)
       ∧ selectedUnits s' = filter (λ l', l' ≠ l) (selectedUnits s)
       ∧ S (length (units s')) = length (units s)
       ∧ selected (obj s' l) = false
       ∧ (∀ l', l' ≠ l → obj s' l' = obj s l')
       ∧ bus s' = bus s ++ (if selected (obj s l)
                            then [unit_deselected l; unit_removed l]
                            else [unit_removed l])
       ∧ Inv s').
Proof.
  intros HI. cbn zeta. split.
  - intros Hno. apply removeUnit_not_found.
    destruct (find_by_id s unitId (units s)) as [[i l]|] eqn:Hfind; [|done].
    apply find_by_id_Some in Hfind as (_ & Hl & Hid). by destruct (Hno l).
  - intros l Hl <-.
    pose proof HI as (Hwf & _ & Hnd & _ & HndS & Hsel).
    destruct (find_by_id_stored s l HI Hl) as (i & Hfind & Hi).
    assert (HndU : NoDup (units s)) by exact (NoDup_fmap_1 _ _ Hnd).
    assert (Hlen : S (length (delete i (units s))) = length (units s)).
    { pose proof (lookup_lt_Some _ _ _ Hi). rewrite length_delete by eauto.
      lia. }
    pose proof (Inv_removeUnit s (id (obj s l)) HI) as HI'.
    destruct (removeUnit_found s _ i l HI Hfind)
      as [(Hnot & He & Hb)|(j & Hj & He & Hb)];
      destruct He as (_ & HU & HS & Ho & _).
    + assert (Hoff : selected (obj s l) = false).
      { destruct (selected (obj s l)) eqn:Hon; [|done].
        destruct Hnot. by apply Hsel. }
      rewrite HU, HS, Hb, Hoff.
      split_and!; [by apply delete_NoDup_filter| |done| |intros; apply Ho
                  |done|done].
      * symmetry. by apply filter_not_elem_of.
      * by rewrite Ho.
    + assert (Hon : selected (obj s l) = true).
      { apply Hsel. by eapply list_elem_of_lookup_2. }
      rewrite HU, HS, Hb, Hon.
      split_and!; [by apply delete_NoDup_filter|by apply delete_NoDup_filter
                  |done| | |done|done].
      * rewrite Ho. unfold with_obj. by rewrite decide_True.
      * intros l' Hne. rewrite Ho. unfold with_obj.
        by rewrite decide_False.
Qed.

Lemma removeUnit_outcome_witness :
  units (UnitManager.removeUnit 0 duel)
  = filter (λ l', l' ≠ the_archer) (units duel).
Proof.
  assert (HI : Inv duel).
  { apply reachable_Inv. apply duel_reachable; exact I. }
  destruct (removeUnit_outcome duel 0 HI) as [_ H].
  destruct (H the_archer) as (H1 & _).
  - rewrite duel_units. apply list_elem_of_here.
  - rewrite duel_archer. vm_compute. reflexivity.
  - exact H1.
Defined.

(** ** Damage and healing *)

Lemma damageUnit_not_found (s : State) (unitId amount : Z) :
  (∀ l, l ∈ units s → id (obj s l) ≠ unitId) →
  UnitManager.damageUnit unitId amount s = (false, s).
Proof.
  intros Hno. unfold UnitManager.damageUnit.
  destruct (find_by_id s unitId (units s)) as [[i l]|] eqn:Hfind; [|done].
  apply find_by_id_Some in Hfind as (_ & Hl & Hid). by destruct (Hno l).
Qed.

(** X4: damageUnit of an unknown id returns false and changes nothing.  On
    a stored unit of health h it sets the health to max(0, h - amount),
    emits unit-damaged with the amount it was given (not the health
    actually lost), and returns true exactly when the new health is 0;
    in that case, and only then, the unit leaves the registry, and
    unit-deselected (if it was selected) and unit-removed follow. *)
Theorem damageUnit_outcome (s : State) (unitId amount : Z) (l : nat) (h : Z) :
  Inv s → l ∈ units s → id (obj s l) = unitId → health (obj s l) = Num h →
  let r := UnitManager.damageUnit unitId amount s in
  health (obj r.2 l) = Num (Z.max 0 (h - amount))
  ∧ r.1 = bool_decide (h - amount <= 0)
  ∧ (l ∈ units r.2 ↔ 0 < h - amount)
  ∧ (∀ l', l' ≠ l → (l' ∈ units r.2 ↔ l' ∈ units s) ∧ obj r.2 l' = obj s l')
  ∧ bus r.2
    = bus s ++ unit_damaged l amount
        :: (if r.1
            then (if selected (obj s l) then [unit_deselected l] else [])
                 ++ [unit_removed l]
            else []).
Proof.
  intros HI Hl <- Hh. cbn zeta.
  destruct (find_by_id_stored s l HI Hl) as (i & Hfind & Hi).
  unfold UnitManager.damageUnit. rewrite Hfind, Hh. cbn [num_sub Math_max].
  set (u := set_health (Num (Z.max 0 (h - amount))) (obj s l)).
  set (s2 := emit (unit_damaged l amount) (write_obj l u s)).
  assert (HI2 : Inv s2) by (by apply Inv_emit, Inv_write_obj).
  assert (Ho2 : ∀ l', obj s2 l' = with_obj (obj s) l u l').
  { intros l'. unfold s2. rewrite obj_emit. apply obj_write_obj. }
  assert (Hl2 : obj s2 l = u) by (by rewrite Ho2, with_obj_eq).
  assert (Hb2 : bus s2 = bus s ++ [unit_damaged l amount]) by done.
  assert (HU2 : units s2 = units s) by done.
  rewrite Hl2. cbn [health u set_health num_le].
  destruct (Z.leb_spec (Z.max 0 (h - amount)) 0) as [Hle|Hgt]; cbn [fst snd].
  - assert (Hdead : h - amount <= 0) by lia.
    rewrite bool_decide_eq_true_2 by done.
    assert (Hfind2 : find_by_id s2 (id (obj s l)) (units s2) = Some (i, l)).
    { rewrite HU2, <- Hfind. apply find_by_id_ids.
      intros l'. rewrite Ho2. unfold with_obj. by case_decide; subst. }
    pose proof HI2 as (_ & _ & _ & _ & _ & Hsel2).
    assert (Hflag : selected (obj s2 l) = selected (obj s l))
      by (by rewrite Hl2).
    destruct (removeUnit_stored s2 l HI2 Hl) as (HlU & _ & Hrest).
    rewrite Hl2 in HlU, Hrest. cbn [id u set_health] in HlU, Hrest.
    assert (Hbus : bus (UnitManager.removeUnit (id (obj s l)) s2)
                   = bus s2 ++ (if selected (obj s l)
                                then [unit_deselected l] else [])
                            ++ [unit_removed l]).
    { destruct (removeUnit_found s2 _ i l HI2 Hfind2)
        as [(Hnot & _ & Hb)|(j & Hj & _ & Hb)]; rewrite Hb, <- Hflag.
      - destruct (selected (obj s2 l)) eqn:Hon; [|done].
        destruct Hnot. by apply Hsel2.
      - assert (Hon : selected (obj s2 l) = true).
        { apply Hsel2. by eapply list_elem_of_lookup_2. }
        by rewrite Hon. }
    split_and!.
    + destruct (keeps_health_removeUnit s2 (id (obj s l)) HI2) as [_ Hk].
      destruct (Hk l) as [-> _]. by rewrite Hl2.
    + done.
    + split; [done|lia].
    + intros l' Hne. destruct (Hrest l' Hne) as (HU' & _ & ->).
      split; [done|]. by rewrite Ho2, with_obj_ne.
    + rewrite Hbus, Hb2, <- app_assoc. done.
  - assert (Halive : 0 < h - amount) by lia.
    rewrite bool_decide_eq_false_2 by lia.
    split_and!.
    + by rewrite Hl2.
    + done.
    + done.
    + intros l' Hne. split; [done|]. by rewrite Ho2, with_obj_ne.
    + done.
Qed.

Lemma damageUnit_outcome_witness :
  (UnitManager.damageUnit 0 60 duel).1 = bool_decide (60 - 60 <= 0).
Proof.
  assert (HI : Inv duel).
  { apply reachable_Inv. apply duel_reachable; exact I. }
  refine (proj1 (proj2 (damageUnit_outcome duel 0 60 the_archer 60 HI _ _ _))).
  - rewrite duel_units. apply list_elem_of_here.
  - rewrite duel_archer. vm_compute. reflexivity.
  - rewrite duel_archer. vm_compute. reflexivity.
Defined.

(** X5: A stored unit whose health is NaN (a unit made from a name that
    the table only inherits) is never removed by damageUnit: whatever
    the amount, the call returns false, the health stays NaN and the
    registry keeps all its units. *)
Theorem damageUnit_NaN_health (s : State) (unitId amount : Z) (l : nat) :
  Inv s → l ∈ units s → id (obj s l) = unitId → health (obj s l) = NaN →
  let r := UnitManager.damageUnit unitId amount s in
  r.1 = false
  ∧ units r.2 = units s
  ∧ health (obj r.2 l) = NaN
  ∧ bus r.2 = bus s ++ [unit_damaged l amount].
Proof.
  intros HI Hl <- Hh. cbn zeta.
  destruct (find_by_id_stored s l HI Hl) as (i & Hfind & Hi).
  unfold UnitManager.damageUnit. rewrite Hfind, Hh. cbn [num_sub Math_max].
  rewrite obj_emit, obj_write_obj_eq. cbn [health set_health num_le fst snd].
  rewrite obj_emit, obj_write_obj_eq. done.
Qed.

Lemma damageUnit_NaN_health_witness :
  (UnitManager.damageUnit 0 1000 ghost).1 = false
  ∧ units (UnitManager.damageUnit 0 1000 ghost).2 = units ghost.
Proof.
  assert (HI : Inv ghost).
  { apply reachable_Inv. apply reachable_run; [|exact I].
    apply reachable_new. }
  assert (Hu : units ghost = [0%nat]) by (vm_compute; reflexivity).
  assert (Hid : id (obj ghost 0%nat) = 0) by (vm_compute; reflexivity).
  assert (Hh : health (obj ghost 0%nat) = NaN) by (vm_compute; reflexivity).
  assert (Hl : 0%nat ∈ units ghost).
  { rewrite Hu. apply list_elem_of_here. }
  destruct (damageUnit_NaN_health ghost 0 1000 0%nat HI Hl Hid Hh)
    as (H1 & H2 & _).
  exact (conj H1 H2).
Defined.

(** X6: healUnit of an unknown id changes nothing.  On a stored unit of
    health h and full health m (h <= m) a heal by a non-negative amount
    sets the health to min(m, h + amount): never lower than before,
    never above m.  unit-healed is emitted with the health actually
    gained, and only when some was gained: healing a unit at full
    health, or by 0, emits nothing and changes no object. *)
Theorem healUnit_outcome (s : State) (unitId amount : Z) (l : nat) (h m : Z) :
  Inv s → l ∈ units s → id (obj s l) = unitId →
  health (obj s l) = Num h → maxHealth (obj s l) = Num m →
  h <= m → 0 <= amount →
  let s' := UnitManager.healUnit unitId amount s in
  let h' := Z.min m (h + amount) in
  health (obj s' l) = Num h'
  ∧ h <= h' <= m
  ∧ h' - h <= amount
  ∧ units s' = units s
  ∧ (∀ l', l' ≠ l → obj s' l' = obj s l')
  ∧ (h < h' → bus s' = bus s ++ [unit_healed l (Num (h' - h))])
  ∧ (h' = h → bus s' = bus s ∧ ∀ l', obj s' l' = obj s l').
Proof.
  intros HI Hl <- Hh Hm Hhm Ham. cbn zeta.
  destruct (find_by_id_stored s l HI Hl) as (i & Hfind & Hi).
  destruct (healUnit_found s _ amount i l h m Hfind Hh Hm)
    as (Hh' & Hm' & Hrest & HU & Hb).
  split_and!; [done|lia|lia|lia|done|done| |].
  - intros Hlt. rewrite Hb.
    destruct (Z.ltb_spec 0 (Z.min m (h + amount) - h)); [done|lia].
  - intros Heq. split.
    + rewrite Hb.
      destruct (Z.ltb_spec 0 (Z.min m (h + amount) - h)); [lia|].
      by rewrite app_nil_r.
    + intros l'. destruct (decide (l' = l)) as [->|Hne]; [|by apply Hrest].
      unfold UnitManager.healUnit. rewrite Hfind, Hh, Hm.
      cbn [num_add Math_min]. rewrite Heq.
      assert (Hsame : set_health (Num h) (obj s l) = obj s l).
      { rewrite <- Hh. by destruct (obj s l). }
      rewrite Hsame.
      match goal with |- context [if ?c then _ else _] => destruct c end;
        rewrite ?obj_emit; apply obj_write_obj_eq.
Qed.

Lemma healUnit_outcome_witness :
  health (obj (UnitManager.healUnit 0 25 duel_wounded) the_archer)
  = Num (Z.min 60 (50 + 25)).
Proof.
  assert (HI : Inv duel_wounded).
  { apply reachable_Inv. apply reachable_run; [|exact I].
    apply duel_reachable; exact I. }
  assert (Hu : units duel_wounded = [the_archer; the_infantry])
    by (vm_compute; reflexivity).
  assert (Ho : obj duel_wounded the_archer
               = set_health (Num 50) (obj duel the_archer))
    by (vm_compute; reflexivity).
  refine (proj1 (healUnit_outcome duel_wounded 0 25 the_archer
                   50 60 HI _ _ _ _ _ _)).
  - rewrite Hu. apply list_elem_of_here.
  - rewrite Ho, duel_archer. reflexivity.
  - rewrite Ho, duel_archer. reflexivity.
  - rewrite Ho, duel_archer. reflexivity.
  - lia.
  - lia.
Defined.

(** ** Selecting by a list of ids *)

Lemma selectUnit_selection (s : State) (unitId : Z) :
  Inv s →
  let s' := UnitManager.selectUnit unitId s in
  Inv s'
  ∧ units s' = units s
  ∧ (∀ l, id (obj s' l) = id (obj s l))
  ∧ (∀ l, l ∈ selectedUnits s'
          ↔ l ∈ selectedUnits s ∨ (l ∈ units s ∧ id (obj s l) = unitId))
  ∧ (selectedUnits s' = [] → s' = s).
Proof.
  intros HI. cbn zeta.
  pose proof (Inv_selectUnit s unitId HI) as HI'.
  pose proof HI as (Hwf & _ & Hreg).
  pose proof Hreg as (_ & _ & _ & Hsel).
  destruct (find_by_id s unitId (units s)) as [[i l0]|] eqn:Hfind.
  - pose proof (find_by_id_Some _ _ _ _ _ Hfind) as (Hi & Hl0 & Hid0).
    assert (Hsame : ∀ l, l ∈ units s → id (obj s l) = unitId → l = l0).
    { intros l Hl Hid. apply (reg_ok_ids_inj _ _ _ _ _ _ Hreg Hl Hl0).
      by rewrite Hid. }
    destruct (selected (obj s l0)) eqn:Hflag.
    + rewrite selectUnit_noop.
      * split_and!; [done|done|done| |done].
        intros l. split; [by left|]. intros [H|[Hl Hid]]; [done|].
        rewrite (Hsame l Hl Hid). by apply Hsel.
      * intros i' l' Hf'. rewrite Hfind in Hf'. by injection Hf' as _ <-.
    + destruct (selectUnit_found s unitId i l0 Hwf Hfind Hflag)
        as [(_ & HU & HS & Ho & _) _].
      split_and!; [done|done| | |].
      * intros l. rewrite Ho. unfold with_obj. by case_decide; subst.
      * intros l. rewrite HS, elem_of_app, list_elem_of_singleton.
        split; intros [H|H]; [by left|subst; by right|by left|].
        destruct H as [Hl Hid]. right. by apply Hsame.
      * rewrite HS. intros Hnil. by apply app_nil in Hnil as [_ ?].
  - rewrite selectUnit_noop.
    + split_and!; [done|done|done| |done].
      intros l. split; [by left|]. intros [H|[Hl Hid]]; [done|].
      by destruct (find_by_id_None _ _ _ l Hfind Hl).
    + intros i l Hf. by rewrite Hfind in Hf.
Qed.

Lemma selectUnit_fold (unitIds : list Z) (s : State) :
  Inv s →
  let s' := foldl (λ st unitId, UnitManager.selectUnit unitId st) s unitIds in
  Inv s'
  ∧ units s' = units s
  ∧ (∀ l, id (obj s' l) = id (obj s l))
  ∧ (∀ l, l ∈ selectedUnits s'
          ↔ l ∈ selectedUnits s ∨ (l ∈ units s ∧ id (obj s l) ∈ unitIds))
  ∧ (selectedUnits s' = [] → s' = s).
Proof.
  revert s. induction unitIds as [|unitId unitIds IH]; intros s HI; cbn zeta.
  - cbn [foldl]. split_and!; [done|done|done| |done].
    intros l. split; [by left|]. intros [H|[_ H]]; [done|].
    by apply elem_of_nil in H.
  - cbn [foldl].
    destruct (selectUnit_selection s unitId HI)
      as (HI1 & HU1 & Hid1 & Hsel1 & Hnil1).
    destruct (IH _ HI1) as (HI2 & HU2 & Hid2 & Hsel2 & Hnil2).
    split_and!; [done|by rewrite HU2| | |].
    + intros l. by rewrite Hid2.
    + intros l. rewrite Hsel2, Hsel1, HU1, Hid1, elem_of_cons.
      tauto.
    + intros Hnil. rewrite (Hnil2 Hnil) in Hnil |- *. by apply Hnil1.
Qed.

(** X7: selectUnits replaces the selection: afterwards the selected units
    are exactly the stored units whose id is in the list, whatever was
    selected before; ids that no stored unit has are ignored, and
    repeated ids select once.  The stored units stay the same.  When
    the new selection is not empty the last event is units-selected and
    it holds the registry's own selection array; when it is empty the
    call did no more than deselectAll. *)
Theorem selectUnits_outcome (s : State) (unitIds : list Z) :
  Inv s →
  let s' := UnitManager.selectUnits unitIds s in
  units s' = units s
  ∧ NoDup (selectedUnits s')
  ∧ (∀ l, l ∈ selectedUnits s' ↔ l ∈ units s ∧ id (obj s l) ∈ unitIds)
  ∧ (∀ l, l ∈ units s →
          selected (obj s' l) = bool_decide (id (obj s l) ∈ unitIds))
  ∧ (selectedUnits s' ≠ [] →
     last (bus s') = Some (units_selected (selectedUnits_ref s')))
  ∧ (selectedUnits s' = [] → s' = UnitManager.deselectAll s).
Proof.
  intros HI. cbn zeta.
  pose proof HI as (Hwf & _).
  pose proof (Inv_deselectAll s HI) as HI1.
  destruct (deselectAll_effect s Hwf) as (_ & HU1 & HS1 & Ho1 & _).
  assert (Hid1 : ∀ l, id (obj (UnitManager.deselectAll s) l) = id (obj s l)).
  { intros l. rewrite Ho1. by case_decide. }
  destruct (selectUnit_fold unitIds _ HI1)
    as (HI2 & HU2 & Hid2 & Hsel2 & Hnil2).
  pose proof (Inv_selectUnits s unitIds HI) as HI'.
  unfold UnitManager.selectUnits in *.
  set (s2 := foldl (λ st unitId, UnitManager.selectUnit unitId st)
                   (UnitManager.deselectAll s) unitIds) in *.
  assert (Hmem : ∀ l, l ∈ selectedUnits s2
                      ↔ l ∈ units s ∧ id (obj s l) ∈ unitIds).
  { intros l. rewrite Hsel2, HS1, HU1, Hid1. split; [|by right].
    intros [H|H]; [by apply elem_of_nil in H|done]. }
  assert (Hview : ∀ e, units (emit e s2) = units s2
                       ∧ selectedUnits (emit e s2) = selectedUnits s2
                       ∧ (∀ l, obj (emit e s2) l = obj s2 l)) by done.
  assert (Hfinal :
    let s' := if (0 <? length (selectedUnits s2))%nat
              then emit (units_selected (selectedUnits_ref s2)) s2 else s2 in
    units s' = units s2 ∧ selectedUnits s' = selectedUnits s2
    ∧ (∀ l, obj s' l = obj s2 l)).
  { cbn zeta. by case_match. }
  cbn zeta in Hfinal. destruct Hfinal as (HU' & HS' & Ho').
  pose proof HI' as (_ & _ & _ & _ & HndS & Hflag).
  split_and!.
  - by rewrite HU', HU2.
  - done.
  - intros l. by rewrite HS'.
  - intros l Hl. rewrite HU', HU2, HU1 in Hflag.
    rewrite HS' in Hflag.
    destruct (selected _) eqn:Hon.
    + symmetry. apply bool_decide_eq_true_2.
      assert (Hin : l ∈ selectedUnits s2) by (by apply Hflag).
      by apply Hmem in Hin as [_ ?].
    + symmetry. apply bool_decide_eq_false_2. intros Hin.
      assert (Hs : l ∈ selectedUnits s2) by (by apply Hmem).
      apply Hflag in Hs as [_ Hs]. congruence.
  - rewrite HS'. intros Hne.
    destruct (selectedUnits s2) as [|l S] eqn:HS2; [done|].
    cbn [length Nat.ltb Nat.leb]. cbn. by rewrite last_snoc.
  - rewrite HS'. intros Hnil. rewrite Hnil. cbn. by apply Hnil2.
Qed.

Lemma selectUnits_outcome_witness :
  units (UnitManager.selectUnits [1; 7; 1] duel_selected)
  = units duel_selected
  ∧ NoDup (selectedUnits (UnitManager.selectUnits [1; 7; 1] duel_selected)).
Proof.
  assert (HI : Inv duel_selected).
  { apply reachable_Inv. apply reachable_run; [|exact I].
    apply duel_reachable; exact I. }
  destruct (selectUnits_outcome duel_selected [1; 7; 1] HI)
    as (H1 & H2 & _).
  exact (conj H1 H2).
Defined.

(** ** Finding enemies *)

Lemma calculateDistance_distance2 (p q : Position) :
  CombatSystem.calculateDistance p q
  = sqrt (Q2R (CombatSystem.distance2 p q)).
Proof.
  unfold CombatSystem.calculateDistance, CombatSystem.distance2. cbn zeta.
  by rewrite Q2R_plus, !Q2R_mult, !Q2R_minus.
Qed.

Lemma distance2_nonneg (p q : Position) :
  (0 <= Q2R (CombatSystem.distance2 p q))%R.
Proof.
  unfold CombatSystem.distance2. cbn zeta.
  rewrite Q2R_plus, !Q2R_mult.
  apply Rplus_le_le_0_compat; apply Rle_0_sqr.
Qed.

Lemma distance2_le (p a b : Position) :
  Qle_bool (CombatSystem.distance2 p a) (CombatSystem.distance2 p b) = true
  ↔ (CombatSystem.calculateDistance p a
     <= CombatSystem.calculateDistance p b)%R.
Proof.
  rewrite Qle_bool_iff, !calculateDistance_distance2. split.
  - intros Hle. apply sqrt_le_1_alt. by apply Qle_Rle.
  - intros Hle. apply Rle_Qle.
    apply sqrt_le_0; [apply distance2_nonneg..|done].
Qed.

Lemma distance2_lt (p a b : Position) :
  Qle_bool (CombatSystem.distance2 p a) (CombatSystem.distance2 p b) = false
  ↔ (CombatSystem.calculateDistance p b
     < CombatSystem.calculateDistance p a)%R.
Proof.
  pose proof (distance2_le p a b) as Hle.
  destruct (Qle_bool _ _); split; intros H; try done.
  - exfalso. apply (Rlt_not_le _ _ H). by apply Hle.
  - apply Rnot_le_lt. intros Hc. by apply Hle in Hc.
Qed.

(** The loop of findClosestEnemy keeps the first of the closest. *)
Lemma closest_of_spec (s : State) (unit first : nat) (rest : list nat) :
  let dist u := CombatSystem.calculateDistance (position (obj s unit))
                                               (position (obj s u)) in
  let e := CombatSystem.closest_of s unit first rest in
  ∃ pre post,
    first :: rest = pre ++ e :: post
    ∧ (∀ u, u ∈ pre → (dist e < dist u)%R)
    ∧ (∀ u, u ∈ post → (dist e <= dist u)%R).
Proof.
  cbn zeta. induction rest as [|x rest IH] using rev_ind.
  - exists [], []. split_and!; [done|..]; intros u Hu;
      by apply elem_of_nil in Hu.
  - destruct IH as (pre & post & Heq & Hpre & Hpost).
    unfold CombatSystem.closest_of in *. rewrite foldl_app. cbn [foldl].
    set (c := foldl _ first rest) in *.
    destruct (Qle_bool _ _) eqn:Hcmp; cbn [negb].
    + exists pre, (post ++ [x]). split_and!.
      * by rewrite app_comm_cons, Heq, <- app_assoc.
      * done.
      * intros u [Hu|Hu]%elem_of_app; [by apply Hpost|].
        apply list_elem_of_singleton in Hu as ->. by apply distance2_le.
    + apply distance2_lt in Hcmp.
      exists (pre ++ c :: post), []. split_and!.
      * by rewrite app_comm_cons, Heq.
      * intros u [Hu|Hu]%elem_of_app.
        { eapply Rlt_trans; [exact Hcmp|]. by apply Hpre. }
        apply elem_of_cons in Hu as [->|Hu]; [done|].
        eapply Rlt_le_trans; [exact Hcmp|]. by apply Hpost.
      * intros u Hu. by apply elem_of_nil in Hu.
Qed.

(** X8: findClosestEnemy returns null exactly when the array holds no unit
    of another faction.  Otherwise it returns a unit of the array, of
    another faction than the given unit, that is at the least distance
    among those; of several at that distance it returns the first in
    the array.  It changes no unit and emits nothing. *)
Theorem findClosestEnemy_outcome (unit units : nat) (s : State) :
  let r := CombatSystem.findClosestEnemy unit units s in
  let enemies := filter (λ u, faction (obj s u) ≠ faction (obj s unit))
                        (arr s units) in
  let dist u := CombatSystem.calculateDistance (position (obj s unit))
                                               (position (obj s u)) in
  (r.1 = None ↔ ∀ u, u ∈ arr s units →
                     faction (obj s u) = faction (obj s unit))
  ∧ (∀ e, r.1 = Some e →
       e ∈ arr s units ∧ faction (obj s e) ≠ faction (obj s unit)
       ∧ ∃ pre post,
           enemies = pre ++ e :: post
           ∧ (∀ u, u ∈ pre → (dist e < dist u)%R)
           ∧ (∀ u, u ∈ post → (dist e <= dist u)%R))
  ∧ objs r.2 = objs s ∧ bus r.2 = bus s.
Proof.
  cbn zeta. unfold CombatSystem.findClosestEnemy.
  set (enemies := filter _ (arr s units)).
  destruct (alloc_arr_spec enemies s)
    as (_ & Hread & _ & _ & Hobjs & _ & _ & _ & _ & Hbus).
  destruct (alloc_arr enemies s) as [a s1]. cbn [fst snd] in *.
  assert (Ho : ∀ l, obj s1 l = obj s l).
  { intros l. unfold obj. by rewrite Hobjs. }
  rewrite Hread.
  destruct enemies as [|first rest] eqn:Hen; cbn [fst snd].
  - split_and!; [|done|done|done]. split; [|done]. intros _ u Hu.
    destruct (decide (faction (obj s u) = faction (obj s unit))); [done|].
    assert (Hin : u ∈ enemies) by (by apply list_elem_of_filter).
    rewrite Hen in Hin. by apply elem_of_nil in Hin.
  - split_and!; [| |done|done].
    + split; [done|]. intros Hall.
      assert (Hin : first ∈ enemies) by (rewrite Hen; apply list_elem_of_here).
      apply list_elem_of_filter in Hin as [Hne Hin]. destruct Hne.
      by apply Hall.
    + intros e [= <-].
      destruct (closest_of_spec s1 unit first rest)
        as (pre & post & Heq & Hpre & Hpost).
      set (e := CombatSystem.closest_of s1 unit first rest) in *.
      assert (Hin : e ∈ enemies).
      { rewrite Hen, Heq. apply elem_of_app. right. apply list_elem_of_here. }
      apply list_elem_of_filter in Hin as [Hne Hin].
      split_and!; [done|done|]. exists pre, post.
      split_and!; [done| |].
      * intros u Hu. specialize (Hpre u Hu). by rewrite !Ho in Hpre.
      * intros u Hu. specialize (Hpost u Hu). by rewrite !Ho in Hpost.
Qed.

(** X9: findEnemiesInRange returns a new array with the units of the given
    array that are of another faction and within the unit's range, in
    the order of the given array; the unit itself is never among them,
    and a unit whose range is NaN has no enemy in range.  It changes
    no unit and emits nothing. *)
Theorem findEnemiesInRange_outcome (unit units : nat) (s : State) :
  let r := CombatSystem.findEnemiesInRange unit units s in
  (∀ u, u ∈ arr r.2 r.1
        ↔ u ∈ arr s units ∧ faction (obj s u) ≠ faction (obj s unit)
          ∧ CombatSystem.isInRange (obj s unit) (obj s u))
  ∧ sublist (arr r.2 r.1) (arr s units)
  ∧ (unit ∉ arr r.2 r.1)
  ∧ (range (obj s unit) = NaN → arr r.2 r.1 = [])
  ∧ (r.1 ∉ dom (arrs s))
  ∧ (∀ b, b ∈ dom (arrs s) → arr r.2 b = arr s b)
  ∧ objs r.2 = objs s ∧ bus r.2 = bus s.
Proof.
  cbn zeta. unfold CombatSystem.findEnemiesInRange.
  set (found := filter _ (arr s units)).
  destruct (alloc_arr_spec found s)
    as (Hfresh & Hread & Hold & _ & Hobjs & _ & _ & _ & _ & Hbus).
  rewrite Hread.
  assert (Hmem : ∀ u, u ∈ found
                      ↔ u ∈ arr s units
                        ∧ faction (obj s u) ≠ faction (obj s unit)
                        ∧ CombatSystem.isInRange (obj s unit) (obj s u)).
  { intros u. unfold found. rewrite list_elem_of_filter, isInRangeb_spec.
    tauto. }
  split_and!; [done| | | |done|done|done|done].
  - apply sublist_filter.
  - intros Hin. apply Hmem in Hin as (_ & Hne & _). by destruct Hne.
  - intros Hnan. destruct found as [|u us] eqn:Hf; [done|].
    destruct (proj1 (Hmem u) (list_elem_of_here _ _)) as (_ & _ & Hr).
    unfold CombatSystem.isInRange in Hr. by rewrite Hnan in Hr.
Qed.

(** ** Rounds of combat *)

Lemma Inv_set_combatCooldowns (c : gmap Z qnumber) (s : State) :
  Inv s → Inv (set_combatCooldowns c s).
Proof. done. Qed.

Lemma processCombat_skip (attackerId defenderId : Z) (now random : Q)
    (s : State) :
  Inv s →
  q_lt now (or_zero (combatCooldowns s !! attackerId)) = true
  ∨ find_by_id s attackerId (units s) = None
  ∨ find_by_id s defenderId (units s) = None →
  let r := WorldState.processCombat attackerId defenderId now random s in
  r.1 = false ∧ Inv r.2
  ∧ units r.2 = units s ∧ selectedUnits r.2 = selectedUnits s
  ∧ (∀ l, obj r.2 l = obj s l)
  ∧ combatCooldowns r.2 = combatCooldowns s ∧ bus r.2 = bus s.
Proof.
  intros HI Hskip. cbn zeta. unfold WorldState.processCombat.
  destruct (q_lt now (or_zero (combatCooldowns s !! attackerId))) eqn:Hcool.
  { done. }
  destruct (getUnits_frame s HI) as (HI1 & Hcopy & HU1 & HS1 & Ho1 & Hc1 & Hb1).
  destruct (UnitManager.getUnits s) as [copy s1]. cbn [fst snd] in *.
  assert (Hfind : ∀ unitId,
            find_by_id s1 unitId (arr s1 copy) = find_by_id s unitId (units s)).
  { intros unitId. rewrite Hcopy. apply find_by_id_ids.
    intros l. by rewrite Ho1. }
  rewrite !Hfind.
  destruct Hskip as [Hno|[Hnone|Hnone]]; [done|..]; rewrite Hnone.
  - done.
  - by destruct (find_by_id s attackerId (units s)) as [[? ?]|].
Qed.

Lemma processCombat_step (attackerId defenderId : Z) (now random : Q)
    (s : State) (i a j d : nat) :
  Inv s →
  q_lt now (or_zero (combatCooldowns s !! attackerId)) = false →
  find_by_id s attackerId (units s) = Some (i, a) →
  find_by_id s defenderId (units s) = Some (j, d) →
  let hit := CombatSystem.performAttack random a d
               (UnitManager.getUnits s).2 in
  let r := WorldState.processCombat attackerId defenderId now random s in
  Inv r.2
  ∧ r.1 = hit.1
  ∧ health (obj r.2 d) = health (obj hit.2 d)
  ∧ maxHealth (obj r.2 d) = maxHealth (obj s d)
  ∧ (∀ l, l ≠ d → obj r.2 l = obj s l)
  ∧ (d ∉ units r.2 ↔ r.1 = true)
  ∧ (∀ l, l ≠ d → (l ∈ units r.2 ↔ l ∈ units s))
  ∧ combatCooldowns r.2
    = <[attackerId := q_add now (WorldState.attackCooldown
                                   (speed (obj s a)))]>
        (combatCooldowns s)
  ∧ (obj r.2 d = set_health (health (obj r.2 d)) (obj s d)
     ∨ obj r.2 d
       = set_selected false (set_health (health (obj r.2 d)) (obj s d))).
Proof.
  intros HI Hcool Ha Hd. cbn zeta. unfold WorldState.processCombat.
  rewrite Hcool.
  destruct (getUnits_frame s HI) as (HI1 & Hcopy & HU1 & HS1 & Ho1 & Hc1 & Hb1).
  destruct (UnitManager.getUnits s) as [copy s1]. cbn [fst snd] in *.
  assert (Hfind : ∀ unitId,
            find_by_id s1 unitId (arr s1 copy) = find_by_id s unitId (units s)).
  { intros unitId. rewrite Hcopy. apply find_by_id_ids.
    intros l. by rewrite Ho1. }
  rewrite !Hfind, Ha, Hd.
  pose proof (find_by_id_Some _ _ _ _ _ Ha) as (_ & HaU & Haid).
  pose proof (find_by_id_Some _ _ _ _ _ Hd) as (_ & HdU & Hdid).
  destruct (performAttack_effect random a d s1)
    as (Harr2 & Hur2 & Hsr2 & Hn2 & Hc2 & _ & Hrest2 & Hd2 & Hdef & _).
  pose proof (Inv_performAttack random a d s1 HI1) as HI2.
  destruct (CombatSystem.performAttack random a d s1) as [defeated s2].
  cbn [fst snd] in *.
  assert (HU2 : units s2 = units s).
  { rewrite <- HU1. unfold units, arr. by rewrite Harr2, Hur2. }
  assert (Hid2 : id (obj s2 d) = defenderId).
  { rewrite Hd2. cbn. by rewrite Ho1. }
  assert (Hm2 : maxHealth (obj s2 d) = maxHealth (obj s d)).
  { rewrite Hd2. cbn. by rewrite Ho1. }
  set (s3 := if defeated then UnitManager.removeUnit defenderId s2 else s2).
  assert (H3 : Inv s3
               ∧ health (obj s3 d) = health (obj s2 d)
               ∧ maxHealth (obj s3 d) = maxHealth (obj s d)
               ∧ (∀ l, l ≠ d → obj s3 l = obj s l)
               ∧ (d ∉ units s3 ↔ defeated = true)
               ∧ (∀ l, l ≠ d → (l ∈ units s3 ↔ l ∈ units s))
               ∧ combatCooldowns s3 = combatCooldowns s
               ∧ speed (obj s3 a) = speed (obj s a)
               ∧ (obj s3 d = set_health (health (obj s3 d)) (obj s d)
                  ∨ obj s3 d
                    = set_selected false
                        (set_health (health (obj s3 d)) (obj s d)))).
  { subst s3. destruct defeated.
    - rewrite <- Hid2.
      assert (HdU2 : d ∈ units s2) by (by rewrite HU2).
      destruct (removeUnit_stored s2 d HI2 HdU2) as (Hout & _ & Hothers).
      destruct (keeps_health_removeUnit s2 (id (obj s2 d)) HI2)
        as [_ Hkeep].
      destruct (removeUnit_objects s2 (id (obj s2 d)) HI2)
        as [Hobj3 Hcool3].
      split_and!.
      + by apply Inv_removeUnit.
      + by destruct (Hkeep d) as [-> _].
      + destruct (Hkeep d) as [_ ->]. done.
      + intros l Hne. destruct (Hothers l Hne) as (_ & _ & ->).
        by rewrite Hrest2, Ho1.
      + done.
      + intros l Hne. destruct (Hothers l Hne) as (-> & _).
        by rewrite HU2.
      + by rewrite Hcool3, Hc2.
      + destruct (decide (a = d)) as [->|Hne].
        * destruct (Hobj3 d) as [-> | ->]; rewrite Hd2; cbn;
            by rewrite Ho1.
        * destruct (Hothers a Hne) as (_ & _ & ->).
          by rewrite Hrest2, Ho1.
      + destruct (Hkeep d) as [Hhd _]. rewrite Hhd, <- (Ho1 d).
        destruct (Hobj3 d) as [-> | ->]; [left|right]; by rewrite <- Hd2.
    - split_and!; try done.
      + intros l Hne. by rewrite Hrest2, Ho1.
      + split; [|done]. intros Hout. by rewrite HU2 in Hout.
      + intros l Hne. by rewrite HU2.
      + by rewrite Hc2.
      + destruct (decide (a = d)) as [->|Hne].
        * rewrite Hd2. cbn. by rewrite Ho1.
        * by rewrite Hrest2, Ho1.
      + left. rewrite <- (Ho1 d). exact Hd2. }
  destruct H3 as (HI3 & Hh3 & Hm3 & Ho3 & Hout3 & Hin3 & Hc3 & Hspeed & Hobj).
  cbn [fst snd]. fold s3.
  split_and!; try done.
  cbn. by rewrite Hc3, Hspeed.
Qed.



(** ** Combat wears units down *)

Lemma same_stats_refl (u : Unit) : same_stats u u.
Proof. by repeat split. Qed.

Lemma same_stats_trans (u v w : Unit) :
  same_stats u v → same_stats v w → same_stats u w.
Proof.
  intros (H1 & H2 & H3 & H4 & H5 & H6 & H7 & H8 & H9)
         (K1 & K2 & K3 & K4 & K5 & K6 & K7 & K8 & K9).
  repeat split; congruence.
Qed.

Lemma wears_down_ext (s s' : State) :
  units s' = units s → (∀ l, obj s' l = obj s l) → wears_down s s'.
Proof.
  intros HU Ho. split_and!.
  - intros l. by rewrite HU.
  - intros l. rewrite Ho. apply same_stats_refl.
  - intros l h Hh. exists h. rewrite Ho. split; [done|lia].
Qed.

Lemma wears_down_trans (s1 s2 s3 : State) :
  wears_down s1 s2 → wears_down s2 s3 → wears_down s1 s3.
Proof.
  intros (HU1 & Hs1 & Hh1) (HU2 & Hs2 & Hh2). split_and!.
  - intros l Hl. by apply HU1, HU2.
  - intros l. eapply same_stats_trans; [apply Hs1|apply Hs2].
  - intros l h Hh. destruct (Hh1 l h Hh) as (h' & Hh' & Hle).
    destruct (Hh2 l h' Hh') as (h'' & Hh'' & Hle').
    exists h''. split; [done|lia].
Qed.

Lemma stats_ok_wears_down (s s' : State) :
  stats_ok (units s) (obj s) → wears_down s s' →
  stats_ok (units s') (obj s').
Proof.
  intros Hok (HU & Hs & _) a d Ha Hd.
  destruct (Hok a d (HU a Ha) (HU d Hd)) as (av & dv & Hav & Hdv & Hle).
  destruct (Hs a) as (_ & _ & _ & Hatt & _).
  destruct (Hs d) as (_ & _ & _ & _ & Hdef & _).
  exists av, dv. by rewrite Hatt, Hdef.
Qed.

Lemma processCombat_wears_down (attackerId defenderId : Z) (now random : Q)
    (s : State) :
  Inv s → health_ok (units s) (obj s) → stats_ok (units s) (obj s) →
  (0 <= random)%Q → (random < 1)%Q →
  let s' := (WorldState.processCombat attackerId defenderId now random s).2 in
  Inv s' ∧ health_ok (units s') (obj s') ∧ wears_down s s'.
Proof.
  intros HI Hhealth Hstats Hr0 Hr1. cbn zeta.
  destruct (q_lt now (or_zero (combatCooldowns s !! attackerId))) eqn:Hcool;
    [|destruct (find_by_id s attackerId (units s)) as [[i a]|] eqn:Ha;
      [destruct (find_by_id s defenderId (units s)) as [[j d]|] eqn:Hd|]].
  2: {
    destruct (processCombat_step attackerId defenderId now random s i a j d
                HI Hcool Ha Hd)
      as (HI' & Hhit & Hh & Hm & Hrest & Hout & Hin & _ & Hobj).
    pose proof (find_by_id_Some _ _ _ _ _ Ha) as (_ & HaU & _).
    pose proof (find_by_id_Some _ _ _ _ _ Hd) as (_ & HdU & _).
    destruct (getUnits_frame s HI) as (_ & _ & _ & _ & Ho1 & _).
    set (s1 := (UnitManager.getUnits s).2) in *.
    set (r := WorldState.processCombat attackerId defenderId now random s)
      in *.
    destruct (Hhealth d HdU) as (h & m & Hhd & Hmd & Hhm).
    assert (Hnew : ∃ h', health (obj r.2 d) = Num h' ∧ h' <= h
                         ∧ (d ∈ units r.2 → 0 < h')).
    { rewrite Hh.
      destruct (CombatSystem.isInRangeb (obj s1 a) (obj s1 d)) eqn:Hrange.
      - destruct (Hstats a d HaU HdU) as (av & dv & Hav & Hdv & Hle).
        destruct (calculateDamage_ge_one random (obj s1 a) (obj s1 d)
                    av dv) as (n & Hn & Hn1);
          [by rewrite Ho1|by rewrite Ho1|done|done|].
        assert (Hhd1 : health (obj s1 d) = Num h) by (by rewrite Ho1).
        pose proof (performAttack_hit random a d s1 h n Hrange Hhd1 Hn)
          as Hperf. cbn zeta in Hperf.
        assert (Hdead : r.1 = (Z.max 0 (h - n) <=? 0)).
        { rewrite Hhit, Hperf. by destruct (Z.max 0 (h - n) <=? 0). }
        exists (Z.max 0 (h - n)). split_and!.
        + rewrite Hperf.
          destruct (Z.max 0 (h - n) <=? 0); cbn [snd];
            rewrite ?obj_emit; by rewrite obj_write_obj_eq.
        + lia.
        + intros Hstill.
          destruct (Z.leb_spec (Z.max 0 (h - n)) 0) as [Hle0|Hgt]; [|done].
          destruct (proj2 Hout Hdead Hstill).
      - rewrite (performAttack_out_of_range random a d s1 Hrange).
        cbn [snd]. rewrite Ho1. exists h. split_and!; [done|lia|lia]. }
    destruct Hnew as (h' & Hh' & Hle & Hpos).
    assert (Hsame : same_stats (obj s d) (obj r.2 d)).
    { destruct Hobj as [-> | ->]; by repeat split. }
    split_and!; [done| |split_and!].
    - intros l Hl. destruct (decide (l = d)) as [->|Hne].
      + exists h', m. rewrite Hm. split_and!; [done|done|by apply Hpos|lia].
      + rewrite Hrest by done. apply Hhealth. by apply Hin.
    - intros l Hl. destruct (decide (l = d)) as [->|Hne]; [done|].
      by apply Hin.
    - intros l. destruct (decide (l = d)) as [->|Hne]; [done|].
      rewrite Hrest by done. apply same_stats_refl.
    - intros l hl Hl. destruct (decide (l = d)) as [->|Hne].
      + rewrite Hhd in Hl. injection Hl as <-. by exists h'.
      + rewrite Hrest by done. exists hl. split; [done|lia]. }
  all: match goal with
       | |- context [WorldState.processCombat ?a ?d ?t ?r ?s] =>
           destruct (processCombat_skip a d t r s HI)
             as (_ & HI' & HU & _ & Ho & _); [by auto|]
       end.
  all: split_and!; [done| |by apply wears_down_ext].
  all: apply (health_ok_ext _ _ _ _ Hhealth); intros l Hl;
    rewrite HU in Hl; by rewrite Ho.
Qed.

Lemma checkCombatForUnit_wears_down (unitId : Z) (now random : Q)
    (s : State) :
  Inv s → health_ok (units s) (obj s) → stats_ok (units s) (obj s) →
  (0 <= random)%Q → (random < 1)%Q →
  let s' := WorldState.checkCombatForUnit unitId now random s in
  Inv s' ∧ health_ok (units s') (obj s') ∧ wears_down s s'.
Proof.
  intros HI Hhealth Hstats Hr0 Hr1. cbn zeta.
  unfold WorldState.checkCombatForUnit.
  destruct (getUnits_frame s HI) as (HI1 & _ & HU1 & _ & Ho1 & _).
  destruct (UnitManager.getUnits s) as [copy s1]. cbn [fst snd] in *.
  assert (Hw1 : wears_down s s1) by (by apply wears_down_ext).
  assert (Hh1 : health_ok (units s1) (obj s1)).
  { apply (health_ok_ext _ _ _ _ Hhealth). intros l Hl.
    rewrite HU1 in Hl. by rewrite Ho1. }
  destruct (find_by_id s1 unitId (arr s1 copy)) as [[i unit]|]; [|done].
  destruct (q_lt now _); [done|].
  unfold CombatSystem.findEnemiesInRange.
  set (found := filter _ (arr s1 copy)).
  pose proof (Inv_alloc_arr s1 found HI1) as HI2.
  destruct (alloc_arr_frame found s1 (proj1 HI1)) as (_ & HU2 & _ & Ho2).
  destruct (alloc_arr found s1) as [enemiesInRange s2]. cbn [fst snd] in *.
  assert (Hw2 : wears_down s s2).
  { apply (wears_down_trans _ s1); [done|]. by apply wears_down_ext. }
  assert (Hh2 : health_ok (units s2) (obj s2)).
  { apply (health_ok_ext _ _ _ _ Hh1). intros l Hl.
    rewrite HU2 in Hl. by rewrite Ho2. }
  destruct (arr s2 enemiesInRange) as [|target rest]; [done|].
  destruct (processCombat_wears_down (id (obj s2 unit)) (id (obj s2 target))
              now random s2 HI2 Hh2 (stats_ok_wears_down _ _ Hstats Hw2)
              Hr0 Hr1) as (HI3 & Hh3 & Hw3).
  split_and!; [done|done|]. by apply (wears_down_trans _ s2).
Qed.

Lemma checkAllCombat_rounds_wears_down (allUnits : list nat) (k : nat)
    (now random : nat → Q) (s : State) :
  (∀ k, (0 <= random k)%Q ∧ (random k < 1)%Q) →
  Inv s → health_ok (units s) (obj s) → stats_ok (units s) (obj s) →
  let s' := GameModel.checkAllCombat_rounds allUnits k now random s in
  Inv s' ∧ health_ok (units s') (obj s') ∧ wears_down s s'.
Proof.
  intros Hroll. revert k s.
  induction allUnits as [|unit rest IH]; intros k s HI Hhealth Hstats;
    cbn zeta.
  - split_and!; [done|done|]. by apply wears_down_ext.
  - cbn [GameModel.checkAllCombat_rounds].
    destruct (Hroll k) as [Hr0 Hr1].
    destruct (checkCombatForUnit_wears_down (id (obj s unit)) (now k)
                (random k) s HI Hhealth Hstats Hr0 Hr1) as (HI1 & Hh1 & Hw1).
    destruct (IH (S k) _ HI1 Hh1 (stats_ok_wears_down _ _ Hstats Hw1))
      as (HI2 & Hh2 & Hw2).
    split_and!; [done|done|]. by eapply wears_down_trans.
Qed.

(** X11: A sweep of checkAllCombat over a registry in which every stored
    unit is alive, none is above its full health, and every attack and
    defense is a number with 2 * attack - defense >= -1, leaves such a
    registry, whatever the clock says and for any rolls in [0, 1): no
    unit is added, no unit gains health, no stat, position, faction or
    id changes, and a unit whose health reached 0 is no longer
    stored. *)
Theorem checkAllCombat_wears_down (now random : nat → Q) (s : State) :
  (∀ k, (0 <= random k)%Q ∧ (random k < 1)%Q) →
  Inv s → health_ok (units s) (obj s) → stats_ok (units s) (obj s) →
  let s' := GameModel.checkAllCombat now random s in
  Inv s' ∧ health_ok (units s') (obj s') ∧ stats_ok (units s') (obj s')
  ∧ wears_down s s'.
Proof.
  intros Hroll HI Hhealth Hstats. cbn zeta. unfold GameModel.checkAllCombat.
  destruct (getUnits_frame s HI) as (HI1 & _ & HU1 & _ & Ho1 & _).
  destruct (UnitManager.getUnits s) as [allUnits s1]. cbn [fst snd] in *.
  assert (Hw1 : wears_down s s1) by (by apply wears_down_ext).
  assert (Hh1 : health_ok (units s1) (obj s1)).
  { apply (health_ok_ext _ _ _ _ Hhealth). intros l Hl.
    rewrite HU1 in Hl. by rewrite Ho1. }
  destruct (checkAllCombat_rounds_wears_down (arr s1 allUnits) 0 now random
              s1 Hroll HI1 Hh1 (stats_ok_wears_down _ _ Hstats Hw1))
    as (HI2 & Hh2 & Hw2).
  assert (Hw : wears_down s
                 (GameModel.checkAllCombat_rounds (arr s1 allUnits) 0 now
                    random s1)) by (by eapply wears_down_trans).
  split_and!; [done|done| |done]. by eapply stats_ok_wears_down.
Qed.

Lemma duel_health_ok : health_ok (units duel) (obj duel).
Proof.
  intros l Hl. rewrite duel_units in Hl.
  apply elem_of_cons in Hl as [->|Hl];
    [|apply list_elem_of_singleton in Hl as ->].
  - exists 60, 60. rewrite duel_archer. split_and!; [done|done|lia|lia].
  - exists 80, 80. rewrite duel_infantry. split_and!; [done|done|lia|lia].
Qed.

Lemma duel_stats_ok : stats_ok (units duel) (obj duel).
Proof.
  intros a d Ha Hd. rewrite duel_units in Ha, Hd.
  apply elem_of_cons in Ha as [->|Ha];
    [|apply list_elem_of_singleton in Ha as ->];
    (apply elem_of_cons in Hd as [->|Hd];
      [|apply list_elem_of_singleton in Hd as ->]);
    rewrite ?duel_archer, ?duel_infantry; cbn [attack defense];
    eexists _, _; (split_and!; [reflexivity|reflexivity|lia]).
Qed.

Lemma checkAllCombat_wears_down_witness :
  wears_down duel (GameModel.checkAllCombat (λ _, 5000%Q) (λ _, (1 # 2)%Q)
                     duel).
Proof.
  assert (HI : Inv duel).
  { apply reachable_Inv. apply duel_reachable; exact I. }
  refine (proj2 (proj2 (proj2 (checkAllCombat_wears_down (λ _, 5000%Q)
            (λ _, (1 # 2)%Q) duel _ HI duel_health_ok duel_stats_ok)))).
  intros k. split; [discriminate|reflexivity].
Defined.

(** ** The round of one unit *)

(** A round of combat that comes to a hit. *)
Lemma processCombat_attack (attackerId defenderId : Z) (now random : Q)
    (s : State) (i a j d : nat) (h n : Z) :
  Inv s →
  q_lt now (or_zero (combatCooldowns s !! attackerId)) = false →
  find_by_id s attackerId (units s) = Some (i, a) →
  find_by_id s defenderId (units s) = Some (j, d) →
  CombatSystem.isInRangeb (obj s a) (obj s d) = true →
  health (obj s d) = Num h →
  CombatSystem.calculateDamage random (obj s a) (obj s d) = Num n →
  let r := WorldState.processCombat attackerId defenderId now random s in
  let rest := Z.max 0 (h - n) in
  r.1 = bool_decide (h - n <= 0)
  ∧ health (obj r.2 d) = Num rest
  ∧ (d ∈ units r.2 ↔ 0 < h - n)
  ∧ bus r.2
    = bus s ++ combat_attack a d (Num n) (Num rest)
        :: (if bool_decide (h - n <= 0)
            then combat_defeat a d
                 :: (if selected (obj s d) then [unit_deselected d] else [])
                 ++ [unit_removed d]
            else []).
Proof.
  intros HI Hcool Ha Hd Hrange Hh Hn. cbn zeta.
  unfold WorldState.processCombat. rewrite Hcool.
  destruct (getUnits_frame s HI) as (HI1 & Hcopy & HU1 & HS1 & Ho1 & Hc1 & Hb1).
  destruct (UnitManager.getUnits s) as [copy s1]. cbn [fst snd] in *.
  assert (Hfind : ∀ unitId,
            find_by_id s1 unitId (arr s1 copy) = find_by_id s unitId (units s)).
  { intros unitId. rewrite Hcopy. apply find_by_id_ids.
    intros l. by rewrite Ho1. }
  rewrite !Hfind, Ha, Hd.
  pose proof (find_by_id_Some _ _ _ _ _ Hd) as (_ & HdU & Hdid).
  rewrite (performAttack_hit random a d s1 h n);
    [|by rewrite !Ho1..]. cbn zeta.
  set (rest := Z.max 0 (h - n)).
  set (u := set_health (Num rest) (obj s1 d)).
  set (s2 := emit (combat_attack a d (Num n) (Num rest)) (write_obj d u s1)).
  assert (HI2 : Inv s2) by (by apply Inv_emit, Inv_write_obj).
  assert (Ho2 : ∀ l, obj s2 l = with_obj (obj s1) d u l).
  { intros l. unfold s2. rewrite obj_emit. apply obj_write_obj. }
  assert (Hd2 : obj s2 d = u) by (by rewrite Ho2, with_obj_eq).
  assert (HU2 : units s2 = units s) by (by rewrite <- HU1).
  assert (Hb2 : bus s2 = bus s ++ [combat_attack a d (Num n) (Num rest)]).
  { unfold s2. cbn. by rewrite Hb1. }
  destruct (Z.leb_spec rest 0) as [Hle|Hgt]; cbv beta iota zeta;
    cbn [fst snd];
    rewrite obj_set_combatCooldowns, units_set_combatCooldowns,
      bus_set_combatCooldowns.
  - assert (Hdead : h - n <= 0) by (unfold rest in Hle; lia).
    rewrite bool_decide_eq_true_2 by done.
    set (s3 := emit (combat_defeat a d) s2).
    assert (HI3 : Inv s3) by (by apply Inv_emit).
    assert (Hd3 : obj s3 d = u) by done.
    assert (HdU3 : d ∈ units s3) by (by rewrite <- HU2 in HdU).
    assert (Hid3 : id (obj s3 d) = defenderId).
    { rewrite Hd3. cbn. by rewrite Ho1. }
    assert (Hflag : selected (obj s3 d) = selected (obj s d)).
    { rewrite Hd3. cbn. by rewrite Ho1. }
    destruct (find_by_id_stored s3 d HI3 HdU3) as (j3 & Hf3 & _).
    rewrite Hid3 in Hf3.
    destruct (removeUnit_stored s3 d HI3 HdU3) as (Hout & _).
    rewrite Hid3 in Hout.
    destruct (keeps_health_removeUnit s3 defenderId HI3) as [_ Hk].
    pose proof HI3 as (_ & _ & _ & _ & _ & Hsel3).
    assert (Hbus : bus (UnitManager.removeUnit defenderId s3)
                   = bus s3 ++ (if selected (obj s d)
                                then [unit_deselected d] else [])
                            ++ [unit_removed d]).
    { destruct (removeUnit_found s3 _ j3 d HI3 Hf3)
        as [(Hnot & _ & Hb)|(k & Hk' & _ & Hb)]; rewrite Hb, <- Hflag.
      - destruct (selected (obj s3 d)) eqn:Hon; [|done].
        destruct Hnot. by apply Hsel3.
      - assert (Hon : selected (obj s3 d) = true).
        { apply Hsel3. by eapply list_elem_of_lookup_2. }
        by rewrite Hon. }
    split_and!.
    + done.
    + destruct (Hk d) as [-> _]. by rewrite Hd3.
    + split; [done|lia].
    + rewrite Hbus.
      assert (Hb3 : bus s3 = bus s2 ++ [combat_defeat a d]) by done.
      rewrite Hb3, Hb2, <- !app_assoc. done.
  - assert (Halive : 0 < h - n) by (unfold rest in Hgt; lia).
    rewrite bool_decide_eq_false_2 by lia.
    split_and!.
    + done.
    + by rewrite Hd2.
    + rewrite HU2. done.
    + by rewrite Hb2.
Qed.

(** X12: checkCombatForUnit does nothing to the registry, the cooldowns or
    the event bus when no stored unit has the id, when the unit is in
    cooldown, or when no unit of another faction is within its range.
    Otherwise it attacks one unit: the first stored unit, in the order
    of the registry, that is of another faction and in range.  For a
    target of health h and a damage of n, the target is left with the
    health max(0, h - n) and stays stored exactly when that is above
    0; the events are combat-attack and, on a defeat, combat-defeat,
    unit-deselected (if the target was selected) and unit-removed.
    No other unit changes or leaves the registry, and the attacker's
    cooldown is set from the time of the call and its speed. *)
Theorem checkCombatForUnit_outcome (unitId : Z) (now random : Q)
    (s : State) :
  Inv s →
  let s' := WorldState.checkCombatForUnit unitId now random s in
  let idle :=
    units s' = units s ∧ selectedUnits s' = selectedUnits s
    ∧ (∀ l, obj s' l = obj s l)
    ∧ combatCooldowns s' = combatCooldowns s ∧ bus s' = bus s in
  ((∀ l, l ∈ units s → id (obj s l) ≠ unitId) → idle)
  ∧ (q_lt now (or_zero (combatCooldowns s !! unitId)) = true → idle)
  ∧ (∀ u, u ∈ units s → id (obj s u) = unitId →
       let enemies :=
         filter (λ l, faction (obj s l) ≠ faction (obj s u)
                      ∧ CombatSystem.isInRangeb (obj s u) (obj s l) = true)
                (units s) in
       (enemies = [] → idle)
       ∧ (∀ t rest,
            enemies = t :: rest →
            q_lt now (or_zero (combatCooldowns s !! unitId)) = false →
            t ∈ units s
            ∧ faction (obj s t) ≠ faction (obj s u)
            ∧ CombatSystem.isInRange (obj s u) (obj s t)
            ∧ (∀ l, l ≠ t → obj s' l = obj s l
                            ∧ (l ∈ units s' ↔ l ∈ units s))
            ∧ combatCooldowns s'
              = <[unitId := q_add now (WorldState.attackCooldown
                                         (speed (obj s u)))]>
                  (combatCooldowns s)
            ∧ (∀ h n,
                 health (obj s t) = Num h →
                 CombatSystem.calculateDamage random (obj s u) (obj s t)
                 = Num n →
                 health (obj s' t) = Num (Z.max 0 (h - n))
                 ∧ (t ∈ units s' ↔ 0 < h - n)
                 ∧ bus s'
                   = bus s ++ combat_attack u t (Num n)
                                (Num (Z.max 0 (h - n)))
                       :: (if bool_decide (h - n <= 0)
                           then combat_defeat u t
                                :: (if selected (obj s t)
                                    then [unit_deselected t] else [])
                                ++ [unit_removed t]
                           else [])))).
Proof.
  intros HI. cbn zeta. unfold WorldState.checkCombatForUnit.
  destruct (getUnits_frame s HI) as (HI1 & Hcopy & HU1 & HS1 & Ho1 & Hc1 & Hb1).
  destruct (UnitManager.getUnits s) as [copy s1]. cbn [fst snd] in *.
  assert (Hfind : find_by_id s1 unitId (arr s1 copy)
                  = find_by_id s unitId (units s)).
  { rewrite Hcopy. apply find_by_id_ids. intros l. by rewrite Ho1. }
  rewrite Hfind, Hc1.
  split_and!.
  - intros Hno.
    destruct (find_by_id s unitId (units s)) as [[i l]|] eqn:Hf; [|done].
    apply find_by_id_Some in Hf as (_ & Hl & Hid). by destruct (Hno l).
  - intros Hcool.
    destruct (find_by_id s unitId (units s)) as [[i l]|]; [|done].
    by rewrite Hcool.
  - intros u Hu Hid.
    destruct (find_by_id_stored s u HI Hu) as (i & Hf & _).
    rewrite Hid in Hf. rewrite Hf.
    unfold CombatSystem.findEnemiesInRange. rewrite Hcopy.
    assert (Hfilter :
      filter (λ l, faction (obj s1 l) ≠ faction (obj s1 u)
                   ∧ CombatSystem.isInRangeb (obj s1 u) (obj s1 l) = true)
             (units s)
      = filter (λ l, faction (obj s l) ≠ faction (obj s u)
                     ∧ CombatSystem.isInRangeb (obj s u) (obj s l) = true)
               (units s)).
    { apply list_filter_iff. intros l. by rewrite !Ho1. }
    rewrite Hfilter.
    set (enemies := filter _ (units s)).
    pose proof (Inv_alloc_arr s1 enemies HI1) as HI2.
    destruct (alloc_arr_frame enemies s1 (proj1 HI1))
      as (_ & HU2 & HS2 & Ho2).
    destruct (alloc_arr_spec enemies s1)
      as (_ & Hread & _ & _ & _ & _ & _ & _ & Hc2 & Hb2).
    destruct (alloc_arr enemies s1) as [enemiesInRange s2].
    cbn [fst snd] in *. rewrite Hread.
    assert (Hidle2 : units s2 = units s ∧ selectedUnits s2 = selectedUnits s
                     ∧ (∀ l, obj s2 l = obj s l)
                     ∧ combatCooldowns s2 = combatCooldowns s
                     ∧ bus s2 = bus s).
    { split_and!; [congruence|congruence| |congruence|congruence].
      intros l. by rewrite Ho2. }
    destruct Hidle2 as (HU & HS & Ho & Hc & Hb).
    split.
    + intros Hnil. rewrite Hnil.
      destruct (q_lt now _); by split_and!.
    + intros t rest Hen Hcool. rewrite Hcool, Hen.
      assert (Hin : t ∈ enemies) by (rewrite Hen; apply list_elem_of_here).
      apply list_elem_of_filter in Hin as [[Hfac Hrange] Ht].
      assert (Hu2 : u ∈ units s2) by (by rewrite HU).
      assert (Ht2 : t ∈ units s2) by (by rewrite HU).
      destruct (find_by_id_stored s2 u HI2 Hu2) as (iu & Hfu & _).
      destruct (find_by_id_stored s2 t HI2 Ht2) as (it & Hft & _).
      assert (Hcool2 : q_lt now (or_zero (combatCooldowns s2 !! id (obj s2 u)))
                       = false).
      { by rewrite Hc, Ho, Hid. }
      destruct (processCombat_step (id (obj s2 u)) (id (obj s2 t)) now random
                  s2 iu u it t HI2 Hcool2 Hfu Hft)
        as (_ & _ & _ & _ & Hrest & _ & Hkeep & Hcd & _).
      split_and!; [done|done|by apply isInRangeb_spec| | |].
      * intros l Hne. rewrite (Hrest l Hne), Ho, (Hkeep l Hne), HU. done.
      * rewrite Hcd, Hc, !Ho, Hid. done.
      * intros h n Hh Hn.
        destruct (processCombat_attack (id (obj s2 u)) (id (obj s2 t)) now
                    random s2 iu u it t h n HI2 Hcool2 Hfu Hft)
          as (_ & Hh' & Hin' & Hbus'); [by rewrite !Ho..|].
        rewrite Hh', Hin', Hbus', Hb, Ho. done.
Qed.

Lemma checkCombatForUnit_outcome_witness :
  combatCooldowns (WorldState.checkCombatForUnit 0 5000 (1 # 2) duel)
  = <[0 := q_add 5000 (WorldState.attackCooldown
                         (speed (obj duel the_archer)))]>
      (combatCooldowns duel).
Proof.
  assert (HI : Inv duel).
  { apply reachable_Inv. apply duel_reachable; exact I. }
  assert (Hu : the_archer ∈ units duel).
  { rewrite duel_units. apply list_elem_of_here. }
  assert (Hid : id (obj duel the_archer) = 0)
    by (rewrite duel_archer; reflexivity).
  destruct (checkCombatForUnit_outcome 0 5000 (1 # 2) duel HI)
    as (_ & _ & H).
  destruct (H the_archer Hu Hid) as [_ Hhit].
  destruct (Hhit the_infantry []) as (_ & _ & _ & _ & Hc & _).
  - vm_compute. reflexivity.
  - vm_compute. reflexivity.
  - exact Hc.
Defined.

(** ** Ticks *)

Lemma isGameOver_frame (s : State) :
  wf_refs s →
  let w := (WorldState.isGameOver s).2 in
  wf_refs w ∧ units w = units s ∧ selectedUnits w = selectedUnits s
  ∧ (∀ l, obj w l = obj s l) ∧ bus w = bus s
  ∧ combatCooldowns w = combatCooldowns s.
Proof.
  intros Hwf. cbn zeta.
  unfold WorldState.isGameOver, UnitManager.getUnitsByFaction.
  set (P := filter (λ l, faction (obj s l) = player) (units s)).
  destruct (alloc_arr_frame P s Hwf) as (Hwf1 & HU1 & HS1 & Ho1).
  destruct (alloc_arr_spec P s) as (_ & _ & _ & _ & _ & _ & _ & _ & Hc1 & Hb1).
  destruct (alloc_arr P s) as [a1 s1]. cbn [fst snd] in *.
  set (E := filter (λ l, faction (obj s1 l) = enemy) (units s1)).
  destruct (alloc_arr_frame E s1 Hwf1) as (Hwf2 & HU2 & HS2 & Ho2).
  destruct (alloc_arr_spec E s1) as (_ & _ & _ & _ & _ & _ & _ & _ & Hc2 & Hb2).
  destruct (alloc_arr E s1) as [a2 s2]. cbn [fst snd] in *.
  assert (units s2 = units s ∧ selectedUnits s2 = selectedUnits s
          ∧ (∀ l, obj s2 l = obj s l) ∧ bus s2 = bus s
          ∧ combatCooldowns s2 = combatCooldowns s) as (? & ? & ? & ? & ?).
  { split_and!; [congruence|congruence| |congruence|congruence].
    intros l. by rewrite Ho2. }
  by repeat case_match.
Qed.

Section ticks.
Variables updateEnemyUnits checkAllCombat : State → State.

Abbreviation update :=
  (GameModel.update updateEnemyUnits checkAllCombat).


(** X14: A call of update that makes a simulation step ends it with the
    check for the end of the game, on the world [w] the two sweeps
    left.  If both factions still have a unit the game goes on.  If
    one has none the game is paused and game-over is emitted, as the
    last event, with the winner: the enemy when no player unit is
    left, the player otherwise.  From then on no call of update
    changes the world or resumes the game. *)
Theorem update_game_over (time : Q) (g : GameModel.GameModel) :
  GameModel.steps time g = true →
  let w := checkAllCombat (updateEnemyUnits (GameModel.worldState g)) in
  wf_refs w →
  let g' := update time g in
  let players := filter (λ l, faction (obj w l) = player) (units w) in
  let enemies := filter (λ l, faction (obj w l) = enemy) (units w) in
  units (GameModel.worldState g') = units w
  ∧ (∀ l, obj (GameModel.worldState g') l = obj w l)
  ∧ (players ≠ [] → enemies ≠ [] →
     GameModel.paused g' = false
     ∧ bus (GameModel.worldState g') = bus w)
  ∧ (players = [] ∨ enemies = [] →
     GameModel.paused g' = true
     ∧ bus (GameModel.worldState g')
       = bus w ++ [game_over (Some (if decide (players = [])
                                    then enemy else player))
                             (GameModel.gameId g)]
     ∧ ∀ time',
         GameModel.worldState (update time' g') = GameModel.worldState g'
         ∧ GameModel.paused (update time' g') = true).
Proof.
  intros Hstep. cbn zeta. intros Hwf.
  set (w := checkAllCombat (updateEnemyUnits (GameModel.worldState g))) in *.
  set (players := filter (λ l, faction (obj w l) = player) (units w)).
  set (enemies := filter (λ l, faction (obj w l) = enemy) (units w)).
  pose proof (isGameOver_status w (proj1 (proj2 Hwf))) as Hstatus.
  cbn zeta in Hstatus. fold players enemies in Hstatus.
  destruct (isGameOver_frame w Hwf) as (_ & HU & _ & Ho & Hb & _).
  assert (Hpaused : ∀ g0 time',
            GameModel.paused g0 = true →
            GameModel.worldState (update time' g0) = GameModel.worldState g0
            ∧ GameModel.paused (update time' g0) = true).
  { intros g0 time' Hp. unfold GameModel.update.
    destruct (Qeq_bool (GameModel.lastUpdate g0) (-1));
      cbn [GameModel.paused GameModel.set_lastUpdate]; by rewrite Hp. }
  assert (Hupd : update time g
                 = GameModel.checkGameOver
                     (GameModel.set_worldState w
                        (GameModel.set_worldState
                           (updateEnemyUnits (GameModel.worldState g))
                           (GameModel.set_lastUpdate
                              (GameModel.lastUpdate
                                 (if Qeq_bool (GameModel.lastUpdate g) (-1)
                                  then GameModel.set_lastUpdate time g
                                  else g)
                               - GameModel.updateInterval)
                              (if Qeq_bool (GameModel.lastUpdate g) (-1)
                               then GameModel.set_lastUpdate time g
                               else g))))).
  { unfold GameModel.steps in Hstep. unfold GameModel.update.
    apply andb_true_iff in Hstep as [Hrun Hgap].
    apply negb_true_iff in Hrun. rewrite Hrun, Hgap.
    by destruct (Qeq_bool (GameModel.lastUpdate g) (-1)). }
  assert (Hrun : GameModel.paused
                   (if Qeq_bool (GameModel.lastUpdate g) (-1)
                    then GameModel.set_lastUpdate time g else g) = false).
  { unfold GameModel.steps in Hstep.
    apply andb_true_iff in Hstep as [Hrun _]. by apply negb_true_iff. }
  assert (Hid : GameModel.gameId
                  (if Qeq_bool (GameModel.lastUpdate g) (-1)
                   then GameModel.set_lastUpdate time g else g)
                = GameModel.gameId g).
  { by destruct (Qeq_bool (GameModel.lastUpdate g) (-1)). }
  rewrite Hupd. unfold GameModel.checkGameOver.
  cbn [GameModel.worldState GameModel.set_worldState GameModel.gameId
       GameModel.set_lastUpdate].
  destruct (WorldState.isGameOver w) as [status w'] eqn:Hover.
  cbn [fst snd] in *. rewrite Hid. subst status.
  destruct players as [|p ps] eqn:HP; cbn [length Nat.eqb over winner].
  - cbn [GameModel.worldState GameModel.paused].
    split_and!; [done|done|intros H; by destruct H|].
    intros _. rewrite decide_True by done. split_and!; [done|by rewrite <- Hb|].
    intros time'. by apply Hpaused.
  - destruct enemies as [|e es] eqn:HE; cbn [length Nat.eqb over winner];
      cbn [GameModel.worldState GameModel.paused GameModel.set_worldState].
    + split_and!; [done|done|intros _ H; by destruct H|].
      intros _. rewrite decide_False by done.
      split_and!; [done|by rewrite <- Hb|].
      intros time'. by apply Hpaused.
    + split_and!; [done|done|by intros _ _; split|]. by intros [?|?].
Qed.

End ticks.


Lemma update_game_over_witness :
  GameModel.paused (GameModel.update (λ w, w) (λ w, w) 1100 running_game)
  = false.
Proof.
  assert (Hstep : GameModel.steps 1100 running_game = true)
    by (vm_compute; reflexivity).
  destruct (update_game_over (λ w, w) (λ w, w) 1100 running_game Hstep
              duel_wf_refs) as (_ & _ & Hon & _).
  refine (proj1 (Hon _ _)).
  - assert (H : filter (λ l, faction (obj duel l) = player) (units duel)
                = [the_archer]) by (vm_compute; reflexivity).
    cbn [GameModel.worldState running_game]. rewrite H. discriminate.
  - assert (H : filter (λ l, faction (obj duel l) = enemy) (units duel)
                = [the_infantry]) by (vm_compute; reflexivity).
    cbn [GameModel.worldState running_game]. rewrite H. discriminate.
Defined.

(** ** The first units *)

Lemma from_table_health_ok (U : list nat) (o : nat → Unit) :
  (∀ l, l ∈ U → from_table (o l)) → health_ok U o.
Proof.
  intros Hall l Hl.
  destruct (Hall l Hl) as (stats & h & _ & Hm & _ & _ & Hh & Hhm).
  by exists h, (stats_health stats).
Qed.

Lemma from_table_stats_ok (U : list nat) (o : nat → Unit) :
  (∀ l, l ∈ U → from_table (o l)) → stats_ok U o.
Proof.
  intros Hall a d Ha Hd.
  destruct (Hall a Ha) as (sa & _ & Hta & _ & Hatt & _).
  destruct (Hall d Hd) as (sd & _ & Htd & _ & _ & Hdef & _).
  exists (stats_attack sa), (stats_defense sd).
  split_and!; [done|done|]. by eapply UNIT_TYPES_base_damage.
Qed.

Lemma spawned_trans (f : Faction) (n m : nat) (s1 s2 s3 : State) :
  spawned f n s1 s2 → spawned f m s2 s3 → spawned f (n + m) s1 s3.
Proof.
  intros (new1 & HU1 & Hlen1 & Hnew1 & Hold1 & Hn1 & Hc1 & HI1 & Ht1)
         (new2 & HU2 & Hlen2 & Hnew2 & Hold2 & Hn2 & Hc2 & HI2 & Ht2).
  exists (new1 ++ new2). split_and!.
  - by rewrite HU2, HU1, <- app_assoc.
  - rewrite length_app. lia.
  - intros l [Hl|Hl]%elem_of_app; [|by apply Hnew2].
    rewrite Hold2; [by apply Hnew1|].
    rewrite HU1. apply elem_of_app. by right.
  - intros l Hl. rewrite Hold2; [by apply Hold1|].
    rewrite HU1. apply elem_of_app. by left.
  - rewrite Hn2, Hn1. lia.
  - congruence.
  - done.
  - done.
Qed.

Lemma createUnit_spawned (type : string) (stats : UnitStats)
    (pos : Position) (f : Faction) (s : State) :
  UNIT_TYPES !! type = Some stats →
  Inv s → (∀ l, l ∈ units s → from_table (obj s l)) →
  ∃ l s', UnitManager.createUnit type pos f s = Return l s'
          ∧ spawned f 1 s s'.
Proof.
  intros Htype HI Htable.
  assert (Hget : UNIT_TYPES_get type = OwnStats stats).
  { unfold UNIT_TYPES_get. by rewrite Htype. }
  destruct (createUnit_return type pos f s)
    as (l & s' & Hcall & Hfresh & Hobj & Hrest & _ & Harrs & Hur & _ & Hn
        & Hc & _).
  { by rewrite Hget. }
  rewrite Hget in Hobj. cbn [read_stat] in Hobj.
  pose proof (Inv_createUnit s type pos f HI) as HI'.
  cbn [run] in HI'. rewrite Hcall in HI'.
  pose proof HI as ((_ & Hudom & _) & Hdom & _).
  assert (HU : units s' = units s ++ [l]).
  { unfold units, arr. rewrite Hur, Harrs. apply lookup_total_insert_eq. }
  assert (Hold : ∀ l', l' ∈ units s → obj s' l' = obj s l').
  { intros l' Hl'. apply Hrest. intros ->. by apply Hfresh, Hdom. }
  exists l, s'. split; [done|]. exists [l]. split_and!.
  - done.
  - done.
  - intros l' ->%list_elem_of_singleton. by rewrite Hobj.
  - done.
  - rewrite Hn. lia.
  - done.
  - done.
  - intros l'. rewrite HU.
    intros [Hl'| ->%list_elem_of_singleton]%elem_of_app.
    + rewrite Hold by done. by apply Htable.
    + rewrite Hobj. exists stats, (stats_health stats). cbn.
      pose proof (UNIT_TYPES_health_positive type stats Htype).
      split_and!; [done|done|done|done|done|lia|lia].
Qed.

Lemma spawn_forEach_spawned (y0 : Q) (f : Faction) (random : nat → Q)
    (types : list string) (index k : nat) (s : State) :
  (∀ t, t ∈ types → is_Some (UNIT_TYPES !! t)) →
  Inv s → (∀ l, l ∈ units s → from_table (obj s l)) →
  ∃ s', WorldState.spawn_forEach y0 f random types index k s = Return () s'
        ∧ spawned f (length types) s s'.
Proof.
  revert index k s.
  induction types as [|type rest IH]; intros index k s Htypes HI Htable.
  - exists s. split; [done|]. exists []. split_and!; try done.
    + by rewrite app_nil_r.
    + intros l Hl. by apply elem_of_nil in Hl.
    + cbn. lia.
  - destruct (Htypes type) as [stats Hstats]; [apply list_elem_of_here|].
    cbn [WorldState.spawn_forEach]. unfold WorldState.spawn_unit.
    cbn zeta.
    destruct (createUnit_spawned type stats
                {| x := (200 + inject_Z (Z.of_nat index) * 100
                         + (random k * 50 - 25))%Q;
                   y := (y0 + (random (S k) * 100 - 50))%Q |}
                f s Hstats HI Htable) as (l & s1 & -> & Hsp1).
    pose proof Hsp1 as (_ & _ & _ & _ & _ & _ & _ & HI1 & Ht1).
    destruct (IH (S index) (2 + k)%nat s1) as (s' & -> & Hsp2);
      [|done|done|].
    { intros t Ht. apply Htypes. by apply list_elem_of_further. }
    exists s'. split; [done|].
    exact (spawned_trans f 1 (length rest) s s1 s' Hsp1 Hsp2).
Qed.

Lemma unitTypes_in_table (t : string) :
  t ∈ WorldState.unitTypes → is_Some (UNIT_TYPES !! t).
Proof.
  unfold WorldState.unitTypes. rewrite !elem_of_cons.
  intros [->|[->|[->|[->|[->|H]]]]];
    [by vm_compute; eexists..|by apply elem_of_nil in H].
Qed.

Lemma spawn_rows_spawned (rows : nat) (y0 : Q) (f : Faction)
    (random : nat → Q) (k : nat) (s : State) :
  Inv s → (∀ l, l ∈ units s → from_table (obj s l)) →
  ∃ s', WorldState.spawn_rows rows y0 f random k s = Return () s'
        ∧ spawned f (rows * 5) s s'.
Proof.
  revert k s. induction rows as [|rows IH]; intros k s HI Htable.
  - exists s. split; [done|]. exists []. split_and!; try done.
    + by rewrite app_nil_r.
    + intros l Hl. by apply elem_of_nil in Hl.
    + cbn. lia.
  - cbn [WorldState.spawn_rows].
    destruct (spawn_forEach_spawned y0 f random WorldState.unitTypes 0 k s
                unitTypes_in_table HI Htable) as (s1 & -> & Hsp1).
    pose proof Hsp1 as (_ & _ & _ & _ & _ & _ & _ & HI1 & Ht1).
    destruct (IH (2 * length WorldState.unitTypes + k)%nat s1 HI1 Ht1)
      as (s' & -> & Hsp2).
    exists s'. split; [done|].
    exact (spawned_trans f 5 (rows * 5) s s1 s' Hsp1 Hsp2).
Qed.

Lemma filter_nonempty (P : nat → Prop) `{!∀ l, Decision (P l)}
    (xs : list nat) (l : nat) :
  l ∈ xs → P l → (length (filter P xs) =? 0)%nat = false.
Proof.
  intros Hl HP.
  assert (Hin : l ∈ filter P xs) by (by apply list_elem_of_filter).
  destruct (filter P xs); [by apply elem_of_nil in Hin|done].
Qed.

(** X15: spawnInitialUnits does not throw.  To a registry whose units have
    the stats of their types it adds thirty units after the stored
    ones, fifteen of the player and then fifteen of the enemy, each
    unselected and at full health, and takes thirty ids from the
    counter; the stored units are not touched.  The registry it leaves
    is one that the combat sweep preserves: every unit is alive and
    has table stats.  The game is not over in it. *)
Theorem spawnInitialUnits_outcome (height : Q) (random : nat → Q)
    (s : State) :
  Inv s → (∀ l, l ∈ units s → from_table (obj s l)) →
  ∃ players enemies s',
    WorldState.spawnInitialUnits height random s = Return () s'
    ∧ units s' = units s ++ players ++ enemies
    ∧ length players = 15%nat ∧ length enemies = 15%nat
    ∧ (∀ l, l ∈ players → faction (obj s' l) = player)
    ∧ (∀ l, l ∈ enemies → faction (obj s' l) = enemy)
    ∧ (∀ l, l ∈ players ++ enemies →
         selected (obj s' l) = false
         ∧ health (obj s' l) = maxHealth (obj s' l))
    ∧ (∀ l, l ∈ units s → obj s' l = obj s l)
    ∧ nextUnitId s' = nextUnitId s + 30
    ∧ Inv s'
    ∧ health_ok (units s') (obj s') ∧ stats_ok (units s') (obj s')
    ∧ (WorldState.isGameOver s').1 = {| over := false; winner := None |}.
Proof.
  intros HI Htable. unfold WorldState.spawnInitialUnits.
  destruct (spawn_rows_spawned 3 (height - 200) player random 0 s HI Htable)
    as (s1 & -> & players & HU1 & Hlen1 & Hnew1 & Hold1 & Hn1 & _ & HI1
        & Ht1).
  destruct (spawn_rows_spawned 3 200 enemy random
              (6 * length WorldState.unitTypes) s1 HI1 Ht1)
    as (s' & -> & enemies & HU2 & Hlen2 & Hnew2 & Hold2 & Hn2 & _ & HI2
        & Ht2).
  assert (Hp1 : ∀ l, l ∈ players → l ∈ units s1).
  { intros l Hl. rewrite HU1. apply elem_of_app. by right. }
  exists players, enemies, s'. split_and!.
  - done.
  - by rewrite HU2, HU1, <- app_assoc.
  - done.
  - done.
  - intros l Hl. rewrite Hold2 by auto. by apply Hnew1.
  - intros l Hl. by apply Hnew2.
  - intros l [Hl|Hl]%elem_of_app.
    + rewrite Hold2 by auto. destruct (Hnew1 l Hl) as (_ & ? & ?). done.
    + destruct (Hnew2 l Hl) as (_ & ? & ?). done.
  - intros l Hl. rewrite Hold2; [by apply Hold1|].
    rewrite HU1. apply elem_of_app. by left.
  - rewrite Hn2, Hn1. lia.
  - done.
  - by apply from_table_health_ok.
  - by apply from_table_stats_ok.
  - rewrite (isGameOver_status s' (proj1 (proj2 (proj1 HI2)))). cbn zeta.
    destruct players as [|p ps]; [done|].
    destruct enemies as [|e es]; [done|].
    rewrite (filter_nonempty _ (units s') p).
    + rewrite (filter_nonempty _ (units s') e); [done| |].
      * rewrite HU2. apply elem_of_app. right. apply list_elem_of_here.
      * apply Hnew2. apply list_elem_of_here.
    + rewrite HU2. apply elem_of_app. left. apply Hp1, list_elem_of_here.
    + rewrite Hold2 by (apply Hp1, list_elem_of_here).
      apply Hnew1. apply list_elem_of_here.
Qed.

Lemma spawnInitialUnits_outcome_witness :
  ∃ s', WorldState.spawnInitialUnits 600 (λ _, (1 # 2)%Q)
          (UnitManager.new empty_store) = Return () s'
        ∧ nextUnitId s' = nextUnitId (UnitManager.new empty_store) + 30.
Proof.
  destruct (spawnInitialUnits_outcome 600 (λ _, (1 # 2)%Q)
              (UnitManager.new empty_store) (Inv_new empty_store))
    as (players & enemies & s' & Hcall & _ & _ & _ & _ & _ & _ & _ & Hn & _).
  - intros l Hl.
    destruct (fresh_registry empty_store) as (_ & HU & _).
    rewrite HU in Hl. by apply elem_of_nil in Hl.
  - exists s'. exact (conj Hcall Hn).
Defined.

(** ** Moving a unit *)

(** X16: GameModel.moveUnit does nothing while the game is paused.  On a
    running game it does nothing either when no stored unit has the
    id; otherwise it sets the position of that unit to the given one,
    whatever it is, changes nothing else of the unit and no other
    unit, keeps both lists, and emits unit-moved with the old and the
    new position. *)
Theorem GameModel_moveUnit_outcome (unitId : Z) (newPosition : Position)
    (g : GameModel.GameModel) :
  Inv (GameModel.worldState g) →
  let g' := GameModel.moveUnit unitId newPosition g in
  let w := GameModel.worldState g in
  let w' := GameModel.worldState g' in
  (GameModel.paused g = true → g' = g)
  ∧ GameModel.paused g' = GameModel.paused g
  ∧ (GameModel.paused g = false →
     ((∀ l, l ∈ units w → id (obj w l) ≠ unitId) → w' = w)
     ∧ (∀ l, l ∈ units w → id (obj w l) = unitId →
          obj w' l = set_position newPosition (obj w l)
          ∧ (∀ l', l' ≠ l → obj w' l' = obj w l')
          ∧ units w' = units w ∧ selectedUnits w' = selectedUnits w
          ∧ combatCooldowns w' = combatCooldowns w
          ∧ bus w' = bus w ++ [unit_moved l (position (obj w l))
                                          newPosition])).
Proof.
  intros HI. cbn zeta. unfold GameModel.moveUnit.
  destruct (GameModel.paused g) eqn:Hp.
  { split_and!; [done|done|done]. }
  cbn [GameModel.worldState GameModel.paused GameModel.set_worldState].
  unfold WorldState.moveUnit, UnitManager.moveUnit.
  split_and!; [done|done|]. intros _. split.
  - intros Hno.
    destruct (find_by_id _ unitId _) as [[i l]|] eqn:Hf; [|done].
    apply find_by_id_Some in Hf as (_ & Hl & Hid). by destruct (Hno l).
  - intros l Hl Hid.
    destruct (find_by_id_stored _ l HI Hl) as (i & Hf & _).
    rewrite Hid in Hf. rewrite Hf.
    assert (Hpos : {| x := x newPosition; y := y newPosition |} = newPosition)
      by (by destruct newPosition).
    rewrite Hpos. split_and!.
    + by rewrite obj_emit, obj_write_obj_eq.
    + intros l' Hne. rewrite obj_emit. by apply obj_write_obj_ne.
    + done.
    + done.
    + done.
    + done.
Qed.

Lemma GameModel_moveUnit_outcome_witness :
  obj (GameModel.worldState
         (GameModel.moveUnit 0 (at_xy 30 40) running_game)) the_archer
  = set_position (at_xy 30 40) (obj duel the_archer).
Proof.
  assert (HI : Inv (GameModel.worldState running_game)).
  { apply reachable_Inv. apply duel_reachable; exact I. }
  destruct (GameModel_moveUnit_outcome 0 (at_xy 30 40) running_game HI)
    as (_ & _ & H).
  destruct (H eq_refl) as [_ Hmove].
  refine (proj1 (Hmove the_archer _ _)).
  - cbn [GameModel.worldState running_game]. rewrite duel_units.
    apply list_elem_of_here.
  - cbn [GameModel.worldState running_game]. rewrite duel_archer.
    reflexivity.
Defined.

(** ** Queries by area and by faction *)

Lemma in_area_spec (x1 x2 v : Q) :
  Qle_bool (Qmin x1 x2) v && Qle_bool v (Qmax x1 x2) = true
  ↔ (x1 <= v <= x2)%Q ∨ (x2 <= v <= x1)%Q.
Proof.
  rewrite andb_true_iff, !Qle_bool_iff.
  destruct (Qlt_le_dec x1 x2) as [Hlt|Hle].
  - rewrite (Q.min_l x1 x2), (Q.max_r x1 x2) by lra. split; [by left|].
    intros [H|H]; lra.
  - rewrite (Q.min_r x1 x2), (Q.max_l x1 x2) by lra. split; [by right|].
    intros [H|H]; lra.
Qed.

(** X17: getUnitsInArea returns, in a new array and in the order of the
    registry, the stored units whose position lies in the rectangle
    spanned by the two corners, borders included; which of the four
    corners are given, and in which order, makes no difference.  It
    changes nothing of the registry. *)
Theorem getUnitsInArea_outcome (x1 y1 x2 y2 : Q) (s : State) :
  let r := UnitManager.getUnitsInArea x1 y1 x2 y2 s in
  let inside l :=
    ((x1 <= x (position (obj s l)) <= x2)%Q
     ∨ (x2 <= x (position (obj s l)) <= x1)%Q)
    ∧ ((y1 <= y (position (obj s l)) <= y2)%Q
       ∨ (y2 <= y (position (obj s l)) <= y1)%Q) in
  (∀ l, l ∈ arr r.2 r.1 ↔ l ∈ units s ∧ inside l)
  ∧ sublist (arr r.2 r.1) (units s)
  ∧ arr r.2 r.1
    = arr (UnitManager.getUnitsInArea x2 y2 x1 y1 s).2
          (UnitManager.getUnitsInArea x2 y2 x1 y1 s).1
  ∧ arr r.2 r.1
    = arr (UnitManager.getUnitsInArea x1 y2 x2 y1 s).2
          (UnitManager.getUnitsInArea x1 y2 x2 y1 s).1
  ∧ (r.1 ∉ dom (arrs s))
  ∧ (∀ b, b ∈ dom (arrs s) → arr r.2 b = arr s b)
  ∧ objs r.2 = objs s ∧ bus r.2 = bus s.
Proof.
  cbn zeta.
  assert (Hfilter : ∀ a1 b1 a2 b2 l,
    Qle_bool (Qmin a1 a2) (x (position (obj s l)))
    && Qle_bool (x (position (obj s l))) (Qmax a1 a2)
    && Qle_bool (Qmin b1 b2) (y (position (obj s l)))
    && Qle_bool (y (position (obj s l))) (Qmax b1 b2) = true
    ↔ ((a1 <= x (position (obj s l)) <= a2)%Q
       ∨ (a2 <= x (position (obj s l)) <= a1)%Q)
      ∧ ((b1 <= y (position (obj s l)) <= b2)%Q
         ∨ (b2 <= y (position (obj s l)) <= b1)%Q)).
  { intros a1 b1 a2 b2 l. rewrite <- !in_area_spec, <- andb_assoc.
    by rewrite (andb_true_iff (_ && _)). }
  assert (Hread : ∀ a1 b1 a2 b2,
    arr (UnitManager.getUnitsInArea a1 b1 a2 b2 s).2
        (UnitManager.getUnitsInArea a1 b1 a2 b2 s).1
    = filter (λ l,
        Qle_bool (Qmin a1 a2) (x (position (obj s l)))
        && Qle_bool (x (position (obj s l))) (Qmax a1 a2)
        && Qle_bool (Qmin b1 b2) (y (position (obj s l)))
        && Qle_bool (y (position (obj s l))) (Qmax b1 b2) = true)
        (units s)).
  { intros a1 b1 a2 b2. unfold UnitManager.getUnitsInArea. cbn zeta.
    match goal with
    | |- context [alloc_arr ?xs s] =>
        by destruct (alloc_arr_spec xs s) as (_ & -> & _)
    end. }
  rewrite !Hread.
  unfold UnitManager.getUnitsInArea. cbn zeta.
  match goal with
  | |- context [alloc_arr ?xs s] =>
      destruct (alloc_arr_spec xs s)
        as (Hfresh & _ & Hold & _ & Hobjs & _ & _ & _ & _ & Hbus)
  end.
  split_and!; [|apply sublist_filter| | |done|done|done|done].
  - intros l. rewrite list_elem_of_filter, Hfilter. tauto.
  - apply list_filter_iff. intros l. rewrite !Hfilter. tauto.
  - apply list_filter_iff. intros l. rewrite !Hfilter. tauto.
Qed.

Lemma by_faction_Permutation (o : nat → Unit) (xs : list nat) :
  filter (λ l, faction (o l) = player) xs
  ++ filter (λ l, faction (o l) = enemy) xs
  ++ filter (λ l, faction (o l) = neutral) xs ≡ₚ xs.
Proof.
  induction xs as [|a xs IH]; [done|].
  destruct (faction (o a)) eqn:Hf.
  - rewrite (filter_cons_True (λ l, faction (o l) = player)) by done.
    rewrite !filter_cons_False by (cbn; congruence).
    cbn. by constructor.
  - rewrite (filter_cons_True (λ l, faction (o l) = enemy)) by done.
    rewrite !filter_cons_False by (cbn; congruence).
    rewrite <- app_comm_cons, <- Permutation_middle. by constructor.
  - rewrite (filter_cons_True (λ l, faction (o l) = neutral)) by done.
    rewrite !filter_cons_False by (cbn; congruence).
    rewrite app_assoc, <- Permutation_middle, <- app_assoc.
    by constructor.
Qed.

(** X18: getUnitsByFaction splits the registry by the three factions:
    every stored unit is in the array of exactly one faction, each
    array keeps the order of the registry, and the three together are
    a rearrangement of the stored units.  It changes nothing of the
    registry. *)
Theorem getUnitsByFaction_partition (s : State) :
  let by_faction f :=
    arr (UnitManager.getUnitsByFaction f s).2
        (UnitManager.getUnitsByFaction f s).1 in
  (∀ f l, l ∈ by_faction f ↔ l ∈ units s ∧ faction (obj s l) = f)
  ∧ (∀ f, sublist (by_faction f) (units s))
  ∧ by_faction player ++ by_faction enemy ++ by_faction neutral ≡ₚ units s
  ∧ (length (by_faction player) + length (by_faction enemy)
     + length (by_faction neutral))%nat = length (units s)
  ∧ (∀ f f' l, l ∈ by_faction f → l ∈ by_faction f' → f = f')
  ∧ (∀ f, objs (UnitManager.getUnitsByFaction f s).2 = objs s
          ∧ bus (UnitManager.getUnitsByFaction f s).2 = bus s
          ∧ (UnitManager.getUnitsByFaction f s).1 ∉ dom (arrs s)).
Proof.
  cbn zeta.
  assert (Hread : ∀ f,
    arr (UnitManager.getUnitsByFaction f s).2
        (UnitManager.getUnitsByFaction f s).1
    = filter (λ l, faction (obj s l) = f) (units s)).
  { intros f. unfold UnitManager.getUnitsByFaction.
    by destruct (alloc_arr_spec
                   (filter (λ l, faction (obj s l) = f) (units s)) s)
      as (_ & -> & _). }
  split_and!.
  - intros f l. rewrite Hread, list_elem_of_filter. tauto.
  - intros f. rewrite Hread. apply sublist_filter.
  - rewrite !Hread. apply by_faction_Permutation.
  - rewrite !Hread, <- Nat.add_assoc, <- !length_app.
    by rewrite by_faction_Permutation.
  - intros f f' l. rewrite !Hread, !list_elem_of_filter.
    intros [H1 _] [H2 _]. congruence.
  - intros f. unfold UnitManager.getUnitsByFaction.
    destruct (alloc_arr_spec
                (filter (λ l, faction (obj s l) = f) (units s)) s)
      as (Hfresh & _ & _ & _ & Hobjs & _ & _ & _ & _ & Hbus).
    done.
Qed.

(** ** Units of the table *)

Lemma UNIT_TYPES_stats (t : string) (stats : UnitStats) :
  UNIT_TYPES !! t = Some stats →
  stats_attack stats ∈ seqZ 8 8 ∧ stats_defense stats ∈ seqZ 2 7.
Proof.
  assert (Hall : map_Forall
            (λ _ st, 8 <= stats_attack st <= 15
                     ∧ 2 <= stats_defense st <= 8) UNIT_TYPES).
  { apply (bool_decide_unpack _). vm_compute. exact I. }
  intros Ht. pose proof (Hall _ _ Ht) as [Ha Hd]. cbn beta in Ha, Hd.
  split; apply elem_of_seqZ; lia.
Qed.

Lemma UNIT_TYPES_damage_bounds (a d : Z) :
  a ∈ seqZ 8 8 → d ∈ seqZ 2 7 →
  3 <= CombatSystem.minDamage a d
  ∧ CombatSystem.minDamage a d <= CombatSystem.maxDamage a d
  ∧ CombatSystem.maxDamage a d <= 17.
Proof.
  assert (Hall : Forall (λ a, Forall (λ d,
              3 <= CombatSystem.minDamage a d
              ∧ CombatSystem.minDamage a d <= CombatSystem.maxDamage a d
              ∧ CombatSystem.maxDamage a d <= 17) (seqZ 2 7)) (seqZ 8 8)).
  { apply (bool_decide_unpack _). vm_compute. exact I. }
  rewrite Forall_forall in Hall. intros Ha Hd.
  specialize (Hall a Ha). rewrite Forall_forall in Hall. by apply Hall.
Qed.

(** At the largest roll every attack and defense of the range of the
    table gives maxDamage + 1. *)
Lemma UNIT_TYPES_last_roll (a d : Z) :
  a ∈ seqZ 8 8 → d ∈ seqZ 2 7 →
  Qfloor
    (round64
       (inject_Z (CombatSystem.minDamage a d)
        + round64 (last_roll
                   * inject_Z (CombatSystem.maxDamage a d
                               - CombatSystem.minDamage a d + 1))))
  = CombatSystem.maxDamage a d + 1.
Proof.
  assert (Hall : Forall (λ a, Forall (λ d,
              Qfloor
                (round64
                   (inject_Z (CombatSystem.minDamage a d)
                    + round64 (last_roll
                               * inject_Z (CombatSystem.maxDamage a d
                                           - CombatSystem.minDamage a d
                                           + 1))))
              = CombatSystem.maxDamage a d + 1) (seqZ 2 7)) (seqZ 8 8)).
  { apply (bool_decide_unpack _). vm_compute. exact I. }
  rewrite Forall_forall in Hall. intros Ha Hd.
  specialize (Hall a Ha). rewrite Forall_forall in Hall. by apply Hall.
Qed.

(** X19: between two units that have the attack and the defense of
    their types in UNIT_TYPES, a roll in [0, 1) gives a damage that
    is an integer between minDamage and maxDamage + 1, and so between
    3 and 18.  The largest roll, the double next below 1, gives
    maxDamage + 1: the damage can exceed maxDamage for every pair of
    types. *)
Theorem calculateDamage_table (random : Q) (attacker defender : Unit)
    (sa sd : UnitStats) :
  UNIT_TYPES !! type attacker = Some sa →
  UNIT_TYPES !! type defender = Some sd →
  attack attacker = Num (stats_attack sa) →
  defense defender = Num (stats_defense sd) →
  (0 <= random)%Q → (random < 1)%Q →
  (∃ n, CombatSystem.calculateDamage random attacker defender = Num n
        ∧ CombatSystem.minDamage (stats_attack sa) (stats_defense sd) <= n
        ∧ n <= CombatSystem.maxDamage (stats_attack sa) (stats_defense sd)
               + 1
        ∧ 3 <= n <= 18)
  ∧ CombatSystem.calculateDamage last_roll attacker defender
    = Num (CombatSystem.maxDamage (stats_attack sa) (stats_defense sd) + 1).
Proof.
  intros Hta Htd Ha Hd Hr0 Hr1.
  destruct (UNIT_TYPES_stats _ _ Hta) as [Hra _].
  destruct (UNIT_TYPES_stats _ _ Htd) as [_ Hrd].
  destruct (UNIT_TYPES_damage_bounds _ _ Hra Hrd) as (Hmin & Hle & Hmax).
  split.
  - destruct (calculateDamage_roll random attacker defender _ _ Ha Hd)
      as (n & Hn & Hlo & Hhi); [lia|lia|done|done|].
    exists n. split_and!; [done|lia|lia|lia|lia].
  - unfold CombatSystem.calculateDamage. rewrite Ha, Hd. f_equal.
    by apply UNIT_TYPES_last_roll.
Qed.

Lemma calculateDamage_table_witness :
  CombatSystem.calculateDamage last_roll (obj duel the_archer)
    (obj duel the_infantry)
  = Num (CombatSystem.maxDamage 12 5 + 1).
Proof.
  refine (proj2 (calculateDamage_table (1 # 2) (obj duel the_archer)
              (obj duel the_infantry)
              {| stats_health := 60; stats_attack := 12; stats_defense := 3;
                 stats_speed := 3; stats_range := 5 |}
              {| stats_health := 80; stats_attack := 8; stats_defense := 5;
                 stats_speed := 3; stats_range := 1 |} _ _ _ _ _ _)).
  - rewrite duel_archer. vm_compute. reflexivity.
  - rewrite duel_infantry. vm_compute. reflexivity.
  - rewrite duel_archer. reflexivity.
  - rewrite duel_infantry. reflexivity.
  - discriminate.
  - reflexivity.
Defined.

(** X20: createUnit under a name of the table returns a new unit object
    with the next id, the stats of the table, full health, the given
    position and faction, and unselected; the unit is stored last, the
    selection and the other objects are as before, the next id is one
    more, and unit-added is emitted.  Under a name that neither the
    table nor Object.prototype has, it throws and leaves the state as
    it was: no id is used up. *)
Theorem createUnit_outcome (type : string) (pos : Position) (f : Faction)
    (s : State) :
  wf_refs s →
  (∀ stats, UNIT_TYPES !! type = Some stats →
     ∃ l s',
       UnitManager.createUnit type pos f s = Return l s'
       ∧ (l ∉ dom (objs s))
       ∧ obj s' l =
           {| id := nextUnitId s; type := type;
              health := Num (stats_health stats);
              maxHealth := Num (stats_health stats);
              attack := Num (stats_attack stats);
              defense := Num (stats_defense stats);
              speed := Num (stats_speed stats);
              range := Num (stats_range stats);
              position := pos; selected := false; faction := f |}
       ∧ units s' = units s ++ [l]
       ∧ selectedUnits s' = selectedUnits s
       ∧ (∀ l', l' ≠ l → obj s' l' = obj s l')
       ∧ nextUnitId s' = nextUnitId s + 1
       ∧ bus s' = bus s ++ [unit_added l])
  ∧ (UNIT_TYPES !! type = None → type ∉ Object_prototype_keys →
     UnitManager.createUnit type pos f s = Throw (UnknownUnitType type) s).
Proof.
  intros (Hne & Hu & Hs). split.
  - intros stats Htype.
    assert (Hget : UNIT_TYPES_get type = OwnStats stats).
    { unfold UNIT_TYPES_get. by rewrite Htype. }
    destruct (createUnit_return type pos f s)
      as (l & s' & Hcall & Hfresh & Hobj & Hrest & _ & Harrs & Hur & Hsr
          & Hn & _ & Hb).
    { by rewrite Hget. }
    rewrite Hget in Hobj. cbn [read_stat] in Hobj.
    exists l, s'. split_and!; try done.
    + unfold units, arr. rewrite Hur, Harrs. apply lookup_total_insert_eq.
    + unfold selectedUnits, arr. rewrite Hsr, Harrs.
      by apply lookup_total_insert_ne.
  - intros Hnone Hnot. apply createUnit_undefined.
    unfold UNIT_TYPES_get. rewrite Hnone.
    by rewrite bool_decide_eq_false_2.
Qed.

Lemma createUnit_outcome_witness :
  UnitManager.createUnit "dragon" (at_xy 0 0) player duel
  = Throw (UnknownUnitType "dragon") duel.
Proof.
  refine (proj2 (createUnit_outcome "dragon" (at_xy 0 0) player duel
                   duel_wf_refs) _ _).
  - vm_compute. reflexivity.
  - apply (bool_decide_unpack _). vm_compute. exact I.
Defined.

(** ** Selecting and deselecting one unit *)

Lemma delete_snoc (S : list nat) (l : nat) : delete (length S) (S ++ [l]) = S.
Proof. induction S as [|a S IH]; [done|]. cbn. f_equal. exact IH. Qed.

(** X21: Selecting a unit that is already selected, or an id that no stored
    unit has, does nothing, so selectUnit twice is selectUnit once.
    Selecting an unselected stored unit puts it last in the selection,
    and deselecting it again gives back the registry as it was; the
    two events are unit-selected and then unit-deselected. *)
Theorem selectUnit_deselectUnit (s : State) (unitId : Z) :
  Inv s →
  let s1 := UnitManager.selectUnit unitId s in
  let s2 := UnitManager.deselectUnit unitId s1 in
  UnitManager.selectUnit unitId s1 = s1
  ∧ ((∀ l, l ∈ units s → id (obj s l) = unitId →
           selected (obj s l) = true) → s1 = s)
  ∧ (∀ l, l ∈ units s → id (obj s l) = unitId →
          selected (obj s l) = false →
          selectedUnits s1 = selectedUnits s ++ [l]
          ∧ obj s1 l = set_selected true (obj s l)
          ∧ registry_view s2 = registry_view s
          ∧ bus s2 = bus s ++ [unit_selected l; unit_deselected l]).
Proof.
  intros HI. cbn zeta.
  pose proof (Inv_selectUnit s unitId HI) as HI1.
  pose proof HI as (Hwf & _ & Hreg).
  pose proof Hreg as (_ & _ & _ & Hsel).
  assert (Hnoop : (∀ l, l ∈ units s → id (obj s l) = unitId →
                        selected (obj s l) = true) →
                  UnitManager.selectUnit unitId s = s).
  { intros Hall. apply selectUnit_noop. intros i l Hf.
    apply find_by_id_Some in Hf as (_ & Hl & Hid). by apply Hall. }
  assert (Hround : ∀ l, l ∈ units s → id (obj s l) = unitId →
            selected (obj s l) = false →
            selectedUnits (UnitManager.selectUnit unitId s)
            = selectedUnits s ++ [l]
            ∧ obj (UnitManager.selectUnit unitId s) l
              = set_selected true (obj s l)
            ∧ units (UnitManager.selectUnit unitId s) = units s
            ∧ (∀ l', l' ≠ l →
                 obj (UnitManager.selectUnit unitId s) l' = obj s l')
            ∧ bus (UnitManager.selectUnit unitId s)
              = bus s ++ [unit_selected l]).
  { intros l Hl Hid Hoff.
    destruct (find_by_id_stored s l HI Hl) as (i & Hf & _).
    rewrite Hid in Hf.
    destruct (selectUnit_found s unitId i l Hwf Hf Hoff)
      as [(_ & HU & HS & Ho & _) Hb].
    split_and!; [done| |done| |done].
    - by rewrite Ho, with_obj_eq.
    - intros l' Hne. rewrite Ho. by apply with_obj_ne. }
  split_and!.
  - apply selectUnit_noop. intros i l Hf.
    apply find_by_id_Some in Hf as (_ & Hl & Hid).
    destruct (selectUnit_selection s unitId HI) as (_ & HU & Hids & _).
    rewrite HU in Hl. rewrite Hids in Hid.
    destruct (selected (obj s l)) eqn:Hoff.
    + rewrite Hnoop; [done|]. intros l' Hl' Hid'.
      assert (l' = l) as ->; [|done].
      apply (reg_ok_ids_inj _ _ _ _ _ _ Hreg Hl' Hl). congruence.
    + destruct (Hround l Hl Hid Hoff) as (_ & -> & _). done.
  - exact Hnoop.
  - intros l Hl Hid Hoff.
    destruct (Hround l Hl Hid Hoff) as (HS1 & Ho1 & HU1 & Hrest1 & Hb1).
    set (s1 := UnitManager.selectUnit unitId s) in *.
    split_and!; [done|done|..].
    all: pose proof HI1 as (Hwf1 & _ & Hreg1);
      assert (Hl1 : l ∈ units s1) by (by rewrite HU1);
      assert (Hid1 : id (obj s1 l) = unitId) by (by rewrite Ho1);
      pose proof (reg_ok_find_selected _ _ _ _ l Hreg1 Hl1) as Hfs;
      rewrite Hid1 in Hfs;
      fold (find_by_id s1 unitId (selectedUnits s1)) in Hfs;
      destruct (find_by_id s1 unitId (selectedUnits s1)) as [[j l']|]
        eqn:Hf1;
      [destruct Hfs as [-> Hj]
      |destruct Hfs; rewrite HS1; apply elem_of_app; right;
       apply list_elem_of_here].
    all: assert (Hjlen : j = length (selectedUnits s));
      [pose proof Hreg1 as (_ & _ & HndS1 & _);
       apply (NoDup_lookup _ _ _ l HndS1 Hj);
       rewrite HS1; by apply list_lookup_middle|subst j].
    all: destruct (deselectUnit_found s1 unitId _ l Hwf1 Hf1)
      as [(_ & HU2 & HS2 & Ho2 & _) Hb2].
    + apply registry_view_eq.
      * by rewrite HU2.
      * by rewrite HS2, HS1, delete_snoc.
      * intros l'. rewrite Ho2. unfold with_obj. case_decide as Hd.
        -- subst l'. rewrite Ho1. cbn. rewrite <- Hoff. by destruct (obj s l).
        -- by apply Hrest1.
    + rewrite Hb2, Hb1, <- app_assoc. done.
Qed.

Lemma selectUnit_deselectUnit_witness :
  registry_view (UnitManager.deselectUnit 1 (UnitManager.selectUnit 1 duel))
  = registry_view duel.
Proof.
  assert (HI : Inv duel).
  { apply reachable_Inv. apply duel_reachable; exact I. }
  destruct (selectUnit_deselectUnit duel 1 HI) as (_ & _ & H).
  refine (proj1 (proj2 (proj2 (H the_infantry _ _ _)))).
  - rewrite duel_units. apply list_elem_of_further, list_elem_of_here.
  - rewrite duel_infantry. reflexivity.
  - rewrite duel_infantry. reflexivity.
Defined.

(** ** Clearing the registry *)

(** X22: clear empties both lists by giving the registry two new arrays:
    arrays handed out before keep their contents, no unit object
    changes (a unit that was selected keeps its flag), the id counter
    is not reset, and units-cleared is emitted. *)
Theorem clear_outcome (s : State) :
  let s' := UnitManager.clear s in
  units s' = [] ∧ selectedUnits s' = []
  ∧ (∀ l, obj s' l = obj s l)
  ∧ (∀ b, b ∈ dom (arrs s) → arr s' b = arr s b)
  ∧ (units_ref s' ∉ dom (arrs s)) ∧ (selectedUnits_ref s' ∉ dom (arrs s))
  ∧ nextUnitId s' = nextUnitId s
  ∧ combatCooldowns s' = combatCooldowns s
  ∧ bus s' = bus s ++ [units_cleared]
  ∧ Inv s'.
Proof.
  cbn zeta. pose proof (Inv_clear s) as HI. rewrite clear_is_new in *.
  destruct (fresh_registry s) as (_ & HU & HS & Hobjs & Hn & Hc & Hb).
  unfold UnitManager.new in *.
  destruct (alloc_arr_spec [] s)
    as (Hf1 & _ & Hold1 & Hd1 & _).
  destruct (alloc_arr [] s) as [u s1] eqn:E1. cbn [fst snd] in *.
  destruct (alloc_arr_spec [] (set_units_ref u s1))
    as (Hf2 & _ & Hold2 & Hd2 & _).
  destruct (alloc_arr [] (set_units_ref u s1)) as [v s2] eqn:E2.
  cbn [fst snd] in *.
  split_and!; [done|done| | | | |done|done|by rewrite <- Hb|done].
  - intros l. unfold obj. by rewrite <- Hobjs.
  - intros b Hb'. rewrite arr_emit.
    change (arr s2 b = arr s b). rewrite Hold2.
    + change (arr s1 b = arr s b). by apply Hold1.
    + change (b ∈ dom (arrs s1)). rewrite Hd1. by apply elem_of_union_r.
  - assert (Hur : units_ref s2 = u).
    { destruct (alloc_arr_spec [] (set_units_ref u s1))
        as (_ & _ & _ & _ & _ & Hur & _).
      rewrite E2 in Hur. exact Hur. }
    change (units_ref s2 ∉ dom (arrs s)). by rewrite Hur.
  - change (v ∉ dom (arrs s)). intros Hv. apply Hf2.
    change (v ∈ dom (arrs s1)). rewrite Hd1. by apply elem_of_union_r.
Qed.

(** ** One attack *)

(** X23: performAttack on a target out of range returns false and changes
    nothing.  In range, with a damage of n on a defender of health h,
    it sets the defender's health to max(0, h - n), emits
    combat-attack with the damage and the remaining health, and
    returns true, after emitting combat-defeat, exactly when that
    health is 0.  It changes no other unit and does not look at the
    factions; the defeated unit stays in the registry. *)
Theorem performAttack_outcome (random : Q) (a d : nat) (s : State) :
  let r := CombatSystem.performAttack random a d s in
  (CombatSystem.isInRangeb (obj s a) (obj s d) = false → r = (false, s))
  ∧ (∀ h n,
       CombatSystem.isInRangeb (obj s a) (obj s d) = true →
       health (obj s d) = Num h →
       CombatSystem.calculateDamage random (obj s a) (obj s d) = Num n →
       let rest := Z.max 0 (h - n) in
       obj r.2 d = set_health (Num rest) (obj s d)
       ∧ r.1 = bool_decide (h - n <= 0)
       ∧ (∀ l, l ≠ d → obj r.2 l = obj s l)
       ∧ arrs r.2 = arrs s
       ∧ bus r.2 = bus s ++ combat_attack a d (Num n) (Num rest)
                     :: (if r.1 then [combat_defeat a d] else [])).
Proof.
  cbn zeta. split; [apply performAttack_out_of_range|].
  intros h n Hrange Hh Hn.
  rewrite (performAttack_hit random a d s h n Hrange Hh Hn). cbn zeta.
  destruct (Z.leb_spec (Z.max 0 (h - n)) 0) as [Hle|Hgt]; cbn [fst snd].
  - rewrite bool_decide_eq_true_2 by lia.
    split_and!; [|done| |done|].
    + by rewrite !obj_emit, obj_write_obj_eq.
    + intros l Hne. rewrite !obj_emit. by apply obj_write_obj_ne.
    + cbn. by rewrite <- app_assoc.
  - rewrite bool_decide_eq_false_2 by lia.
    split_and!; [|done| |done|done].
    + by rewrite !obj_emit, obj_write_obj_eq.
    + intros l Hne. rewrite !obj_emit. by apply obj_write_obj_ne.
Qed.
